(** * IR-labs: inverted-index builder and Boolean query engine

    Shallow embedding of [indexer.cpp], [stemming.cpp] and [search_cli.cpp]
    and the properties of their data structures and algorithms.

    Conventions of the embedding.
    - Machine integers are [Z]; where the C++ arithmetic can wrap the
      reduction is written out ([wrap32], [wrap64]).  [size_t] counters are
      bounded by the size of an allocation and are kept unreduced.
    - A byte is a [Z] in [0, 256); a C string or byte buffer is a [list Z].
    - A C array together with its length is a [list]; a read cursor [i] into
      an array that only moves forward is the suffix still to be read.
    - [malloc]/[realloc] are assumed to succeed; capacity fields are kept
      where a structure has them. *)

From Stdlib Require Import ZArith List Bool Ascii String Sorted Lia.
From stdpp Require Import base option list gmap strings.
From Equations Require Import Equations.

Local Open Scope Z_scope.

(** ** Bytes and fixed-width integers *)

Definition wrap32 (x : Z) : Z := x mod 2 ^ 32.
Definition wrap64 (x : Z) : Z := x mod 2 ^ 64.

Definition ch (c : ascii) : Z := Z.of_N (N_of_ascii c).

Fixpoint str (s : string) : list Z :=
  match s with
  | EmptyString => []
  | String c s' => ch c :: str s'
  end.

Definition zlen {A} (l : list A) : Z := Z.of_nat (length l).

(** [b[i]] for a signed index; the cell past the data reads as NUL. *)
Definition at_ (b : list Z) (i : Z) : Z := nth (Z.to_nat i) b 0.

(** [memcmp(a, b, n)]: sign of the first differing byte among the first [n]. *)
Fixpoint memcmp (a b : list Z) (n : nat) : Z :=
  match n with
  | O => 0
  | S n' =>
      let x := hd 0 a in
      let y := hd 0 b in
      if x <? y then -1
      else if y <? x then 1
      else memcmp (tl a) (tl b) n'
  end.

Definition is_ascii_alnum (c : Z) : bool :=
  ((ch "0" <=? c) && (c <=? ch "9")) ||
  ((ch "A" <=? c) && (c <=? ch "Z")) ||
  ((ch "a" <=? c) && (c <=? ch "z")).

Definition to_lower_ascii (c : Z) : Z :=
  if (ch "A" <=? c) && (c <=? ch "Z") then c - ch "A" + ch "a" else c.

(** A C string held in a buffer: the bytes before the first NUL
    ([strlen] of them). *)
Fixpoint c_str (s : list Z) : list Z :=
  match s with
  | c :: rest => if c =? 0 then [] else c :: c_str rest
  | [] => []
  end.

(** A strictly ascending array of doc-ids. *)
Definition ascending (l : list Z) : Prop := Sorted Z.lt l.

(** ** indexer.cpp *)

Module Indexer.

Definition fnv1a_64_loop (s : list Z) (h : Z) : Z :=
  fold_left (fun h c => wrap64 (Z.lxor h c * 1099511628211)) s h.

Definition fnv1a_64 (s : list Z) (len : Z) : Z :=
  let h := fnv1a_64_loop (take (Z.to_nat len) s) 1469598103934665603 in
  if h =? 0 then 1 else h.

(** *** Arena *)

(** [arena_buf] holds the bytes [buf[0..used)]. *)
Record Arena := mkArena { arena_buf : list Z; arena_cap : Z }.

Definition arena_used (a : Arena) : Z := zlen (arena_buf a).

Definition Arena_init (cap_bytes : Z) : Arena := mkArena [] cap_bytes.

Definition Arena_reset (a : Arena) : Arena := mkArena [] (arena_cap a).

(** [while (used + need > new_cap) new_cap *= 2;] with [new_cap >= 1]: the
    bound [fuel] on the number of doublings is never reached when it is at
    least the number of bits of [target]. *)
Fixpoint double_until (fuel : nat) (new_cap target : Z) : Z :=
  match fuel with
  | O => new_cap
  | S fuel' =>
      if new_cap <? target then double_until fuel' (new_cap * 2) target
      else new_cap
  end.

(** [add(s, len)]: the bytes and a terminating NUL are appended. *)
Definition Arena_add (a : Arena) (s : list Z) (len : Z) : Arena :=
  let need := len + 1 in
  let cap' :=
    if arena_cap a <? arena_used a + need then
      let new_cap := if arena_cap a =? 0 then 2 ^ 20 else arena_cap a in
      double_until (Z.to_nat (Z.log2_up (arena_used a + need)) + 1)
                   new_cap (arena_used a + need)
    else arena_cap a in
  mkArena (arena_buf a ++ take (Z.to_nat len) s ++ [0]) cap'.

(** *** U32List *)

(** [U32List_a] holds the cells [a[0..n)]; [n] is its length.  The list is
    the content of the buffer while [n <= cap], which [push_unique_sorted]
    keeps up to [2^31] cells; at [n = cap = 2^31] the doubled capacity
    wraps to 0 and the store of the code falls outside the buffer, where
    the list below only records the value pushed. *)
Record U32List := mkU32List { U32List_a : list Z; U32List_cap : Z }.

Definition U32List_n (l : U32List) : Z := zlen (U32List_a l).

Definition U32List_empty : U32List := mkU32List [] 0.

Definition push_unique_sorted (l : U32List) (v : Z) : U32List :=
  let n := U32List_n l in
  if (0 <? n) && (at_ (U32List_a l) (n - 1) =? v) then l
  else
    let cap := U32List_cap l in
    let cap' := if n =? cap then (if cap =? 0 then 8 else wrap32 (cap * 2))
                else cap in
    mkU32List (U32List_a l ++ [v]) cap'.

(** *** The (bytes, length) order on terms *)

Definition lex_cmp_str (a : list Z) (alen : Z) (b : list Z) (blen : Z) : Z :=
  let m := if alen <? blen then alen else blen in
  let c := memcmp a b (Z.to_nat m) in
  if negb (c =? 0) then c
  else if alen <? blen then -1 else if blen <? alen then 1 else 0.

(** *** merge_union_u32 *)

(** [if (k==0 || out[k-1]!=v) out[k++]=v;] *)
Definition emit (out : list Z) (v : Z) : list Z :=
  match last out with
  | Some w => if w =? v then out else out ++ [v]
  | None => out ++ [v]
  end.

(** The three loops of [merge_union_u32]; [a] and [b] are the unread parts
    [a[i..na)] and [b[j..nb)], [out] is [out[0..k)].  The buffer [out] has
    [cap = na + nb] cells, a 32-bit sum: the list is what the code stores
    as long as [na + nb < 2^32], where [k <= cap] throughout. *)
Fixpoint merge_union_loop (a : list Z) : list Z -> list Z -> list Z :=
  fix scan_b (b out : list Z) {struct b} : list Z :=
    match a, b with
    | x :: a', y :: b' =>
        if x =? y then merge_union_loop a' b' (emit out x)
        else if x <? y then merge_union_loop a' b (emit out x)
        else scan_b b' (emit out y)
    | _, [] => fold_left emit a out
    | [], _ => fold_left emit b out
    end.

Definition merge_union_u32 (a b : list Z) : list Z := merge_union_loop a b [].

(** *** TermTable *)

(** [term] points into the arena; [te_term] is the bytes it points at.
    This is the entry of the code as long as every [Arena_add] finds room
    ([used + len + 1 <= cap]): then the buffer is not reallocated and the
    bytes stored stay where they are.  An [add] that has to [realloc] may
    move the buffer, and the pointers of the older entries then dangle;
    the record says nothing of such entries. *)
Record TermEntry := mkTermEntry {
  te_hash : Z; te_term : list Z; te_len : Z; te_post : U32List }.

Definition TermEntry_zero : TermEntry := mkTermEntry 0 [] 0 U32List_empty.

Record TermTable := mkTermTable {
  tt_tab : list TermEntry; tt_cap : Z; tt_used : Z; tt_arena : Arena }.

Definition TermTable_init (cap_pow2 arena_bytes : Z) : TermTable :=
  mkTermTable (replicate (Z.to_nat cap_pow2) TermEntry_zero) cap_pow2 0
              (Arena_init arena_bytes).

Definition TermTable_clear (tt : TermTable) : TermTable :=
  mkTermTable (replicate (Z.to_nat (tt_cap tt)) TermEntry_zero) (tt_cap tt) 0
              (Arena_reset (tt_arena tt)).

Definition slot (tab : list TermEntry) (pos : Z) : TermEntry :=
  nth (Z.to_nat pos) tab TermEntry_zero.

(** [while (tab[pos].hash != 0) pos = (pos + 1) & mask;] tried [fuel] times;
    [None] when no empty slot was met. *)
Fixpoint find_empty (fuel : nat) (tab : list TermEntry) (mask pos : Z) : option Z :=
  match fuel with
  | O => None
  | S fuel' =>
      if te_hash (slot tab pos) =? 0 then Some pos
      else find_empty fuel' tab mask (Z.land (pos + 1) mask)
  end.

(** The rehash loop of [maybe_grow] over the old slots. *)
Fixpoint rehash (old : list TermEntry) (tab : list TermEntry) (cap used : Z)
  : option (list TermEntry * Z) :=
  match old with
  | [] => Some (tab, used)
  | e :: old' =>
      if te_hash e =? 0 then rehash old' tab cap used
      else
        let mask := cap - 1 in
        pos ← find_empty (Z.to_nat cap) tab mask (Z.land (te_hash e) mask);
        rehash old' (<[Z.to_nat pos := e]> tab) cap (used + 1)
  end.

Definition maybe_grow (tt : TermTable) : option TermTable :=
  if tt_used tt * 10 <? tt_cap tt * 7 then Some tt
  else
    let new_cap := tt_cap tt * 2 in
    '(tab, used) ← rehash (tt_tab tt)
                     (replicate (Z.to_nat new_cap) TermEntry_zero) new_cap 0;
    Some (mkTermTable tab new_cap used (tt_arena tt)).

(** The [while (1)] probe of [get_or_create], tried [fuel] times. *)
Fixpoint get_or_create_probe (fuel : nat) (tt : TermTable) (s : list Z) (len : Z)
  (h mask pos : Z) : option (TermTable * Z) :=
  match fuel with
  | O => None
  | S fuel' =>
      let e := slot (tt_tab tt) pos in
      if te_hash e =? 0 then
        let e' := mkTermEntry h (take (Z.to_nat len) s) (len mod 2 ^ 16)
                              U32List_empty in
        Some (mkTermTable (<[Z.to_nat pos := e']> (tt_tab tt)) (tt_cap tt)
                          (tt_used tt + 1) (Arena_add (tt_arena tt) s len), pos)
      else if (te_hash e =? h) && (te_len e =? len mod 2 ^ 16)
              && (memcmp (te_term e) s (Z.to_nat len) =? 0) then
        Some (tt, pos)
      else get_or_create_probe fuel' tt s len h mask (Z.land (pos + 1) mask)
  end.

(** Returns the table and the slot of the entry ([None] for [nullptr]);
    the outer [None] stands for a probe loop that never ends. *)
Definition get_or_create (tt : TermTable) (s : list Z) (len : Z)
  : option (TermTable * option Z) :=
  if len <=? 0 then Some (tt, None)
  else
    tt1 ← maybe_grow tt;
    let h := fnv1a_64 s len in
    let mask := tt_cap tt1 - 1 in
    '(tt2, pos) ← get_or_create_probe (Z.to_nat (tt_cap tt1)) tt1 s len h mask
                                      (Z.land h mask);
    Some (tt2, Some pos).

(** [e->post.push_unique_sorted(v)] on the entry in slot [pos]. *)
Definition push_post (tt : TermTable) (pos : Z) (v : Z) : TermTable :=
  let e := slot (tt_tab tt) pos in
  let e' := mkTermEntry (te_hash e) (te_term e) (te_len e)
                        (push_unique_sorted (te_post e) v) in
  mkTermTable (<[Z.to_nat pos := e']> (tt_tab tt)) (tt_cap tt) (tt_used tt)
              (tt_arena tt).

(** [sizeof(TermEntry)] on an LP64 target. *)
Definition sizeof_TermEntry : Z := 40.

Definition approx_mem_bytes (tt : TermTable) : Z :=
  tt_cap tt * sizeof_TermEntry + arena_used (tt_arena tt)
  + fold_left (fun acc e => if te_hash e =? 0 then acc
                            else acc + U32List_cap (te_post e) * 4)
              (tt_tab tt) 0.

(** *** DocTermSet *)

(** [term] points into the arena of the set, with the same proviso as for
    [TermEntry]: [de_term] is the entry while no [add] reallocates. *)
Record DocSetEntry := mkDocSetEntry { de_hash : Z; de_term : list Z; de_len : Z }.

Definition DocSetEntry_zero : DocSetEntry := mkDocSetEntry 0 [] 0.

Record DocTermSet := mkDocTermSet {
  ds_tab : list DocSetEntry; ds_cap : Z; ds_used : Z; ds_arena : Arena }.

Definition DocTermSet_init (cap_pow2 arena_bytes : Z) : DocTermSet :=
  mkDocTermSet (replicate (Z.to_nat cap_pow2) DocSetEntry_zero) cap_pow2 0
               (Arena_init arena_bytes).

Definition DocTermSet_reset (ds : DocTermSet) : DocTermSet :=
  mkDocTermSet (replicate (Z.to_nat (ds_cap ds)) DocSetEntry_zero) (ds_cap ds) 0
               (Arena_reset (ds_arena ds)).

Definition dslot (tab : list DocSetEntry) (pos : Z) : DocSetEntry :=
  nth (Z.to_nat pos) tab DocSetEntry_zero.

(** The [while (1)] probe of [contains_or_add], tried [fuel] times. *)
Fixpoint contains_or_add_probe (fuel : nat) (ds : DocTermSet) (s : list Z)
  (len : Z) (h mask pos : Z) : option (Z * DocTermSet) :=
  match fuel with
  | O => None
  | S fuel' =>
      let e := dslot (ds_tab ds) pos in
      if de_hash e =? 0 then
        let e' := mkDocSetEntry h (take (Z.to_nat len) s) (len mod 2 ^ 16) in
        Some (0, mkDocTermSet (<[Z.to_nat pos := e']> (ds_tab ds)) (ds_cap ds)
                              (ds_used ds + 1) (Arena_add (ds_arena ds) s len))
      else if (de_hash e =? h) && (de_len e =? len mod 2 ^ 16)
              && (memcmp (de_term e) s (Z.to_nat len) =? 0) then
        Some (1, ds)
      else contains_or_add_probe fuel' ds s len h mask (Z.land (pos + 1) mask)
  end.

(** The returned [int] and the set afterwards. *)
Definition contains_or_add (ds : DocTermSet) (s : list Z) (len : Z)
  : option (Z * DocTermSet) :=
  if len <=? 0 then Some (1, ds)
  else if ds_cap ds * 8 <=? ds_used ds * 10 then Some (0, ds)
  else
    let h := fnv1a_64 s len in
    let mask := ds_cap ds - 1 in
    contains_or_add_probe (Z.to_nat (ds_cap ds)) ds s len h mask (Z.land h mask).

(** *** process_one_doc *)

(** The counters [main] passes by pointer. *)
Record Counters := mkCounters {
  total_bytes : Z; total_tokens : Z; unique_terms_in_docs_sum : Z }.

Record doc_state := mkDocState {
  d_tt : TermTable; d_dset : DocTermSet;
  d_tok : list Z; d_tok_len : Z;
  d_tokens : Z; d_unique_in_doc : Z }.

(** The block run for a finished token [tok[0..tok_len)]. *)
Definition index_token (doc_id : Z) (st : doc_state) : option doc_state :=
  '(already, dset') ← contains_or_add (d_dset st) (d_tok st) (d_tok_len st);
  if already =? 0 then
    '(tt', e) ← get_or_create (d_tt st) (d_tok st) (d_tok_len st);
    let tt'' := match e with
                | Some pos => push_post tt' pos doc_id
                | None => tt'
                end in
    Some (mkDocState tt'' dset' (d_tok st) 0 (d_tokens st + 1)
                     (d_unique_in_doc st + 1))
  else
    Some (mkDocState (d_tt st) dset' (d_tok st) 0 (d_tokens st + 1)
                     (d_unique_in_doc st)).

Definition TOK_MAX : Z := 256.

(** One byte of the document.  The read buffer only chunks the input; the
    token state is carried from one chunk to the next. *)
Definition index_byte (doc_id : Z) (st : doc_state) (c : Z) : option doc_state :=
  if is_ascii_alnum c then
    let c' := to_lower_ascii c in
    if d_tok_len st <? TOK_MAX - 1 then
      Some (mkDocState (d_tt st) (d_dset st)
                       (take (Z.to_nat (d_tok_len st)) (d_tok st) ++ [c'])
                       (d_tok_len st + 1) (d_tokens st) (d_unique_in_doc st))
    else Some st
  else if 0 <? d_tok_len st then index_token doc_id st
  else Some st.

Fixpoint index_bytes (doc_id : Z) (st : doc_state) (data : list Z) : option doc_state :=
  match data with
  | [] => Some st
  | c :: rest => st' ← index_byte doc_id st c; index_bytes doc_id st' rest
  end.

(** [txt] is the content of the file, [None] when it cannot be opened.
    Returns the [int] result with the updated structures and counters. *)
Definition process_one_doc (txt : option (list Z)) (doc_id : Z)
  (tt : TermTable) (dset : DocTermSet) (cnt : Counters)
  : option (Z * TermTable * DocTermSet * Counters) :=
  match txt with
  | None => Some (-1, tt, dset, cnt)
  | Some data =>
      let st0 := mkDocState tt (DocTermSet_reset dset) [] 0 (total_tokens cnt) 0 in
      st1 ← index_bytes doc_id st0 data;
      st2 ← (if 0 <? d_tok_len st1 then index_token doc_id st1 else Some st1);
      Some (0, d_tt st2, d_dset st2,
            mkCounters (total_bytes cnt + zlen data) (d_tokens st2)
                       (unique_terms_in_docs_sum cnt + d_unique_in_doc st2))
  end.

(** The posting list stored for a term, if the table has the term. *)
Definition postings_of (tt : TermTable) (s : list Z) : option (list Z) :=
  match List.find (fun e => negb (te_hash e =? 0) && bool_decide (te_term e = s))
                  (tt_tab tt) with
  | Some e => Some (U32List_a (te_post e))
  | None => None
  end.

(** *** Integers in files (little-endian host) *)

Fixpoint le_bytes (n : nat) (v : Z) : list Z :=
  match n with
  | O => []
  | S n' => v mod 256 :: le_bytes n' (v / 256)
  end.

Fixpoint le_value (bs : list Z) : Z :=
  match bs with
  | [] => 0
  | b :: rest => b + 256 * le_value rest
  end.

Definition u16 (v : Z) : list Z := le_bytes 2 v.
Definition u32 (v : Z) : list Z := le_bytes 4 v.
Definition u64 (v : Z) : list Z := le_bytes 8 v.

(** *** The file system

    A directory is a key of the map; its value lists the regular files in
    it in [readdir] order.  A path names the file [base] of the directory
    [dir] it splits into at its last slash. *)
Abbreviation FS := (gmap string (list (string * list Z))).

Fixpoint split_at_last_slash (p : string) : option (string * string) :=
  match p with
  | EmptyString => None
  | String c p' =>
      match split_at_last_slash p' with
      | Some (d, b) => Some (String c d, b)
      | None => if Ascii.eqb c "/" then Some (EmptyString, p') else None
      end
  end.

Definition split_path (p : string) : string * string :=
  match split_at_last_slash p with
  | Some db => db
  | None => ("."%string, p)
  end.

Definition is_dir (fs : FS) (p : string) : bool := bool_decide (is_Some (fs !! p)).

Definition file_entry (name : string) (e : string * list Z) : bool :=
  String.eqb (fst e) name.

Definition read_file (fs : FS) (p : string) : option (list Z) :=
  let '(d, b) := split_path p in
  ents ← fs !! d;
  e ← List.find (file_entry b) ents;
  Some (snd e).

Fixpoint put_entry (ents : list (string * list Z)) (name : string) (data : list Z)
  : list (string * list Z) :=
  match ents with
  | [] => [(name, data)]
  | e :: rest =>
      if file_entry name e then (name, data) :: rest
      else e :: put_entry rest name data
  end.

(** [fopen(p, "wb")], the writes and [fclose]; [None] when [fopen] fails. *)
Definition write_file (fs : FS) (p : string) (data : list Z) : option FS :=
  let '(d, b) := split_path p in
  if is_dir fs p then None
  else
    ents ← fs !! d;
    Some (<[d := put_entry ents b data]> fs).

(** *** Running to completion, to [exit], or not at all *)

Inductive outcome (A : Type) : Type :=
| Ret (a : A)
| Exit (code : Z)
| Hang.
Arguments Ret {A} a.
Arguments Exit {A} code.
Arguments Hang {A}.

Definition run (A : Type) : Type := FS -> outcome A * FS.

Definition ret {A} (a : A) : run A := fun fs => (Ret a, fs).

Definition bind {A B} (m : run A) (f : A -> run B) : run B :=
  fun fs =>
    match m fs with
    | (Ret a, fs') => f a fs'
    | (Exit c, fs') => (Exit c, fs')
    | (Hang, fs') => (Hang, fs')
    end.

Definition exit {A} (code : Z) : run A := fun fs => (Exit code, fs).

(** A loop that never ends ([None] from a probe) hangs the process. *)
Definition or_hang {A} (o : option A) : run A :=
  fun fs => match o with Some a => (Ret a, fs) | None => (Hang, fs) end.

Global Instance run_ret : MRet run := @ret.
Global Instance run_bind : MBind run := fun A B f m => bind m f.

Definition fopen_r (p : string) : run (option (list Z)) :=
  fun fs => (Ret (read_file fs p), fs).

(** Writes the whole file, or exits with status 1 when it cannot be opened. *)
Definition fwrite_all (p : string) (data : list Z) : run unit :=
  fun fs =>
    match write_file fs p data with
    | Some fs' => (Ret tt, fs')
    | None => (Exit 1, fs)
    end.

(** [fwrite] on a stream opened by [fwrite_all]: the bytes go after those
    already written. *)
Definition fappend (p : string) (data : list Z) : run unit :=
  fun fs => fwrite_all p (default [] (read_file fs p) ++ data) fs.

Definition ensure_dir (p : string) : run unit :=
  fun fs =>
    if is_dir fs p then (Ret tt, fs)
    else if bool_decide (is_Some (read_file fs p)) then (Exit 1, fs)
    else if is_dir fs (fst (split_path p)) then (Ret tt, <[p := []]> fs)
    else (Exit 1, fs).

(** *** extract_json_string *)

Fixpoint has_prefix (pat s : list Z) : bool :=
  match pat, s with
  | [], _ => true
  | c :: pat', d :: s' => (c =? d) && has_prefix pat' s'
  | _ :: _, [] => false
  end.

(** [strstr]: the haystack from the first match on. *)
Fixpoint strstr (s pat : list Z) : option (list Z) :=
  if has_prefix pat s then Some s
  else match s with
       | [] => None
       | _ :: s' => strstr s' pat
       end.

Fixpoint skip_blanks (p : list Z) : list Z :=
  match p with
  | c :: p' => if (c =? ch " ") || (c =? 9) then skip_blanks p' else p
  | [] => []
  end.

(** The copy loop, with [room] = [out_cap - 1 - k] bytes left in [out]. *)
Fixpoint copy_quoted (p : list Z) (room : Z) : list Z :=
  match p with
  | [] => []
  | c :: p' =>
      if (c =? 34) || (room <=? 0) then []
      else if c =? 92 then
        match p' with
        | c2 :: p'' => c2 :: copy_quoted p'' (room - 1)
        | [] => [c]
        end
      else c :: copy_quoted p' (room - 1)
  end.

(** [Some out] when the function returns 1; [line] and [key] are C strings
    without their NUL. *)
Definition extract_json_string (line key : list Z) (out_cap : Z) : option (list Z) :=
  let pat := take 63 ([34] ++ key ++ [34; ch ":"]) in
  p ← strstr line pat;
  match skip_blanks (drop (length pat) p) with
  | c :: p' => if c =? 34 then Some (copy_quoted p' (out_cap - 1)) else None
  | [] => None
  end.

(** What successive [fgets(line, size, f)] calls return for a file: a line
    ends after its newline or when [size - 1] bytes are stored; [room] is
    the number of bytes the current line can still take. *)
Fixpoint fgets_lines (data cur : list Z) (size room : Z) : list (list Z) :=
  match data with
  | [] => match cur with [] => [] | _ => [cur] end
  | c :: rest =>
      if (c =? 10) || (room <=? 1) then
        (cur ++ [c]) :: fgets_lines rest [] size (size - 1)
      else fgets_lines rest (cur ++ [c]) size (room - 1)
  end.

(** *** DocsBuilder *)

Record DocRec := mkDocRec {
  title_off : Z; title_len : Z; url_off : Z; url_len : Z }.

Record DocsBuilder := mkDocsBuilder {
  db_recs : list DocRec; db_cap : Z; db_pool : Arena }.

Definition db_n (d : DocsBuilder) : Z := zlen (db_recs d).

Definition DocsBuilder_init (cap_docs pool_bytes : Z) : DocsBuilder :=
  mkDocsBuilder [] (if cap_docs =? 0 then 1024 else cap_docs) (Arena_init pool_bytes).

Definition DocsBuilder_ensure (d : DocsBuilder) : DocsBuilder :=
  if db_n d <? db_cap d then d
  else mkDocsBuilder (db_recs d) (wrap32 (db_cap d * 2)) (db_pool d).

(** The builder afterwards; the doc-id returned is [db_n] before the call. *)
Definition add_doc (d : DocsBuilder) (title url : list Z) : DocsBuilder :=
  let d1 := DocsBuilder_ensure d in
  let t_off := arena_used (db_pool d1) in
  let t_len := wrap32 (zlen title) in
  let pool1 := Arena_add (db_pool d1) title t_len in
  let u_off := arena_used pool1 in
  let u_len := wrap32 (zlen url) in
  let pool2 := Arena_add pool1 url u_len in
  mkDocsBuilder (db_recs d1 ++ [mkDocRec t_off t_len u_off u_len]) (db_cap d1) pool2.

Definition DocsHeader_bytes (doc_count string_pool_bytes : Z) : list Z :=
  str "DOCS" ++ u32 1 ++ u32 doc_count ++ u64 string_pool_bytes ++ replicate 32 0.

Definition DocRec_bytes (r : DocRec) : list Z :=
  u64 (title_off r) ++ u32 (title_len r) ++ u64 (url_off r) ++ u32 (url_len r).

Definition DocsBuilder_write_to (d : DocsBuilder) (path : string) : run unit :=
  fwrite_all path
    (DocsHeader_bytes (db_n d) (arena_used (db_pool d))
     ++ concat (map DocRec_bytes (db_recs d))
     ++ arena_buf (db_pool d)).

(** *** write_block *)

Definition term_cmp_lex (ea eb : TermEntry) : Z :=
  let la := te_len ea in
  let lb := te_len eb in
  let m := if la <? lb then la else lb in
  let c := memcmp (te_term ea) (te_term eb) (Z.to_nat m) in
  if negb (c =? 0) then c
  else if la <? lb then -1 else if lb <? la then 1 else 0.

(** [qsort] with a comparator; on keys that differ pairwise every sorting
    algorithm returns this list. *)
Fixpoint insert_by {A} (cmp : A -> A -> Z) (x : A) (l : list A) : list A :=
  match l with
  | [] => [x]
  | y :: l' => if cmp x y <=? 0 then x :: l else y :: insert_by cmp x l'
  end.

Definition qsort {A} (cmp : A -> A -> Z) (l : list A) : list A :=
  fold_right (insert_by cmp) [] l.

Definition block_entry_bytes (e : TermEntry) : list Z :=
  u16 (te_len e) ++ u32 (U32List_n (te_post e)) ++ te_term e
  ++ concat (map u32 (U32List_a (te_post e))).

Definition write_block (path : string) (tt : TermTable) : run unit :=
  let arr := List.filter (fun e => negb (te_hash e =? 0)) (tt_tab tt) in
  let sorted := qsort term_cmp_lex arr in
  fwrite_all path
    (str "BLK1" ++ u32 (wrap32 (zlen sorted))
     ++ concat (map block_entry_bytes sorted)).

(** *** BlockReader *)

(** [br_file] is the unread part of the file; [br_term = None] is
    [term == nullptr]. *)
Record BlockReader := mkBlockReader {
  br_file : list Z; br_remaining : Z;
  br_term : option (list Z); br_term_len : Z; br_df : Z; br_docs : list Z }.

(** [fread] of [n] bytes: the bytes and the rest, if there are that many. *)
Definition take_bytes (n : Z) (data : list Z) : option (list Z * list Z) :=
  if zlen data <? n then None
  else Some (take (Z.to_nat n) data, drop (Z.to_nat n) data).

Fixpoint u32_list (n : nat) (data : list Z) : list Z :=
  match n with
  | O => []
  | S n' => le_value (take 4 data) :: u32_list n' (drop 4 data)
  end.

Definition BlockReader_next (br : BlockReader) : run BlockReader :=
  if br_remaining br =? 0 then ret (mkBlockReader (br_file br) 0 None 0 0 [])
  else
    match take_bytes 2 (br_file br) with
    | None => exit 1
    | Some (b_len, r1) =>
        match take_bytes 4 r1 with
        | None => exit 1
        | Some (b_df, r2) =>
            let term_len := le_value b_len in
            let df := le_value b_df in
            match take_bytes term_len r2 with
            | None => exit 1
            | Some (term, r3) =>
                match take_bytes (df * 4) r3 with
                | None => exit 1
                | Some (b_docs, r4) =>
                    ret (mkBlockReader r4 (br_remaining br - 1) (Some term)
                           term_len df (u32_list (Z.to_nat df) b_docs))
                end
            end
        end
    end.

Definition BlockReader_open (path : string) : run BlockReader :=
  f ← fopen_r path;
  match f with
  | None => exit 1
  | Some data =>
      match take_bytes 8 data with
      | None => exit 1
      | Some (bh, rest) =>
          if negb (memcmp bh (str "BLK1") 4 =? 0) then exit 1
          else BlockReader_next
                 (mkBlockReader rest (le_value (drop 4 bh)) None 0 0 [])
      end
  end.

Definition BlockReader_has (br : BlockReader) : bool :=
  bool_decide (is_Some (br_term br)).

(** *** LexBuilder *)

Record LexRec := mkLexRec {
  term_off : Z; term_len : Z; flags : Z; df : Z;
  postings_off : Z; postings_len : Z; lexrec_reserved : Z }.

Record LexBuilder := mkLexBuilder {
  lb_recs : list LexRec; lb_cap : Z; lb_pool : Arena; lb_sum_term_len : Z }.

Definition lb_n (l : LexBuilder) : Z := zlen (lb_recs l).

Definition LexBuilder_init (cap_terms pool_bytes : Z) : LexBuilder :=
  mkLexBuilder [] (if cap_terms =? 0 then 1024 else cap_terms)
               (Arena_init pool_bytes) 0.

Definition add_term (l : LexBuilder) (term : list Z) (tlen : Z)
  (postings_off postings_len : Z) : LexBuilder :=
  let cap := if lb_n l <? lb_cap l then lb_cap l else wrap32 (lb_cap l * 2) in
  let off := arena_used (lb_pool l) in
  mkLexBuilder
    (lb_recs l ++ [mkLexRec off tlen 0 postings_len postings_off postings_len 0])
    cap (Arena_add (lb_pool l) term tlen) (wrap64 (lb_sum_term_len l + tlen)).

Definition lexrec_cmp_by_term (pool : list Z) (a b : LexRec) : Z :=
  let ta := drop (Z.to_nat (term_off a)) pool in
  let tb := drop (Z.to_nat (term_off b)) pool in
  let alen := term_len a in
  let blen := term_len b in
  let m := if alen <? blen then alen else blen in
  let c := memcmp ta tb (Z.to_nat m) in
  if negb (c =? 0) then c
  else if alen <? blen then -1 else if blen <? alen then 1 else 0.

Definition LexHeader_bytes (term_count string_pool_bytes : Z) : list Z :=
  str "LEXI" ++ u32 1 ++ u32 term_count ++ u64 string_pool_bytes ++ replicate 32 0.

Definition LexRec_bytes (r : LexRec) : list Z :=
  u64 (term_off r) ++ u16 (term_len r) ++ u16 (flags r) ++ u32 (df r)
  ++ u64 (postings_off r) ++ u32 (postings_len r) ++ u32 (lexrec_reserved r).

Definition LexBuilder_write_to (l : LexBuilder) (path : string) : run unit :=
  let recs := qsort (lexrec_cmp_by_term (arena_buf (lb_pool l))) (lb_recs l) in
  fwrite_all path
    (LexHeader_bytes (lb_n l) (arena_used (lb_pool l))
     ++ concat (map LexRec_bytes recs)
     ++ arena_buf (lb_pool l)).

(** *** merge_blocks_to_index *)

Definition PostHeader_bytes : list Z := str "POST" ++ u32 1 ++ replicate 32 0.

Definition sizeof_PostHeader : Z := 40.

Definition ends_with_blk (nm : string) : bool :=
  let l := String.length nm in
  if (l <? 4)%nat then false
  else String.eqb (String.substring (l - 4) 4 nm) ".blk".

(** The scan for the reader with the smallest current term: [min_i], or
    [None] for [-1]. *)
Fixpoint select_min (brs : list BlockReader) (i : nat) (min_i : option (nat * BlockReader))
  : option (nat * BlockReader) :=
  match brs with
  | [] => min_i
  | br :: rest =>
      match br_term br, min_i with
      | None, _ => select_min rest (S i) min_i
      | Some _, None => select_min rest (S i) (Some (i, br))
      | Some t, Some (_, bm) =>
          let c := lex_cmp_str t (br_term_len br)
                               (default [] (br_term bm)) (br_term_len bm) in
          if c <? 0 then select_min rest (S i) (Some (i, br))
          else select_min rest (S i) min_i
      end
  end.

(** The loop over the readers that hold [cur_term]: their lists are united
    into [merged] and they advance. *)
Fixpoint merge_same_term (brs : list BlockReader) (cur_term : list Z) (cur_len : Z)
  (merged : list Z) : run (list BlockReader * list Z) :=
  match brs with
  | [] => ret ([], merged)
  | br :: rest =>
      match br_term br with
      | Some t =>
          if (br_term_len br =? cur_len)
             && (memcmp t cur_term (Z.to_nat cur_len) =? 0) then
            let out := merge_union_u32 merged (br_docs br) in
            br' ← BlockReader_next br;
            '(rest', merged') ← merge_same_term rest cur_term cur_len out;
            ret (br' :: rest', merged')
          else
            '(rest', merged') ← merge_same_term rest cur_term cur_len merged;
            ret (br :: rest', merged')
      | None =>
          '(rest', merged') ← merge_same_term rest cur_term cur_len merged;
          ret (br :: rest', merged')
      end
  end.

(** The [while (1)] loop.  In the code [cur_term] is a pointer to the term
    buffer of the selected reader, and it is read again after [next] has
    freed that buffer: for the comparisons with the other readers and for
    [add_term].  The language gives these reads no meaning.  Here
    [cur_term] is the bytes the buffer had when the reader was selected;
    no result below is about a merge that gets to these reads.  Each turn
    consumes a term of some reader, so [fuel] above the number of terms in
    the blocks is never used up. *)
Fixpoint merge_loop (fuel : nat) (out_post : string) (brs : list BlockReader)
  (postings_cursor : Z) (lex : LexBuilder) : run (Z * LexBuilder) :=
  match fuel with
  | O => or_hang None
  | S fuel' =>
      match select_min brs 0 None with
      | None => ret (postings_cursor, lex)
      | Some (min_i, bm) =>
          let cur_term := default [] (br_term bm) in
          let cur_len := br_term_len bm in
          let merged := take (Z.to_nat (br_df bm)) (br_docs bm) in
          bm' ← BlockReader_next bm;
          '(brs', merged') ←
            merge_same_term (<[min_i := bm']> brs) cur_term cur_len merged;
          let merged_n := wrap32 (zlen merged') in
          _ ← (if 0 <? merged_n then fappend out_post (concat (map u32 merged'))
               else ret tt);
          let cursor' := if 0 <? merged_n then wrap64 (postings_cursor + merged_n * 4)
                         else postings_cursor in
          merge_loop fuel' out_post brs' cursor'
                     (add_term lex cur_term cur_len postings_cursor merged_n)
      end
  end.

Fixpoint open_all (blocks_dir : string) (names : list string) : run (list BlockReader) :=
  match names with
  | [] => ret []
  | nm :: rest =>
      br ← BlockReader_open (blocks_dir ++ "/" ++ nm)%string;
      brs ← open_all blocks_dir rest;
      ret (br :: brs)
  end.

Definition terms_left (brs : list BlockReader) : Z :=
  fold_left (fun acc br => acc + br_remaining br + 1) brs 0.

Definition merge_blocks_to_index (blocks_dir out_lex out_post : string) : run unit :=
  fun fs =>
    match fs !! blocks_dir with
    | None => (Exit 1, fs)
    | Some ents =>
        let names := List.filter ends_with_blk (map fst ents) in
        match names with
        | [] => (Exit 1, fs)
        | _ =>
            (brs ← open_all blocks_dir names;
             _ ← fwrite_all out_post PostHeader_bytes;
             '(_, lex) ←
               merge_loop (S (Z.to_nat (terms_left brs))) out_post brs
                          sizeof_PostHeader
                          (LexBuilder_init (1024 * 1024) (128 * 2 ^ 20));
             LexBuilder_write_to lex out_lex) fs
        end
    end.

(** *** main *)

(** The command line after parsing. *)
Record Args := mkArgs {
  manifest : string; corpus_dir : string; out_dir : string;
  mem_mb : Z; report_mb : Z }.

Fixpoint string_of_bytes (l : list Z) : string :=
  match l with
  | [] => EmptyString
  | c :: l' => String (ascii_of_N (Z.to_N c)) (string_of_bytes l')
  end.

(** ["%04u"] *)
Fixpoint decimal_digits (fuel : nat) (v : Z) : list Z :=
  match fuel with
  | O => []
  | S fuel' =>
      (if v <? 10 then [] else decimal_digits fuel' (v / 10)) ++ [ch "0" + v mod 10]
  end.

Definition fmt_04u (v : Z) : string :=
  let ds := decimal_digits 10 v in
  string_of_bytes (replicate (4 - length ds) (ch "0") ++ ds).

Definition block_path (blocks_dir : string) (block_id : Z) : string :=
  (blocks_dir ++ "/block_" ++ fmt_04u block_id ++ ".blk")%string.

Record build_state := mkBuild {
  b_docs : DocsBuilder; b_tt : TermTable; b_dset : DocTermSet;
  b_cnt : Counters; b_doc_id : Z; b_block_id : Z }.

(** The body of the manifest loop for one line read by [fgets]. *)
Definition index_line (a : Args) (blocks_dir : string) (st : build_state)
  (raw : list Z) : run build_state :=
  let line := c_str raw in
  match extract_json_string line (str "doc_id") 64 with
  | None => ret st
  | Some docid_str =>
      let title0 := default [] (extract_json_string line (str "title") 4096) in
      let url := default [] (extract_json_string line (str "url") 8192) in
      let title := match title0 with [] => docid_str | _ => title0 end in
      let docs := add_doc (b_docs st) title url in
      let txt := (corpus_dir a ++ "/" ++ string_of_bytes docid_str ++ ".txt")%string in
      f ← fopen_r txt;
      '(_, tt1, dset, cnt) ←
        or_hang (process_one_doc f (b_doc_id st) (b_tt st) (b_dset st) (b_cnt st));
      let doc_id := wrap32 (b_doc_id st + 1) in
      if wrap64 (mem_mb a * 1024 * 1024) <=? approx_mem_bytes tt1 then
        _ ← write_block (block_path blocks_dir (b_block_id st)) tt1;
        ret (mkBuild docs (TermTable_clear tt1) dset cnt doc_id
                     (wrap32 (b_block_id st + 1)))
      else ret (mkBuild docs tt1 dset cnt doc_id (b_block_id st))
  end.

Fixpoint index_lines (a : Args) (blocks_dir : string) (st : build_state)
  (lines : list (list Z)) : run build_state :=
  match lines with
  | [] => ret st
  | raw :: rest =>
      st' ← index_line a blocks_dir st raw;
      index_lines a blocks_dir st' rest
  end.

(** [main] from [ensure_dir(out_dir)] on; the value is its return code. *)
Definition main (a : Args) : run Z :=
  _ ← ensure_dir (out_dir a);
  let blocks_dir := (out_dir a ++ "/blocks")%string in
  _ ← ensure_dir blocks_dir;
  let st0 := mkBuild (DocsBuilder_init 40000 (64 * 2 ^ 20))
                     (TermTable_init (2 ^ 21) (128 * 2 ^ 20))
                     (DocTermSet_init (2 ^ 17) (2 * 2 ^ 20))
                     (mkCounters 0 0 0) 0 0 in
  fm ← fopen_r (manifest a);
  match fm with
  | None => ret 1
  | Some data =>
      st ← index_lines a blocks_dir st0
                 (fgets_lines data [] (2 ^ 20) (2 ^ 20 - 1));
      _ ← (if 0 <? tt_used (b_tt st)
               then write_block (block_path blocks_dir (b_block_id st)) (b_tt st)
               else ret tt);
      _ ← DocsBuilder_write_to (b_docs st) (out_dir a ++ "/docs.bin")%string;
      _ ← merge_blocks_to_index blocks_dir
                (out_dir a ++ "/lexicon.bin")%string
                (out_dir a ++ "/postings.bin")%string;
      ret 0
  end.

End Indexer.

(** ** stemming.cpp *)

Module Stemming.

(** The word buffer [b] with the cursors [k] (last index of the word) and
    [j] (last index of the stem under test) that the steps pass around. *)
Record stem_state := mkStem { buf : list Z; k : Z; j : Z }.

(** A store [b[i] = c]; [None] when [i] is outside the buffer. *)
Definition poke (b : list Z) (i : Z) (c : Z) : option (list Z) :=
  if (0 <=? i) && (i <? zlen b) then Some (<[Z.to_nat i := c]> b) else None.

(** [memcpy(b + start, s, slen)] *)
Fixpoint poke_all (b : list Z) (start : Z) (s : list Z) : option (list Z) :=
  match s with
  | [] => Some b
  | c :: s' => b' ← poke b start c; poke_all b' (start + 1) s'
  end.

Definition is_vowel_letter (c : Z) : bool :=
  (c =? ch "a") || (c =? ch "e") || (c =? ch "i") || (c =? ch "o") || (c =? ch "u").

Fixpoint is_consonant_at (b : list Z) (i : nat) : bool :=
  let c := nth i b 0 in
  if is_vowel_letter c then false
  else if c =? ch "y" then
    match i with
    | O => true
    | S i' => negb (is_consonant_at b i')
    end
  else true.

Definition is_consonant (b : list Z) (i : Z) : bool :=
  is_consonant_at b (Z.to_nat i).

(** The three inner loops of [m_measure]. *)
Inductive m_phase := LeadingConsonants | VowelRun | ConsonantRun.

(** [left] counts the positions [i..j] still to be read, so [i > j] is
    [left = 0]. *)
Fixpoint m_loop (left : nat) (b : list Z) (ph : m_phase) (i : Z) (n : Z) : Z :=
  match left with
  | O => n
  | S left' =>
      match ph with
      | LeadingConsonants =>
          if is_consonant b i then m_loop left' b LeadingConsonants (i + 1) n
          else m_loop left' b VowelRun (i + 1) n
      | VowelRun =>
          if is_consonant b i then m_loop left' b ConsonantRun (i + 1) (n + 1)
          else m_loop left' b VowelRun (i + 1) n
      | ConsonantRun =>
          if is_consonant b i then m_loop left' b ConsonantRun (i + 1) n
          else m_loop left' b VowelRun (i + 1) n
      end
  end.

Definition m_measure (b : list Z) (j : Z) : Z :=
  m_loop (Z.to_nat (j + 1)) b LeadingConsonants 0 0.

Definition vowel_in_stem (b : list Z) (j : Z) : bool :=
  existsb (fun i => negb (is_consonant_at b i)) (seq 0 (Z.to_nat (j + 1))).

Definition doublec (b : list Z) (j : Z) : bool :=
  if j <? 1 then false
  else if negb (at_ b j =? at_ b (j - 1)) then false
  else is_consonant b j.

Definition cvc (b : list Z) (i : Z) : bool :=
  if i <? 2 then false
  else if negb (is_consonant b i) || is_consonant b (i - 1)
          || negb (is_consonant b (i - 2)) then false
  else
    let c := at_ b i in
    if (c =? ch "w") || (c =? ch "x") || (c =? ch "y") then false else true.

Definition ends_with (b : list Z) (k : Z) (s : list Z) : bool :=
  let slen := zlen s in
  if k + 1 <? slen then false
  else memcmp (drop (Z.to_nat (k + 1 - slen)) b) s (length s) =? 0.

Definition set_to (st : stem_state) (s : list Z) : option stem_state :=
  let start := j st + 1 in
  b1 ← poke_all (buf st) start s;
  let k' := start + zlen s - 1 in
  b2 ← poke b1 (k' + 1) 0;
  Some (mkStem b2 k' (j st)).

Definition r (st : stem_state) (s : list Z) : option stem_state :=
  if 0 <? m_measure (buf st) (j st) then set_to st s else Some st.

(** [*k = k'; b[*k+1] = '\0';] *)
Definition cut_to (st : stem_state) (k' : Z) : option stem_state :=
  b' ← poke (buf st) (k' + 1) 0;
  Some (mkStem b' k' (j st)).

Definition with_j (st : stem_state) (j' : Z) : stem_state :=
  mkStem (buf st) (k st) j'.

Definition step1a (st : stem_state) : option stem_state :=
  if ends_with (buf st) (k st) (str "sses") then cut_to st (k st - 2)
  else if ends_with (buf st) (k st) (str "ies") then cut_to st (k st - 2)
  else if ends_with (buf st) (k st) (str "ss") then Some st
  else if ends_with (buf st) (k st) (str "s") then cut_to st (k st - 1)
  else Some st.

(** The [if (flag)] block of [step1ab]. *)
Definition step1b_post (st : stem_state) : option stem_state :=
  if ends_with (buf st) (k st) (str "at") then
    set_to (with_j st (k st - 2)) (str "ate")
  else if ends_with (buf st) (k st) (str "bl") then
    set_to (with_j st (k st - 2)) (str "ble")
  else if ends_with (buf st) (k st) (str "iz") then
    set_to (with_j st (k st - 2)) (str "ize")
  else if doublec (buf st) (k st) then
    let c := at_ (buf st) (k st) in
    if negb (c =? ch "l") && negb (c =? ch "s") && negb (c =? ch "z")
    then cut_to st (k st - 1) else Some st
  else if (m_measure (buf st) (k st) =? 1) && cvc (buf st) (k st) then
    set_to (with_j st (k st)) (str "e")
  else Some st.

(** The "eed" / "ed" / "ing" test; the boolean is [flag]. *)
Definition step1b (st : stem_state) : option (stem_state * bool) :=
  if ends_with (buf st) (k st) (str "eed") then
    let st1 := with_j st (k st - 3) in
    if 0 <? m_measure (buf st1) (j st1) then
      st2 ← cut_to st1 (k st1 - 1); Some (st2, false)
    else Some (st1, false)
  else
    let strip (st1 : stem_state) :=
      st2 ← cut_to st1 (j st1); Some (st2, true) in
    let try_ing (st1 : stem_state) :=
      if ends_with (buf st1) (k st1) (str "ing") then
        let st2 := with_j st1 (k st1 - 3) in
        if vowel_in_stem (buf st2) (j st2) then strip st2 else Some (st2, false)
      else Some (st1, false) in
    if ends_with (buf st) (k st) (str "ed") then
      let st1 := with_j st (k st - 2) in
      if vowel_in_stem (buf st1) (j st1) then strip st1 else try_ing st1
    else try_ing st.

Definition step1c (st : stem_state) : option stem_state :=
  if ends_with (buf st) (k st) (str "y") then
    let st1 := with_j st (k st - 1) in
    if vowel_in_stem (buf st1) (j st1) then
      b' ← poke (buf st1) (k st1) (ch "i");
      Some (mkStem b' (k st1) (j st1))
    else Some st1
  else Some st.

Definition step1ab (st : stem_state) : option stem_state :=
  st1 ← step1a st;
  '(st2, flag) ← step1b st1;
  st3 ← (if flag : bool then step1b_post st2 else Some st2);
  step1c st3.

Definition step2_rules : list (list Z * list Z) :=
  [ (str "ational", str "ate"); (str "tional", str "tion");
    (str "enci", str "ence"); (str "anci", str "ance");
    (str "izer", str "ize"); (str "abli", str "able");
    (str "alli", str "al"); (str "entli", str "ent");
    (str "eli", str "e"); (str "ousli", str "ous");
    (str "ization", str "ize"); (str "ation", str "ate");
    (str "ator", str "ate"); (str "alism", str "al");
    (str "iveness", str "ive"); (str "fulness", str "ful");
    (str "ousness", str "ous"); (str "aliti", str "al");
    (str "iviti", str "ive"); (str "biliti", str "ble");
    (str "logi", str "log") ].

Definition step3_rules : list (list Z * list Z) :=
  [ (str "icate", str "ic"); (str "ative", str ""); (str "alize", str "al");
    (str "iciti", str "ic"); (str "ical", str "ic"); (str "ful", str "");
    (str "ness", str "") ].

Definition step4_sufs : list (list Z) :=
  [ str "al"; str "ance"; str "ence"; str "er"; str "ic"; str "able";
    str "ible"; str "ant"; str "ement"; str "ment"; str "ent";
    str "ion"; str "ou"; str "ism"; str "ate"; str "iti"; str "ous";
    str "ive"; str "ize" ].

(** The rule loop shared by [step2] and [step3]: the first rule whose
    suffix matches decides ([step2] spells out the body of [r]). *)
Fixpoint apply_rules (rules : list (list Z * list Z)) (st : stem_state)
  : option stem_state :=
  match rules with
  | [] => Some st
  | (suf, rep) :: rest =>
      if ends_with (buf st) (k st) suf then
        r (with_j st (k st - zlen suf)) rep
      else apply_rules rest st
  end.

Definition step2 (st : stem_state) : option stem_state := apply_rules step2_rules st.
Definition step3 (st : stem_state) : option stem_state := apply_rules step3_rules st.

Fixpoint step4_loop (sufs : list (list Z)) (st : stem_state) : option stem_state :=
  match sufs with
  | [] => Some st
  | suf :: rest =>
      if ends_with (buf st) (k st) suf then
        let st1 := with_j st (k st - zlen suf) in
        let strip :=
          if 1 <? m_measure (buf st1) (j st1) then cut_to st1 (j st1)
          else Some st1 in
        if bool_decide (suf = str "ion") then
          if 0 <=? j st1 then
            let c := at_ (buf st1) (j st1) in
            if negb (c =? ch "s") && negb (c =? ch "t") then Some st1 else strip
          else Some st1
        else strip
      else step4_loop rest st
  end.

Definition step4 (st : stem_state) : option stem_state := step4_loop step4_sufs st.

Definition step5a (st : stem_state) : option stem_state :=
  if ends_with (buf st) (k st) (str "e") then
    let st1 := with_j st (k st - 1) in
    let m := m_measure (buf st1) (j st1) in
    if (1 <? m) || ((m =? 1) && negb (cvc (buf st1) (j st1)))
    then cut_to st1 (k st1 - 1) else Some st1
  else Some st.

Definition step5b (st : stem_state) : option stem_state :=
  if (1 <? m_measure (buf st) (k st)) && doublec (buf st) (k st)
     && (at_ (buf st) (k st) =? ch "l")
  then cut_to st (k st - 1) else Some st.

Definition step5 (st : stem_state) : option stem_state :=
  st1 ← step5a st; step5b st1.

Definition has_letter (b : list Z) (len : Z) : bool :=
  existsb (fun c => (ch "a" <=? c) && (c <=? ch "z")) (take (Z.to_nat len) b).

(** Returns the buffer and the new length; [None] when a store would fall
    outside the buffer. *)
Definition porter_stem_inplace (b : list Z) (len : Z) : option (list Z * Z) :=
  if len <=? 2 then b' ← poke b len 0; Some (b', len)
  else if negb (has_letter b len) then b' ← poke b len 0; Some (b', len)
  else
    st1 ← step1ab (mkStem b (len - 1) 0);
    st2 ← step2 st1;
    st3 ← step3 st2;
    st4 ← step4 st3;
    st5 ← step5 st4;
    let out_len := if k st5 + 1 <? 0 then 0 else k st5 + 1 in
    b' ← poke (buf st5) out_len 0;
    Some (b', out_len).

Definition stem_word_en (w : list Z) (len : Z) : option (list Z * Z) :=
  porter_stem_inplace w len.

End Stemming.

(** ** search_cli.cpp *)

Module SearchCli.

(** *** The loaded index *)

Record DocsHeader := mkDocsHeader {
  dh_version : Z; dh_doc_count : Z; dh_string_pool_bytes : Z }.

Record DocRec := mkDocRec {
  title_off : Z; title_len : Z; url_off : Z; url_len : Z }.

Record LexHeader := mkLexHeader {
  lh_version : Z; lh_term_count : Z; lh_string_pool_bytes : Z }.

Record LexRec := mkLexRec {
  term_off : Z; term_len : Z; flags : Z; df : Z;
  postings_off : Z; postings_len : Z; lexrec_reserved : Z }.

(** [Index] after a successful [load]: the headers, the record arrays and
    the pools that follow them, and the bytes of [postings.bin]. *)
Record Index := mkIndex {
  dh : DocsHeader;
  docs : list DocRec;
  doc_pool : list Z;
  lh : LexHeader;
  lex : list LexRec;
  term_pool : list Z;
  postings_file : list Z }.

Definition postings_size (idx : Index) : Z := zlen (postings_file idx).
Definition doc_count (idx : Index) : Z := dh_doc_count (dh idx).
Definition term_count (idx : Index) : Z := lh_term_count (lh idx).

Definition LexRec_zero : LexRec := mkLexRec 0 0 0 0 0 0 0.

(** The comparison made at [lex[mid]] by [find_term]: [c] after both [if]s. *)
Definition find_term_cmp (idx : Index) (t : list Z) (tlen : Z) (mid : Z) : Z :=
  let r := nth (Z.to_nat mid) (lex idx) LexRec_zero in
  let s := drop (Z.to_nat (term_off r)) (term_pool idx) in
  let slen := term_len r in
  let m := if tlen <? slen then tlen else slen in
  let c := memcmp t s (Z.to_nat m) in
  if c =? 0 then
    if tlen <? slen then -1 else if slen <? tlen then 1 else c
  else c.

(** The [while (lo < hi)] loop; [Some mid] is "return 1 with [*out_idx = mid]",
    [None] is "return 0". *)
Equations? find_term_loop (idx : Index) (t : list Z) (tlen : Z) (lo hi : Z)
  : option Z by wf (Z.to_nat (hi - lo)) lt :=
  find_term_loop idx t tlen lo hi with Z_lt_dec lo hi := {
    | right _ => None
    | left _ =>
        let mid := lo + (hi - lo) / 2 in
        let c := find_term_cmp idx t tlen mid in
        if c =? 0 then Some mid
        else if c <? 0 then find_term_loop idx t tlen lo mid
        else find_term_loop idx t tlen (mid + 1) hi }.
Proof.
  all: assert (0 <= (hi - lo) / 2 < hi - lo)
    by (split; [apply Z.div_pos; lia|apply Z.div_lt_upper_bound; lia]); lia.
Qed.

Definition find_term (idx : Index) (t : list Z) (tlen : Z) : option Z :=
  find_term_loop idx t tlen 0 (term_count idx).

(** [postings_ptr]: the byte offset of the run, or [None] for [nullptr]. *)
Definition postings_ptr (idx : Index) (r : LexRec) : option Z :=
  let need := wrap64 (postings_off r + wrap64 (postings_len r * 4)) in
  if postings_size idx <? need then None else Some (postings_off r).

(** A [uint32_t] read at a byte offset (little-endian host). *)
Definition u32_at (bytes : list Z) (off : Z) : Z :=
  at_ bytes off + at_ bytes (off + 1) * 2 ^ 8
  + at_ bytes (off + 2) * 2 ^ 16 + at_ bytes (off + 3) * 2 ^ 24.

(** [copy_list(p, n)] for [p] at byte offset [off] of [postings_file]. *)
Definition copy_list_at (idx : Index) (off : Z) (n : Z) : list Z :=
  map (fun i => u32_at (postings_file idx) (off + 4 * i)) (seqZ 0 n).

(** *** Sorted-list combinators

    [op_and], [op_or] and [op_not] here are the values the three loops
    push, in order.  The vector they are pushed into, with its 32-bit
    capacity and the [reserve] that precedes the loop, is [U32Vec] below:
    [op_and_v], [op_or_v] and [op_not_v] are the calls as the code makes
    them. *)

Fixpoint op_and (a : list Z) : list Z -> list Z :=
  fix scan_b (b : list Z) {struct b} : list Z :=
    match a, b with
    | x :: a', y :: b' =>
        if x =? y then x :: op_and a' b'
        else if x <? y then op_and a' b
        else scan_b b'
    | _, _ => []
    end.

Fixpoint op_or (a : list Z) : list Z -> list Z :=
  fix scan_b (b : list Z) {struct b} : list Z :=
    match a, b with
    | x :: a', y :: b' =>
        if x =? y then x :: op_or a' b'
        else if x <? y then x :: op_or a' b
        else y :: scan_b b'
    | _, [] => a
    | [], _ => b
    end.

(** [while (i<na && a[i] < d) i++;] *)
Fixpoint skip_below (d : Z) (a : list Z) : list Z :=
  match a with
  | x :: a' => if x <? d then skip_below d a' else a
  | [] => []
  end.

(** The [for] loop of [op_not] from [d] on, with [todo] iterations left. *)
Fixpoint op_not_loop (todo : nat) (d : Z) (a : list Z) : list Z :=
  match todo with
  | O => []
  | S todo' =>
      let a1 := skip_below d a in
      match a1 with
      | x :: _ =>
          if x =? d then op_not_loop todo' (d + 1) a1
          else d :: op_not_loop todo' (d + 1) a1
      | [] => d :: op_not_loop todo' (d + 1) a1
      end
  end.

Definition op_not (doc_count : Z) (a : list Z) : list Z :=
  op_not_loop (Z.to_nat doc_count) 0 a.

(** *** Query lexer *)

Inductive TokType := T_TERM | T_AND | T_OR | T_NOT | T_LP | T_RP | T_END | T_BAD.

Global Instance TokType_eq_dec : EqDecision TokType.
Proof. solve_decision. Defined.

Record Tok := mkTok { tok_type : TokType; tok_text : list Z; tok_len : Z }.

(** [Tok t{}; t.type=T_END; t.len=0; t.text[0]='\0';] *)
Definition Tok_end : Tok := mkTok T_END (replicate 256 0) 0.

Definition Tok_of (ty : TokType) : Tok := mkTok ty (replicate 256 0) 0.

Definition is_space (c : Z) : bool :=
  (c =? ch " ") || (c =? 9) || (c =? 13) || (c =? 10).

(** A [TokStream] is the unread part [s[i..n)] of the line. *)
Fixpoint skip_spaces (s : list Z) : list Z :=
  match s with
  | c :: s' => if is_space c then skip_spaces s' else s
  | [] => []
  end.

(** The alnum loop of [next]: [text] and [k] so far, then the unread rest. *)
Fixpoint scan_term (s : list Z) (text : list Z) (k : Z) : list Z * Z * list Z :=
  match s with
  | c :: s' =>
      if is_ascii_alnum c then
        let cc := to_lower_ascii c in
        if k <? 255 then scan_term s' (<[Z.to_nat k := cc]> text) (k + 1)
        else scan_term s' text k
      else (text, k, s)
  | [] => (text, k, s)
  end.

Definition next (ts : list Z) : Tok * list Z :=
  let s := skip_spaces ts in
  match s with
  | [] => (Tok_end, s)
  | c :: s' =>
      if c =? ch "(" then (Tok_of T_LP, s')
      else if c =? ch ")" then (Tok_of T_RP, s')
      else if c =? ch "!" then (Tok_of T_NOT, s')
      else if c =? ch "&" then
        match s' with
        | c2 :: s'' => if c2 =? ch "&" then (Tok_of T_AND, s'') else (Tok_of T_AND, s')
        | [] => (Tok_of T_AND, s')
        end
      else if c =? ch "|" then
        match s' with
        | c2 :: s'' => if c2 =? ch "|" then (Tok_of T_OR, s'') else (Tok_of T_OR, s')
        | [] => (Tok_of T_OR, s')
        end
      else if is_ascii_alnum c then
        let '(text, k, rest) := scan_term s (replicate 256 0) 0 in
        (mkTok T_TERM (<[Z.to_nat k := 0]> text) k, rest)
      else (Tok_of T_BAD, s')
  end.

(** *** Infix to postfix *)

Definition precedence (t : TokType) : Z :=
  match t with
  | T_NOT => 3
  | T_AND => 2
  | T_OR => 1
  | _ => 0
  end.

Definition is_right_assoc (t : TokType) : bool := bool_decide (t = T_NOT).

Record RpnItem := mkRpnItem { rpn_type : TokType; rpn_text : list Z; rpn_len : Z }.

(** [RpnItem it{}; it.type=t;] *)
Definition RpnItem_of (t : TokType) : RpnItem := mkRpnItem t (replicate 256 0) 0.

Definition is_value_token (t : TokType) : bool :=
  bool_decide (t = T_TERM) || bool_decide (t = T_RP).

Definition can_start_value (t : TokType) : bool :=
  bool_decide (t = T_TERM) || bool_decide (t = T_LP) || bool_decide (t = T_NOT).

Definition normalize_term (s : list Z) (len : Z) : option (list Z * Z) :=
  '(s1, n) ← Stemming.stem_word_en s len;
  let n1 := if n <? 0 then 0 else n in
  let n2 := if 255 <? n1 then 255 else n1 in
  s2 ← Stemming.poke s1 n2 0;
  Some (s2, n2).

(** The operator stack has its top at the head of the list.  [pop_ops op]
    is the loop that moves operators binding at least as tightly as [op]
    from the stack to the output. *)
Fixpoint pop_ops (op : TokType) (ops : list TokType) (out : list RpnItem)
  : list TokType * list RpnItem :=
  match ops with
  | [] => (ops, out)
  | top :: ops' =>
      if bool_decide (top = T_LP) then (ops, out)
      else
        let p1 := precedence top in
        let p2 := precedence op in
        if (p2 <? p1) || ((p1 =? p2) && negb (is_right_assoc op))
        then pop_ops op ops' (out ++ [RpnItem_of top])
        else (ops, out)
  end.

Definition push_op (op : TokType) (ops : list TokType) (out : list RpnItem)
  : list TokType * list RpnItem :=
  let '(ops', out') := pop_ops op ops out in (op :: ops', out').

(** [while(!ops.empty() && ops.top()!=T_LP) out->push(ops.pop());] followed
    by the removal of the matching [T_LP]. *)
Fixpoint close_paren (ops : list TokType) (out : list RpnItem)
  : list TokType * list RpnItem :=
  match ops with
  | [] => (ops, out)
  | top :: ops' =>
      if bool_decide (top = T_LP) then (ops', out)
      else close_paren ops' (out ++ [RpnItem_of top])
  end.

(** State of the main loop of [to_rpn] between two tokens. *)
Record rpn_state := mkRpn {
  rpn_ops : list TokType; rpn_prev : Tok; rpn_out : list RpnItem }.

(** One turn of the loop for a token that is neither [T_BAD] nor [T_END]. *)
Definition to_rpn_token (tok : Tok) (st : rpn_state) : option rpn_state :=
  let '(ops, out) :=
    if is_value_token (tok_type (rpn_prev st)) && can_start_value (tok_type tok)
    then push_op T_AND (rpn_ops st) (rpn_out st)
    else (rpn_ops st, rpn_out st) in
  match tok_type tok with
  | T_TERM =>
      '(text, len) ← normalize_term (tok_text tok) (tok_len tok);
      let tok' := mkTok T_TERM text len in
      if 0 <? len then
        let it := mkRpnItem T_TERM
                    (take (Z.to_nat (len + 1)) text
                     ++ replicate (256 - Z.to_nat (len + 1)) 0) len in
        Some (mkRpn ops tok' (out ++ [it]))
      else Some (mkRpn ops tok' out)
  | T_LP => Some (mkRpn (T_LP :: ops) tok out)
  | T_RP =>
      let '(ops', out') := close_paren ops out in Some (mkRpn ops' tok out')
  | T_AND | T_OR | T_NOT =>
      let '(ops', out') := push_op (tok_type tok) ops out in
      Some (mkRpn ops' tok out')
  | _ => Some (mkRpn ops tok out)
  end.

(** The main loop; each turn reads at least one byte, so [fuel] beyond the
    length of the line is never used up. *)
Fixpoint to_rpn_loop (fuel : nat) (ts : list Z) (st : rpn_state)
  : option rpn_state :=
  match fuel with
  | O => None
  | S fuel' =>
      let '(tok, ts') := next ts in
      match tok_type tok with
      | T_BAD => to_rpn_loop fuel' ts' st
      | T_END => Some st
      | _ => st' ← to_rpn_token tok st; to_rpn_loop fuel' ts' st'
      end
  end.

(** The final loop: what is left on the stack goes to the output, except
    unmatched [T_LP]. *)
Fixpoint drain_ops (ops : list TokType) (out : list RpnItem) : list RpnItem :=
  match ops with
  | [] => out
  | top :: ops' =>
      if bool_decide (top = T_LP) then drain_ops ops' out
      else drain_ops ops' (out ++ [RpnItem_of top])
  end.

Definition to_rpn (line : list Z) : option (list RpnItem) :=
  let ts := c_str line in
  st ← to_rpn_loop (S (length ts)) ts (mkRpn [] Tok_end []);
  Some (drain_ops (rpn_ops st) (rpn_out st)).

(** *** Postfix evaluation

    [eval_item] and [eval_rpn] compute the arrays on the stack; the vector
    [tmp] that every combinator fills on the way is added in [eval_item_v]
    and [eval_rpn_v] below. *)

(** A [Res] is its array; the stack has its top at the head. *)
Definition pop_safe (st : list (list Z)) : list Z * list (list Z) :=
  match st with
  | [] => ([], [])
  | x :: st' => (x, st')
  end.

Definition eval_item (idx : Index) (it : RpnItem) (st : list (list Z))
  : list (list Z) :=
  match rpn_type it with
  | T_TERM =>
      match find_term idx (rpn_text it) (rpn_len it) with
      | None => [] :: st
      | Some lex_i =>
          let r := nth (Z.to_nat lex_i) (lex idx) LexRec_zero in
          match postings_ptr idx r with
          | None => [] :: st
          | Some p =>
              if postings_len r =? 0 then [] :: st
              else copy_list_at idx p (postings_len r) :: st
          end
      end
  | T_NOT =>
      let '(a, st1) := pop_safe st in
      op_not (doc_count idx) a :: st1
  | T_AND =>
      let '(b, st1) := pop_safe st in
      let '(a, st2) := pop_safe st1 in
      if (zlen a =? 0) || (zlen b =? 0) then [] :: st2
      else op_and a b :: st2
  | T_OR =>
      let '(b, st1) := pop_safe st in
      let '(a, st2) := pop_safe st1 in
      if (zlen a =? 0) && (zlen b =? 0) then [] :: st2
      else if zlen a =? 0 then b :: st2
      else if zlen b =? 0 then a :: st2
      else op_or a b :: st2
  | _ => st
  end.

Definition eval_rpn (idx : Index) (rpn : list RpnItem) : list Z :=
  fst (pop_safe (fold_left (fun st it => eval_item idx it st) rpn [])).

(** What [main] does with one non-blank query line: the result array, whose
    length is printed as [hits]. *)
Definition run_query (idx : Index) (line : list Z) : option (list Z) :=
  rpn ← to_rpn line; Some (eval_rpn idx rpn).

(** *** U32Vec

    The combinators write their result into a [U32Vec]; [eval_rpn] hands
    them the same vector [tmp] every time.  [op_and], [op_or] and [op_not]
    above are the values the loops push, in order; here is the vector that
    receives them, with its 32-bit capacity.  A result [None] stands for a
    call that does not return with a result: the doubling loop of [reserve]
    never ends, or a store [a[n++]] lies outside the buffer.  [realloc] is
    taken to succeed; when it fails the program ends with [exit(1)]. *)

Record U32Vec := mkU32Vec { vec_a : list Z; vec_cap : Z }.

Definition vec_n (o : U32Vec) : Z := zlen (vec_a o).

Definition U32Vec_empty : U32Vec := mkU32Vec [] 0.

Definition U32Vec_clear (o : U32Vec) : U32Vec := mkU32Vec [] (vec_cap o).

(** [while (nc < need) nc *= 2;] on a [uint32_t].  A value still below
    [need] after 32 doublings is 0 and stays 0, so 33 tests decide whether
    the loop ends. *)
Fixpoint reserve_loop (fuel : nat) (nc need : Z) : option Z :=
  match fuel with
  | O => None
  | S fuel' =>
      if nc <? need then reserve_loop fuel' (wrap32 (nc * 2)) need
      else Some nc
  end.

Definition U32Vec_reserve (o : U32Vec) (need : Z) : option U32Vec :=
  if need <=? vec_cap o then Some o
  else
    nc ← reserve_loop 33 (if vec_cap o =? 0 then 8 else vec_cap o) need;
    Some (mkU32Vec (vec_a o) nc).

Definition U32Vec_push (o : U32Vec) (v : Z) : option U32Vec :=
  o1 ← (if vec_n o =? vec_cap o
        then U32Vec_reserve o (if vec_cap o =? 0 then 8
                               else wrap32 (vec_cap o * 2))
        else Some o);
  if vec_n o1 <? vec_cap o1
  then Some (mkU32Vec (vec_a o1 ++ [v]) (vec_cap o1))
  else None.

(** The pushes of a loop, in the order it makes them. *)
Fixpoint push_all (o : U32Vec) (vs : list Z) : option U32Vec :=
  match vs with
  | [] => Some o
  | v :: vs' => o' ← U32Vec_push o v; push_all o' vs'
  end.

(** [op_and(a, na, b, nb, out)] and its siblings with [out]: [clear], the
    [reserve] and the pushes.  [na] and [nb] are the lengths of [a] and
    [b]. *)
Definition op_and_v (a b : list Z) (out : U32Vec) : option U32Vec :=
  o ← U32Vec_reserve (U32Vec_clear out)
                     (if zlen a <? zlen b then zlen a else zlen b);
  push_all o (op_and a b).

Definition op_or_v (a b : list Z) (out : U32Vec) : option U32Vec :=
  o ← U32Vec_reserve (U32Vec_clear out) (wrap32 (zlen a + zlen b));
  push_all o (op_or a b).

Definition op_not_v (doc_count : Z) (a : list Z) (out : U32Vec) : option U32Vec :=
  o ← U32Vec_reserve (U32Vec_clear out)
                     (if zlen a <? doc_count then doc_count - zlen a else 0);
  push_all o (op_not doc_count a).

(** *** eval_rpn with its vector

    [eval_rpn] as above, with the vector [tmp] that the combinators fill
    and [copy_list] copies from.  The state is the stack of results and
    [tmp]. *)
Definition eval_item_v (idx : Index) (it : RpnItem) (s : list (list Z) * U32Vec)
  : option (list (list Z) * U32Vec) :=
  let '(st, tmp) := s in
  match rpn_type it with
  | T_TERM => Some (eval_item idx it st, tmp)
  | T_NOT =>
      let '(a, st1) := pop_safe st in
      tmp' ← op_not_v (doc_count idx) a tmp;
      Some (vec_a tmp' :: st1, tmp')
  | T_AND =>
      let '(b, st1) := pop_safe st in
      let '(a, st2) := pop_safe st1 in
      if (zlen a =? 0) || (zlen b =? 0) then Some ([] :: st2, tmp)
      else tmp' ← op_and_v a b tmp; Some (vec_a tmp' :: st2, tmp')
  | T_OR =>
      let '(b, st1) := pop_safe st in
      let '(a, st2) := pop_safe st1 in
      if (zlen a =? 0) && (zlen b =? 0) then Some ([] :: st2, tmp)
      else if zlen a =? 0 then Some (b :: st2, tmp)
      else if zlen b =? 0 then Some (a :: st2, tmp)
      else tmp' ← op_or_v a b tmp; Some (vec_a tmp' :: st2, tmp')
  | _ => Some (st, tmp)
  end.

Fixpoint eval_items_v (idx : Index) (rpn : list RpnItem)
  (s : list (list Z) * U32Vec) : option (list (list Z) * U32Vec) :=
  match rpn with
  | [] => Some s
  | it :: rest => s' ← eval_item_v idx it s; eval_items_v idx rest s'
  end.

Definition eval_rpn_v (idx : Index) (rpn : list RpnItem) : option (list Z) :=
  s ← eval_items_v idx rpn ([], U32Vec_empty);
  Some (fst (pop_safe (fst s))).

(** *** to_rpn over the stemmer interface

    [search_cli.cpp] reaches the stemmer through [stem_word_en] alone, as
    [stemmer_api.h] declares it.  Here [normalize_term] and [to_rpn] are
    read once more with that function as a parameter [stem]; with
    [Stemming.stem_word_en] for [stem] they are the definitions above. *)
Section StemmerApi.
Variable stem : list Z -> Z -> option (list Z * Z).

Definition normalize_term_with (s : list Z) (len : Z) : option (list Z * Z) :=
  '(s1, n) ← stem s len;
  let n1 := if n <? 0 then 0 else n in
  let n2 := if 255 <? n1 then 255 else n1 in
  s2 ← Stemming.poke s1 n2 0;
  Some (s2, n2).

Definition to_rpn_token_with (tok : Tok) (st : rpn_state) : option rpn_state :=
  let '(ops, out) :=
    if is_value_token (tok_type (rpn_prev st)) && can_start_value (tok_type tok)
    then push_op T_AND (rpn_ops st) (rpn_out st)
    else (rpn_ops st, rpn_out st) in
  match tok_type tok with
  | T_TERM =>
      '(text, len) ← normalize_term_with (tok_text tok) (tok_len tok);
      let tok' := mkTok T_TERM text len in
      if 0 <? len then
        let it := mkRpnItem T_TERM
                    (take (Z.to_nat (len + 1)) text
                     ++ replicate (256 - Z.to_nat (len + 1)) 0) len in
        Some (mkRpn ops tok' (out ++ [it]))
      else Some (mkRpn ops tok' out)
  | T_LP => Some (mkRpn (T_LP :: ops) tok out)
  | T_RP =>
      let '(ops', out') := close_paren ops out in Some (mkRpn ops' tok out')
  | T_AND | T_OR | T_NOT =>
      let '(ops', out') := push_op (tok_type tok) ops out in
      Some (mkRpn ops' tok out')
  | _ => Some (mkRpn ops tok out)
  end.

Fixpoint to_rpn_loop_with (fuel : nat) (ts : list Z) (st : rpn_state)
  : option rpn_state :=
  match fuel with
  | O => None
  | S fuel' =>
      let '(tok, ts') := next ts in
      match tok_type tok with
      | T_BAD => to_rpn_loop_with fuel' ts' st
      | T_END => Some st
      | _ => st' ← to_rpn_token_with tok st; to_rpn_loop_with fuel' ts' st'
      end
  end.

Definition to_rpn_with (line : list Z) : option (list RpnItem) :=
  let ts := c_str line in
  st ← to_rpn_loop_with (S (length ts)) ts (mkRpn [] Tok_end []);
  Some (drain_ops (rpn_ops st) (rpn_out st)).

End StemmerApi.

(** *** Index::load *)

(** The integer of [n] bytes at offset [off] (little-endian host); bytes
    past the end of the file are outside the model and read as absent. *)
Definition le_at (b : list Z) (off n : nat) : Z :=
  Indexer.le_value (take n (drop off b)).

Definition sizeof_DocsHeader : Z := 52.
Definition sizeof_DocRec : Z := 24.
Definition sizeof_LexHeader : Z := 52.
Definition sizeof_LexRec : Z := 32.
Definition sizeof_PostHeader : Z := 40.

Definition read_DocRec (b : list Z) : DocRec :=
  mkDocRec (le_at b 0 8) (le_at b 8 4) (le_at b 12 8) (le_at b 20 4).

Definition read_LexRec (b : list Z) : LexRec :=
  mkLexRec (le_at b 0 8) (le_at b 8 2) (le_at b 10 2) (le_at b 12 4)
           (le_at b 16 8) (le_at b 24 4) (le_at b 28 4).

(** The [n] records of [size] bytes an array pointer into the file sees. *)
Fixpoint read_array {A} (read : list Z -> A) (size n : nat) (b : list Z) : list A :=
  match n with
  | O => []
  | S n' => read b :: read_array read size n' (drop size b)
  end.

(** The three tests of a header: size, magic, version. *)
Definition bad_header (file magic : list Z) (size : Z) : bool :=
  (zlen file <? size) || negb (memcmp file magic 4 =? 0)
  || negb (le_at file 4 4 =? 1).

(** The part of [load] after the three files are read: the header tests
    and the pointers into the files. *)
Definition load_files (docs_file lex_file post_file : list Z) : option Index :=
  if bad_header docs_file (str "DOCS") sizeof_DocsHeader then None
  else
    let dh := mkDocsHeader (le_at docs_file 4 4) (le_at docs_file 8 4)
                           (le_at docs_file 12 8) in
    let nd := Z.to_nat (dh_doc_count dh) in
    if bad_header lex_file (str "LEXI") sizeof_LexHeader then None
    else
      let lh := mkLexHeader (le_at lex_file 4 4) (le_at lex_file 8 4)
                            (le_at lex_file 12 8) in
      let nt := Z.to_nat (lh_term_count lh) in
      if bad_header post_file (str "POST") sizeof_PostHeader then None
      else
        Some (mkIndex dh
                (read_array read_DocRec 24 nd (drop 52 docs_file))
                (drop (52 + nd * 24) docs_file)
                lh
                (read_array read_LexRec 32 nt (drop 52 lex_file))
                (drop (52 + nt * 32) lex_file)
                post_file).

(** [Some idx] when [load] returns 1. *)
Definition load (fs : Indexer.FS) (index_dir : string) : option Index :=
  docs_file ← Indexer.read_file fs (index_dir ++ "/docs.bin")%string;
  lex_file ← Indexer.read_file fs (index_dir ++ "/lexicon.bin")%string;
  post_file ← Indexer.read_file fs (index_dir ++ "/postings.bin")%string;
  load_files docs_file lex_file post_file.

(** *** main *)




(** [chomp]: the C string left in [s].  [n] starts at [strlen(s)], and
    each turn writes a NUL at [s[n-1]]. *)
Fixpoint chomp_loop (s : list Z) (n : nat) : list Z :=
  match n with
  | O => []
  | S n' =>
      let c := nth n' s 0 in
      if (c =? 10) || (c =? 13) then chomp_loop s n' else take n s
  end.

Definition chomp (s : list Z) : list Z := chomp_loop s (length (c_str s)).







End SearchCli.

(** * Specification vocabulary *)

(** The order of [lex_cmp_str] on two byte strings given with their exact
    lengths. *)
Definition term_cmp (a b : list Z) : Z :=
  Indexer.lex_cmp_str a (zlen a) b (zlen b).

Definition term_lt (a b : list Z) : Prop := term_cmp a b < 0.

(** The term bytes a lexicon record points at. *)
Definition rec_term (idx : SearchCli.Index) (r : SearchCli.LexRec) : list Z :=
  take (Z.to_nat (SearchCli.term_len r))
       (drop (Z.to_nat (SearchCli.term_off r)) (SearchCli.term_pool idx)).

Definition lex_terms (idx : SearchCli.Index) : list (list Z) :=
  map (rec_term idx) (SearchCli.lex idx).

(** The record array has [term_count] entries and every record's term lies
    inside the pool. *)
Definition lexicon_wf (idx : SearchCli.Index) : Prop :=
  zlen (SearchCli.lex idx) = SearchCli.term_count idx /\
  Forall (fun r => 0 <= SearchCli.term_off r /\ 0 <= SearchCli.term_len r /\
                   SearchCli.term_off r + SearchCli.term_len r
                   <= zlen (SearchCli.term_pool idx))
         (SearchCli.lex idx).

(** Records strictly ascending under the (bytes, length) order. *)
Definition lexicon_sorted (idx : SearchCli.Index) : Prop :=
  Sorted term_lt (lex_terms idx).

(** A three-term index over two documents: "cat" in documents 0 and 1,
    "cats" in document 1, "dog" in document 0. *)
Definition small_index : SearchCli.Index :=
  SearchCli.mkIndex
    (SearchCli.mkDocsHeader 1 2 0) [] []
    (SearchCli.mkLexHeader 1 3 13)
    [ SearchCli.mkLexRec 0 3 0 2 40 2 0;
      SearchCli.mkLexRec 4 4 0 1 48 1 0;
      SearchCli.mkLexRec 9 3 0 1 52 1 0 ]
    (str "cat" ++ [0] ++ str "cats" ++ [0] ++ str "dog" ++ [0])
    (str "POST" ++ [1; 0; 0; 0] ++ replicate 32 0
     ++ [0; 0; 0; 0; 1; 0; 0; 0] ++ [1; 0; 0; 0] ++ [0; 0; 0; 0]).

(** The token stream of a query line: what successive calls of [next]
    return before [T_END]. *)
Fixpoint lex_all (fuel : nat) (ts : list Z) : list SearchCli.Tok :=
  match fuel with
  | O => []
  | S fuel' =>
      let '(tok, ts') := SearchCli.next ts in
      if bool_decide (SearchCli.tok_type tok = SearchCli.T_END) then []
      else tok :: lex_all fuel' ts'
  end.

Definition token_stream (line : list Z) : list SearchCli.Tok :=
  lex_all (S (length (c_str line))) (c_str line).

(** [to_rpn]'s loop as a function of the tokens it reads. *)
Fixpoint rpn_feed (toks : list SearchCli.Tok) (st : SearchCli.rpn_state)
  : option SearchCli.rpn_state :=
  match toks with
  | [] => Some st
  | tok :: rest =>
      if bool_decide (SearchCli.tok_type tok = SearchCli.T_BAD) then rpn_feed rest st
      else st' ← SearchCli.to_rpn_token tok st; rpn_feed rest st'
  end.

(** *** The postfix conversion as the specification words it

    Lexing comes first; then every [TERM] is stemmed; terms whose stem is
    empty are dropped from the token sequence; the shunting-yard with
    implicit conjunction runs over what is left. *)

Definition stem_token (tok : SearchCli.Tok) : option SearchCli.Tok :=
  match SearchCli.tok_type tok with
  | SearchCli.T_TERM =>
      '(text, len) ← SearchCli.normalize_term (SearchCli.tok_text tok)
                                               (SearchCli.tok_len tok);
      Some (SearchCli.mkTok SearchCli.T_TERM text len)
  | _ => Some tok
  end.

Fixpoint stem_tokens (toks : list SearchCli.Tok) : option (list SearchCli.Tok) :=
  match toks with
  | [] => Some []
  | tok :: rest =>
      tok' ← stem_token tok; rest' ← stem_tokens rest; Some (tok' :: rest')
  end.

Definition empty_stem (tok : SearchCli.Tok) : bool :=
  bool_decide (SearchCli.tok_type tok = SearchCli.T_TERM)
  && (SearchCli.tok_len tok <=? 0).

Definition is_bad (tok : SearchCli.Tok) : bool :=
  bool_decide (SearchCli.tok_type tok = SearchCli.T_BAD).

(** One shunting-yard step on a token that is already stemmed and kept. *)
Definition shunting_yard_token (st : SearchCli.rpn_state) (tok : SearchCli.Tok)
  : SearchCli.rpn_state :=
  let '(ops, out) :=
    if SearchCli.is_value_token (SearchCli.tok_type (SearchCli.rpn_prev st))
       && SearchCli.can_start_value (SearchCli.tok_type tok)
    then SearchCli.push_op SearchCli.T_AND (SearchCli.rpn_ops st) (SearchCli.rpn_out st)
    else (SearchCli.rpn_ops st, SearchCli.rpn_out st) in
  match SearchCli.tok_type tok with
  | SearchCli.T_TERM =>
      let len := SearchCli.tok_len tok in
      let it := SearchCli.mkRpnItem SearchCli.T_TERM
                  (take (Z.to_nat (len + 1)) (SearchCli.tok_text tok)
                   ++ replicate (256 - Z.to_nat (len + 1)) 0) len in
      SearchCli.mkRpn ops tok (out ++ [it])
  | SearchCli.T_LP => SearchCli.mkRpn (SearchCli.T_LP :: ops) tok out
  | SearchCli.T_RP =>
      let '(ops', out') := SearchCli.close_paren ops out in
      SearchCli.mkRpn ops' tok out'
  | SearchCli.T_AND | SearchCli.T_OR | SearchCli.T_NOT =>
      let '(ops', out') := SearchCli.push_op (SearchCli.tok_type tok) ops out in
      SearchCli.mkRpn ops' tok out'
  | _ => SearchCli.mkRpn ops tok out
  end.

Definition to_rpn_spec (line : list Z) : option (list SearchCli.RpnItem) :=
  toks ← stem_tokens (filter (fun tok => negb (is_bad tok)) (token_stream line));
  let kept := filter (fun tok => negb (empty_stem tok)) toks in
  let st := fold_left shunting_yard_token kept
                      (SearchCli.mkRpn [] SearchCli.Tok_end []) in
  Some (SearchCli.drain_ops (SearchCli.rpn_ops st) (SearchCli.rpn_out st)).

(** *** The postfix conversion for any stemmer

    The same reading of the specification for a stemmer [stem] behind the
    interface: terms whose stem is empty are dropped from the token
    sequence before the shunting-yard runs. *)


Definition stem_token_with (stem : list Z -> Z -> option (list Z * Z))
  (tok : SearchCli.Tok) : option SearchCli.Tok :=
  match SearchCli.tok_type tok with
  | SearchCli.T_TERM =>
      '(text, len) ← SearchCli.normalize_term_with stem (SearchCli.tok_text tok)
                                                    (SearchCli.tok_len tok);
      Some (SearchCli.mkTok SearchCli.T_TERM text len)
  | _ => Some tok
  end.

Definition stem_tokens_with (stem : list Z -> Z -> option (list Z * Z)) :=
  fix stems (toks : list SearchCli.Tok) : option (list SearchCli.Tok) :=
    match toks with
    | [] => Some []
    | tok :: rest =>
        tok' ← stem_token_with stem tok; rest' ← stems rest; Some (tok' :: rest')
    end.


(** A [TERM] item without a byte: the value of a term whose stem is
    empty. *)
Definition empty_value (it : SearchCli.RpnItem) : bool :=
  bool_decide (SearchCli.rpn_type it = SearchCli.T_TERM)
  && (SearchCli.rpn_len it <=? 0).

(** What the code does with empty stems: every term, its stem empty or
    not, takes part in the shunting-yard with implicit conjunction as a
    [TERM]; the values of the empty stems are then left out of the
    output, and nothing else is. *)
Definition to_rpn_kept (stem : list Z -> Z -> option (list Z * Z))
  (line : list Z) : option (list SearchCli.RpnItem) :=
  toks ← stem_tokens_with stem
           (filter (fun tok => negb (is_bad tok)) (token_stream line));
  let st := fold_left shunting_yard_token toks
                      (SearchCli.mkRpn [] SearchCli.Tok_end []) in
  Some (filter (fun it => negb (empty_value it))
               (SearchCli.drain_ops (SearchCli.rpn_ops st) (SearchCli.rpn_out st))).

(** A stemmer that leaves every word as it is, except that it empties
    the words that begin with [x]. *)
Definition drop_x (s : list Z) (len : Z) : option (list Z * Z) :=
  if at_ s 0 =? ch "x" then Some (s, 0) else Some (s, len).



(** *** Term table invariant *)

(** Number of slots in use. *)
Definition occupied (tab : list Indexer.TermEntry) : Z :=
  zlen (List.filter (fun e => negb (Indexer.te_hash e =? 0)) tab).

(** The capacity is a power of two, the slot array has that many slots and
    [used] counts the slots in use. *)
Definition tt_wf (tt : Indexer.TermTable) : Prop :=
  (exists k, 0 <= k /\ Indexer.tt_cap tt = 2 ^ k) /\
  zlen (Indexer.tt_tab tt) = Indexer.tt_cap tt /\
  Indexer.tt_used tt = occupied (Indexer.tt_tab tt).

(** The state of [process_one_doc] at the end of the document
    ["a b c d e f g late"] (doc-id 5, a set of 8 slots): seven terms are in
    the set and the token ["late"] waits in the buffer. *)
Definition doc_with_late_token : Indexer.doc_state :=
  let st0 := Indexer.mkDocState (Indexer.TermTable_init 16 1024)
               (Indexer.DocTermSet_reset (Indexer.DocTermSet_init 8 64)) [] 0 0 0 in
  match Indexer.index_bytes 5 st0 (str "a b c d e f g late") with
  | Some st => st
  | None => st0
  end.

(** *** Manifest lines *)

(** A line [fgets] returned that gives no [doc_id]: the manifest loop
    skips it. *)
Definition unusable_line (raw : list Z) : Prop :=
  Indexer.extract_json_string (c_str raw) (str "doc_id") 64 = None.

(** The lines of a manifest as [main] reads them. *)
Definition manifest_lines (data : list Z) : list (list Z) :=
  Indexer.fgets_lines data [] (2 ^ 20) (2 ^ 20 - 1).

(** A directory without any [.blk] name. *)
Definition no_blocks (fs : gmap string (list (string * list Z))) (dir : string) : Prop :=
  forall ents, fs !! dir = Some ents ->
               List.filter Indexer.ends_with_blk (map fst ents) = [].

(** The working directory of a first build: an empty manifest, an empty
    corpus directory and no output directory yet. *)
Definition fresh_fs : gmap string (list (string * list Z)) :=
  {[ "."%string := [("manifest.jsonl"%string, [])]; "corpus"%string := [] ]}.

(** The same after [main] has made ["out"] and ["out/blocks"]. *)
Definition fresh_fs_with_dirs : gmap string (list (string * list Z)) :=
  <["out/blocks"%string := []]> (<["out"%string := []]> fresh_fs).

Definition fresh_args : Indexer.Args :=
  Indexer.mkArgs "manifest.jsonl" "corpus" "out" 512 200.

(** *** Invariants used in the proofs *)

(** [out] ends below [v]. *)
Definition ends_below (out : list Z) (v : Z) : Prop :=
  forall w, last out = Some w -> w < v.


(** The buffer is never overrun while fewer than [2^31] ids are stored:
    the capacity is [0] or [8 * 2^k] and doubling it does not wrap. *)
Definition cap_ok (l : Indexer.U32List) : Prop :=
  Indexer.U32List_n l <= Indexer.U32List_cap l /\
  (Indexer.U32List_cap l = 0 \/
   exists k, 3 <= k <= 31 /\ Indexer.U32List_cap l = 2 ^ k).

(** [st'] continues [st] in the same buffer with a word that is not longer,
    and not empty unless it already was. *)
Definition shrinks (st st' : Stemming.stem_state) : Prop :=
  -1 <= Stemming.k st' <= Stemming.k st /\
  (0 <= Stemming.k st -> 0 <= Stemming.k st') /\
  zlen (Stemming.buf st') = zlen (Stemming.buf st).

(** A token as the lexer makes it: a [T_TERM] holds 1 to 255 bytes in a
    256-byte buffer. *)
Definition tok_wf (tok : SearchCli.Tok) : Prop :=
  SearchCli.tok_type tok <> SearchCli.T_END /\
  (SearchCli.tok_type tok = SearchCli.T_TERM ->
   1 <= SearchCli.tok_len tok <= 255 /\ zlen (SearchCli.tok_text tok) = 256).

Definition binary_op (t : SearchCli.TokType) : Prop :=
  t = SearchCli.T_AND \/ t = SearchCli.T_OR.

(** Only [AND]/[OR] items in the output, only [AND]/[OR]/[(] on the stack. *)
Definition binary_only (st : SearchCli.rpn_state) : Prop :=
  Forall (fun t => binary_op t \/ t = SearchCli.T_LP) (SearchCli.rpn_ops st) /\
  Forall (fun it => binary_op (SearchCli.rpn_type it)) (SearchCli.rpn_out st).


(** *** Vocabulary of the further properties *)

(** A digit or a lower-case letter. *)
Definition lower_alnum (c : Z) : Prop :=
  ch "0" <= c <= ch "9" \/ ch "a" <= c <= ch "z".



(** An item of a postfix query: a term of 1 to 255 bytes or an operator,
    never a parenthesis. *)
Definition rpn_item_ok (it : SearchCli.RpnItem) : Prop :=
  (SearchCli.rpn_type it = SearchCli.T_TERM /\ 1 <= SearchCli.rpn_len it <= 255) \/
  SearchCli.rpn_type it = SearchCli.T_AND \/
  SearchCli.rpn_type it = SearchCli.T_OR \/
  SearchCli.rpn_type it = SearchCli.T_NOT.

Definition rpn_op_ok (t : SearchCli.TokType) : Prop :=
  t = SearchCli.T_AND \/ t = SearchCli.T_OR \/ t = SearchCli.T_NOT \/
  t = SearchCli.T_LP.

Definition rpn_state_ok (st : SearchCli.rpn_state) : Prop :=
  Forall rpn_op_ok (SearchCli.rpn_ops st) /\
  Forall rpn_item_ok (SearchCli.rpn_out st).

(** *** DocTermSet invariant *)

Definition ds_occupied (tab : list Indexer.DocSetEntry) : Z :=
  zlen (List.filter (fun e => negb (Indexer.de_hash e =? 0)) tab).

Definition ds_wf (ds : Indexer.DocTermSet) : Prop :=
  (exists k, 0 <= k /\ Indexer.ds_cap ds = 2 ^ k) /\
  zlen (Indexer.ds_tab ds) = Indexer.ds_cap ds /\
  Indexer.ds_used ds = ds_occupied (Indexer.ds_tab ds).

(** The entries in use, in slot order. *)
Definition live_entries (tab : list Indexer.TermEntry) : list Indexer.TermEntry :=
  List.filter (fun e => negb (Indexer.te_hash e =? 0)) tab.

(** *** What the builder keeps true of its table between documents *)

(** A stored term is 1 to 255 bytes of [0-9a-z] and [len] is its length. *)
Definition term_ok (e : Indexer.TermEntry) : Prop :=
  1 <= zlen (Indexer.te_term e) <= 255 /\
  Forall lower_alnum (Indexer.te_term e) /\
  Indexer.te_len e = zlen (Indexer.te_term e).

(** A posting list is strictly ascending and holds no id above [d]. *)
Definition post_ok (d : Z) (l : Indexer.U32List) : Prop :=
  ascending (Indexer.U32List_a l) /\
  Forall (fun v => v <= d) (Indexer.U32List_a l).

Definition entry_ok (d : Z) (e : Indexer.TermEntry) : Prop :=
  Indexer.te_hash e <> 0 -> term_ok e /\ post_ok d (Indexer.te_post e).

Definition entries_ok (d : Z) (tt : Indexer.TermTable) : Prop :=
  Forall (entry_ok d) (Indexer.tt_tab tt).

(** The token buffer of [process_one_doc]: at most 255 bytes are in use,
    all of them lower-case letters or digits. *)
Definition tok_ok (st : Indexer.doc_state) : Prop :=
  0 <= Indexer.d_tok_len st <= 255 /\
  Indexer.d_tok_len st <= zlen (Indexer.d_tok st) /\
  Forall lower_alnum (take (Z.to_nat (Indexer.d_tok_len st)) (Indexer.d_tok st)).

Definition doc_state_ok (d : Z) (st : Indexer.doc_state) : Prop :=
  tt_wf (Indexer.d_tt st) /\ ds_wf (Indexer.d_dset st) /\
  entries_ok d (Indexer.d_tt st) /\ tok_ok st.

(** Both arenas have room for every term of the document: no [add] of
    [process_one_doc] reallocates, so the entries keep pointing at their
    terms.  The set starts the document with an empty arena. *)
Definition doc_fits (txt : option (list Z)) (tt : Indexer.TermTable)
  (dset : Indexer.DocTermSet) : Prop :=
  forall data, txt = Some data ->
    Indexer.arena_used (Indexer.tt_arena tt) + zlen data + 1
      <= Indexer.arena_cap (Indexer.tt_arena tt) /\
    zlen data + 1 <= Indexer.arena_cap (Indexer.ds_arena dset).

(** The arenas of a state of [process_one_doc] with [rest] bytes of the
    document still to read: their capacities are [cap_t] and [cap_d], and
    the token in the buffer and the bytes to come fit in both. *)
Definition arenas_fit (cap_t cap_d : Z) (st : Indexer.doc_state) (rest : Z) : Prop :=
  Indexer.arena_cap (Indexer.tt_arena (Indexer.d_tt st)) = cap_t /\
  Indexer.arena_cap (Indexer.ds_arena (Indexer.d_dset st)) = cap_d /\
  Indexer.arena_used (Indexer.tt_arena (Indexer.d_tt st))
    + Indexer.d_tok_len st + rest + 1 <= cap_t /\
  Indexer.arena_used (Indexer.ds_arena (Indexer.d_dset st))
    + Indexer.d_tok_len st + rest + 1 <= cap_d.

(** A table of two slots, both in use, which the next call has to grow. *)
Definition full_table : Indexer.TermTable :=
  Indexer.mkTermTable
    [Indexer.mkTermEntry (Indexer.fnv1a_64 (str "a") 1) (str "a") 1
                         (Indexer.mkU32List [0; 2] 8);
     Indexer.mkTermEntry (Indexer.fnv1a_64 (str "b") 1) (str "b") 1
                         (Indexer.mkU32List [1] 8)]
    2 2 (Indexer.Arena_init 16).

(** An entry whose fields fit the block format: a 16-bit term length that
    is the length of the term, a 32-bit count and 32-bit doc-ids. *)
Definition entry_fits (e : Indexer.TermEntry) : Prop :=
  Indexer.te_len e = zlen (Indexer.te_term e) /\
  Indexer.te_len e < 2 ^ 16 /\
  Indexer.U32List_n (Indexer.te_post e) < 2 ^ 32 /\
  Forall (fun v => 0 <= v < 2 ^ 32) (Indexer.U32List_a (Indexer.te_post e)).

(** The reader [BlockReader::open] leaves on a block that holds [es]. *)
Definition reader_at (es : list Indexer.TermEntry) : Indexer.BlockReader :=
  match es with
  | [] => Indexer.mkBlockReader [] 0 None 0 0 []
  | e :: rest =>
      Indexer.mkBlockReader
        (concat (map Indexer.block_entry_bytes rest)) (zlen rest)
        (Some (Indexer.te_term e)) (Indexer.te_len e)
        (Indexer.U32List_n (Indexer.te_post e))
        (Indexer.U32List_a (Indexer.te_post e))
  end.

(** A C string: no NUL among its bytes. *)
Definition no_nul (s : list Z) : Prop := Forall (fun c => c <> 0) s.

(** The pattern [extract_json_string] looks for: the key in quotes and a
    colon. *)
Definition json_pat (key : list Z) : list Z := [34] ++ key ++ [34; ch ":"].

Definition is_blank (c : Z) : Prop := c = ch " " \/ c = 9.

(** A byte that the copy loop takes as it is. *)
Definition plain_byte (c : Z) : Prop := c <> 34 /\ c <> 92.

(** A manifest line with a title: [{"title": "Porter"}]. *)
Definition title_line : list Z :=
  str "{" ++ json_pat (str "title") ++ str " " ++ [34] ++ str "Porter" ++ [34]
  ++ str "}".

(** *** The files of the index as the builder writes them *)

(** The bytes [DocsBuilder::write_to] puts into [docs.bin]. *)
Definition docs_file (d : Indexer.DocsBuilder) : list Z :=
  Indexer.DocsHeader_bytes (Indexer.db_n d) (Indexer.arena_used (Indexer.db_pool d))
  ++ concat (map Indexer.DocRec_bytes (Indexer.db_recs d))
  ++ Indexer.arena_buf (Indexer.db_pool d).

(** The records of [lexicon.bin] in the order [LexBuilder::write_to] gives
    them. *)
Definition lexicon_recs (l : Indexer.LexBuilder) : list Indexer.LexRec :=
  Indexer.qsort (Indexer.lexrec_cmp_by_term (Indexer.arena_buf (Indexer.lb_pool l)))
                (Indexer.lb_recs l).

(** The bytes [LexBuilder::write_to] puts into [lexicon.bin]. *)
Definition lexicon_file (l : Indexer.LexBuilder) : list Z :=
  Indexer.LexHeader_bytes (Indexer.lb_n l) (Indexer.arena_used (Indexer.lb_pool l))
  ++ concat (map Indexer.LexRec_bytes (lexicon_recs l))
  ++ Indexer.arena_buf (Indexer.lb_pool l).

(** The record of the builder as the search program declares it. *)
Definition docrec_conv (r : Indexer.DocRec) : SearchCli.DocRec :=
  SearchCli.mkDocRec (Indexer.title_off r) (Indexer.title_len r)
                     (Indexer.url_off r) (Indexer.url_len r).

Definition lexrec_conv (r : Indexer.LexRec) : SearchCli.LexRec :=
  SearchCli.mkLexRec (Indexer.term_off r) (Indexer.term_len r) (Indexer.flags r)
                     (Indexer.df r) (Indexer.postings_off r)
                     (Indexer.postings_len r) (Indexer.lexrec_reserved r).

(** Every field is a value of its C type. *)
Definition docrec_fits (r : Indexer.DocRec) : Prop :=
  0 <= Indexer.title_off r < 2 ^ 64 /\ 0 <= Indexer.title_len r < 2 ^ 32 /\
  0 <= Indexer.url_off r < 2 ^ 64 /\ 0 <= Indexer.url_len r < 2 ^ 32.

Definition lexrec_fits (r : Indexer.LexRec) : Prop :=
  0 <= Indexer.term_off r < 2 ^ 64 /\ 0 <= Indexer.term_len r < 2 ^ 16 /\
  0 <= Indexer.flags r < 2 ^ 16 /\ 0 <= Indexer.df r < 2 ^ 32 /\
  0 <= Indexer.postings_off r < 2 ^ 64 /\
  0 <= Indexer.postings_len r < 2 ^ 32 /\
  0 <= Indexer.lexrec_reserved r < 2 ^ 32.

(** The index [load] builds from the files of the two builders and a
    postings file. *)
Definition loaded_index (d : Indexer.DocsBuilder) (l : Indexer.LexBuilder)
  (post_file : list Z) : SearchCli.Index :=
  SearchCli.mkIndex
    (SearchCli.mkDocsHeader 1 (Indexer.db_n d)
                            (Indexer.arena_used (Indexer.db_pool d)))
    (map docrec_conv (Indexer.db_recs d))
    (Indexer.arena_buf (Indexer.db_pool d))
    (SearchCli.mkLexHeader 1 (Indexer.lb_n l)
                           (Indexer.arena_used (Indexer.lb_pool l)))
    (map lexrec_conv (lexicon_recs l))
    (Indexer.arena_buf (Indexer.lb_pool l))
    post_file.

(** The builder after [add_doc] for each (title, URL) of a list. *)
Definition add_docs (d : Indexer.DocsBuilder) (docs : list (list Z * list Z))
  : Indexer.DocsBuilder :=
  fold_left (fun d tu => Indexer.add_doc d (fst tu) (snd tu)) docs d.



(** A small index on disk: one document, one term. *)
Definition one_doc : Indexer.DocsBuilder :=
  add_docs (Indexer.DocsBuilder_init 0 16) [(str "Porter", str "http://x/1")].

Definition one_term : Indexer.LexBuilder :=
  Indexer.add_term (Indexer.LexBuilder_init 0 16) (str "porter") 6 40 1.

Definition built_fs : gmap string (list (string * list Z)) :=
  {[ "out"%string :=
       [("docs.bin"%string, docs_file one_doc);
        ("lexicon.bin"%string, lexicon_file one_term);
        ("postings.bin"%string, Indexer.PostHeader_bytes ++ [0; 0; 0; 0])] ]}.



(** The term a builder record points at. *)
Definition lexrec_term (pool : list Z) (r : Indexer.LexRec) : list Z :=
  take (Z.to_nat (Indexer.term_len r))
       (drop (Z.to_nat (Indexer.term_off r)) pool).


(** *** The vectors of the search program *)

(** A capacity [reserve] can leave: 0, or a power of two from 8 to [2^31]. *)
Definition cap_shape (c : Z) : Prop :=
  c = 0 \/ exists k, 3 <= k <= 31 /\ c = 2 ^ k.

(** The cells in use fit the capacity. *)
Definition vec_ok (o : SearchCli.U32Vec) : Prop :=
  SearchCli.vec_n o <= SearchCli.vec_cap o /\ cap_shape (SearchCli.vec_cap o).

(** The call returns and leaves the values [l] in its vector. *)
Definition returns (r : option SearchCli.U32Vec) (l : list Z) : Prop :=
  exists o, r = Some o /\ SearchCli.vec_a o = l /\ vec_ok o.

(** * Properties *)

(** ** Strictly ascending lists *)

Section Ascending.

Lemma ascending_forall_lt x l : ascending (x :: l) -> Forall (Z.lt x) l.
Proof.
  intros H. apply Sorted_StronglySorted in H.
  - now inversion H.
  - intros p q r; apply Z.lt_trans.
Qed.

Lemma ascending_tail x l : ascending (x :: l) -> ascending l.
Proof. intros H. now inversion H. Qed.

Lemma ascending_cons x l :
  ascending l -> Forall (Z.lt x) l -> ascending (x :: l).
Proof.
  intros Hl Hx. constructor; [exact Hl|].
  destruct l; constructor. now inversion Hx.
Qed.

Lemma ascending_snoc out v :
  ascending out -> (forall w, last out = Some w -> w < v) ->
  ascending (out ++ [v]).
Proof.
  induction out as [|x out IH]; intros Hs Hl; simpl.
  - repeat constructor.
  - assert (Ht : ascending (out ++ [v])).
    { apply IH; [now inversion Hs|].
      intros w Hw. apply Hl. destruct out; [discriminate|exact Hw]. }
    constructor; [exact Ht|].
    destruct out as [|y out]; simpl.
    + constructor. apply Hl. reflexivity.
    + constructor. inversion Hs as [|? ? ? Hhd]. now inversion Hhd.
Qed.


End Ascending.

(** ** merge_union_u32 *)

Section MergeUnion.
Import Indexer.

Lemma emit_In out x v : v ∈ emit out x <-> v ∈ out \/ v = x.
Proof.
  unfold emit. destruct (last out) as [w|] eqn:Hl.
  - destruct (Z.eqb_spec w x) as [->|Hne].
    + split; [tauto|]. intros [H| ->]; [exact H|].
      apply last_Some_elem_of. exact Hl.
    + rewrite elem_of_app, list_elem_of_singleton. tauto.
  - rewrite elem_of_app, list_elem_of_singleton. tauto.
Qed.

Lemma drain_In l : forall out v,
  v ∈ fold_left emit l out <-> v ∈ out \/ v ∈ l.
Proof.
  induction l as [|x l IH]; intros out v; simpl.
  - rewrite elem_of_nil. tauto.
  - rewrite IH, emit_In, elem_of_cons. tauto.
Qed.

Lemma merge_union_loop_In a : forall b out v,
  v ∈ merge_union_loop a b out <-> v ∈ out \/ v ∈ a \/ v ∈ b.
Proof.
  induction a as [|x a IHa]; intros b.
  - destruct b; intros out v; simpl.
    + rewrite elem_of_nil. tauto.
    + rewrite drain_In, emit_In, elem_of_nil, elem_of_cons. tauto.
  - induction b as [|y b IHb]; intros out v.
    + simpl. rewrite drain_In, emit_In, elem_of_nil, elem_of_cons. tauto.
    + rewrite !elem_of_cons.
      simpl. destruct (Z.eqb_spec x y) as [->|Hne].
      * rewrite IHa, emit_In. tauto.
      * destruct (x <? y).
        -- rewrite IHa, emit_In, elem_of_cons. tauto.
        -- specialize (IHb (emit out y) v). simpl in IHb.
           rewrite IHb, emit_In, elem_of_cons. tauto.
Qed.

Lemma emit_fresh out v :
  ascending out -> ends_below out v ->
  emit out v = out ++ [v] /\ ascending (out ++ [v]).
Proof.
  intros Hs Hb. split; [|now apply ascending_snoc].
  unfold emit. destruct (last out) as [w|] eqn:Hl; [|reflexivity].
  specialize (Hb w Hl). destruct (Z.eqb_spec w v); [lia|reflexivity].
Qed.

Lemma ends_below_snoc out v u : v < u -> ends_below (out ++ [v]) u.
Proof. intros Hlt w Hw. rewrite last_snoc in Hw. injection Hw as <-. exact Hlt. Qed.

Lemma drain_ascending l : forall out,
  ascending l -> ascending out -> Forall (ends_below out) l ->
  ascending (fold_left emit l out).
Proof.
  induction l as [|x l IH]; intros out Hl Ho Hb; simpl; [exact Ho|].
  inversion Hb as [|? ? Hx Hrest]; subst.
  destruct (emit_fresh out x Ho Hx) as [-> Hs].
  apply IH; [now inversion Hl|exact Hs|].
  pose proof (ascending_forall_lt _ _ Hl) as Hf.
  eapply Forall_impl; [exact Hf|]. intros u Hu. now apply ends_below_snoc.
Qed.

Lemma merge_union_loop_ascending a : forall b out,
  ascending a -> ascending b -> ascending out ->
  Forall (ends_below out) a -> Forall (ends_below out) b ->
  ascending (merge_union_loop a b out).
Proof.
  induction a as [|x a IHa]; intros b.
  - destruct b; intros out Ha Hb Ho Fa Fb; simpl; [exact Ho|].
    apply (drain_ascending (z :: b)); assumption.
  - induction b as [|y b IHb]; intros out Ha Hb Ho Fa Fb.
    + apply (drain_ascending (x :: a)); assumption.
    + pose proof (ascending_forall_lt _ _ Ha) as Hxa.
      pose proof (ascending_forall_lt _ _ Hb) as Hyb.
      inversion Fa as [|? ? Hx Fa']; subst.
      inversion Fb as [|? ? Hy Fb']; subst.
      simpl. destruct (Z.eqb_spec x y) as [->|Hne].
      * destruct (emit_fresh out y Ho Hx) as [-> Hs].
        apply IHa; [now inversion Ha|now inversion Hb|exact Hs| |].
        -- eapply Forall_impl; [exact Hxa|]. intros u Hu. now apply ends_below_snoc.
        -- eapply Forall_impl; [exact Hyb|]. intros u Hu. now apply ends_below_snoc.
      * destruct (Z.ltb_spec x y) as [Hlt|Hge].
        -- destruct (emit_fresh out x Ho Hx) as [-> Hs].
           apply IHa; [now inversion Ha|exact Hb|exact Hs| |].
           ++ eapply Forall_impl; [exact Hxa|]. intros u Hu. now apply ends_below_snoc.
           ++ constructor; [now apply ends_below_snoc|].
              eapply Forall_impl; [exact Hyb|]. intros u Hu.
              apply ends_below_snoc. lia.
        -- destruct (emit_fresh out y Ho Hy) as [-> Hs].
           apply IHb; [exact Ha|now inversion Hb|exact Hs| |].
           ++ constructor; [apply ends_below_snoc; lia|].
              eapply Forall_impl; [exact Hxa|]. intros u Hu.
              apply ends_below_snoc. lia.
           ++ eapply Forall_impl; [exact Hyb|]. intros u Hu. now apply ends_below_snoc.
Qed.

Lemma emit_length out v : (length (emit out v) <= S (length out))%nat.
Proof.
  unfold emit. destruct (last out) as [w|]; [destruct (w =? v)|];
    rewrite ?length_app; simpl; lia.
Qed.

Lemma drain_length l : forall out,
  (length (fold_left emit l out) <= length out + length l)%nat.
Proof.
  induction l as [|x l IH]; intros out; simpl; [lia|].
  pose proof (IH (emit out x)). pose proof (emit_length out x). lia.
Qed.

Lemma merge_union_loop_length a : forall b out,
  (length (merge_union_loop a b out) <= length out + length a + length b)%nat.
Proof.
  induction a as [|x a IHa]; intros b.
  - destruct b as [|y b]; intros out; simpl; [lia|].
    pose proof (drain_length b (emit out y)). pose proof (emit_length out y). lia.
  - induction b as [|y b IHb]; intros out.
    + simpl. pose proof (drain_length a (emit out x)).
      pose proof (emit_length out x). lia.
    + cbn [merge_union_loop]. pose proof (emit_length out x).
      pose proof (emit_length out y).
      destruct (x =? y).
      * pose proof (IHa b (emit out x)). simpl. lia.
      * destruct (x <? y).
        -- pose proof (IHa (y :: b) (emit out x)). simpl in *. lia.
        -- pose proof (IHb (emit out y)). simpl in *. lia.
Qed.



End MergeUnion.

(** ** U32List::push_unique_sorted *)

Section PushUniqueSorted.
Import Indexer.

Lemma at_last (a : list Z) w :
  last a = Some w -> 0 < zlen a /\ at_ a (zlen a - 1) = w.
Proof.
  unfold at_, zlen. intros Hl.
  destruct a as [|x a] using rev_ind; [discriminate|].
  rewrite last_snoc in Hl. injection Hl as ->. clear IHa.
  rewrite length_app. simpl. split; [lia|].
  replace (Z.to_nat (Z.of_nat (length a + 1) - 1)) with (length a) by lia.
  rewrite app_nth2, Nat.sub_diag by lia. reflexivity.
Qed.

Lemma push_unique_sorted_a l v :
  U32List_a (push_unique_sorted l v) =
  if decide (last (U32List_a l) = Some v) then U32List_a l
  else U32List_a l ++ [v].
Proof.
  unfold push_unique_sorted, U32List_n.
  destruct (last (U32List_a l)) as [w|] eqn:Hl.
  - destruct (at_last _ _ Hl) as [Hpos ->].
    replace (0 <? zlen (U32List_a l)) with true by (symmetry; apply Z.ltb_lt; lia).
    simpl. destruct (Z.eqb_spec w v) as [->|Hne].
    + rewrite decide_True by reflexivity. reflexivity.
    + rewrite decide_False by congruence. reflexivity.
  - apply last_None in Hl. rewrite Hl. simpl. reflexivity.
Qed.



Lemma push_unique_sorted_cap_ok l v :
  cap_ok l -> U32List_n l < 2 ^ 31 -> cap_ok (push_unique_sorted l v).
Proof.
  intros [Hn Hc] Hlt. unfold push_unique_sorted.
  destruct (_ && _); [split; assumption|].
  unfold cap_ok, U32List_n, zlen in *. simpl. rewrite length_app. simpl.
  destruct (Z.eqb_spec (Z.of_nat (length (U32List_a l))) (U32List_cap l)) as [He|Hne].
  - destruct Hc as [H0|(k & Hk & Hc)].
    + rewrite H0. simpl. split; [lia|]. right. exists 3. split; [lia|reflexivity].
    + destruct (Z.eqb_spec (U32List_cap l) 0) as [H0|_]; [lia|].
      assert (k <= 30).
      { destruct (Z.le_gt_cases k 30); [assumption|].
        assert (k = 31) by lia. subst k. lia. }
      unfold wrap32. rewrite Hc.
      replace (2 ^ k * 2) with (2 ^ (k + 1)) by (rewrite Z.pow_add_r; lia).
      assert (2 ^ (k + 1) <= 2 ^ 31) by (apply Z.pow_le_mono_r; lia).
      assert (0 < 2 ^ (k + 1)) by (apply Z.pow_pos_nonneg; lia).
      rewrite Z.mod_small by lia.
      split.
      * rewrite Z.pow_add_r by lia. lia.
      * right. exists (k + 1). split; [lia|reflexivity].
  - split; [lia|exact Hc].
Qed.




End PushUniqueSorted.

(** ** The vector of the combinators *)

Section Vectors.
Import SearchCli.

Lemma wrap32_small x : 0 <= x < 2 ^ 32 -> wrap32 x = x.
Proof. intros H. unfold wrap32. now apply Z.mod_small. Qed.

(** *** [reserve] ends exactly when the request is at most [2^31] *)

Lemma reserve_loop_zero need : 0 < need ->
  forall fuel, reserve_loop fuel 0 need = None.
Proof.
  intros Hn. induction fuel as [|fuel IH]; [reflexivity|].
  simpl. destruct (Z.ltb_spec 0 need); [|lia]. exact IH.
Qed.

Lemma wrap32_double_divide m nc :
  0 <= m < 32 -> (2 ^ m | nc) -> (2 ^ (m + 1) | wrap32 (nc * 2)).
Proof.
  intros Hm [q Hq]. unfold wrap32.
  assert (H32 : 2 ^ 32 = 2 ^ (m + 1) * 2 ^ (31 - m)).
  { rewrite <- Z.pow_add_r by lia. f_equal. lia. }
  rewrite Z.mod_eq by lia.
  apply Z.divide_sub_r.
  - exists q. rewrite Hq, Z.pow_add_r by lia. lia.
  - rewrite H32 at 1. rewrite <- Z.mul_assoc. apply Z.divide_factor_l.
Qed.

(** More than 33 tests change nothing: after 32 doublings the value is 0. *)
Lemma reserve_loop_fuel need : 0 < need ->
  forall (j : nat) m fuel1 fuel2 nc,
  m + Z.of_nat j = 32 -> 0 <= m -> (j < fuel1)%nat -> (j < fuel2)%nat ->
  (2 ^ m | nc) -> 0 <= nc < 2 ^ 32 ->
  reserve_loop fuel1 nc need = reserve_loop fuel2 nc need.
Proof.
  intros Hn. induction j as [|j IH]; intros m fuel1 fuel2 nc Hm Hm0 Hf1 Hf2 Hd Hnc.
  - assert (m = 32) by lia. subst m. destruct Hd as [q Hq].
    assert (Hz : nc = 0) by nia. rewrite Hz.
    now rewrite !reserve_loop_zero.
  - destruct fuel1 as [|fuel1]; [lia|]. destruct fuel2 as [|fuel2]; [lia|].
    simpl. destruct (nc <? need); [|reflexivity].
    apply (IH (m + 1)); try lia.
    + apply wrap32_double_divide; [lia|exact Hd].
    + unfold wrap32. apply Z.mod_pos_bound. lia.
Qed.

Lemma reserve_loop_33 fuel nc need :
  0 < need -> 0 <= nc < 2 ^ 32 -> (33 <= fuel)%nat ->
  reserve_loop fuel nc need = reserve_loop 33 nc need.
Proof.
  intros Hn Hnc Hf.
  apply (reserve_loop_fuel need Hn 32 0); try lia.
  exists nc. simpl. lia.
Qed.

Lemma reserve_loop_pow need : need <= 2 ^ 31 ->
  forall (j : nat) k fuel,
  3 <= k -> k + Z.of_nat j = 31 -> (j < fuel)%nat ->
  exists k', k <= k' <= 31 /\ reserve_loop fuel (2 ^ k) need = Some (2 ^ k') /\
             need <= 2 ^ k'.
Proof.
  intros Hn. induction j as [|j IH]; intros k fuel Hk Hkj Hf;
    (destruct fuel as [|fuel]; [lia|]); simpl.
  - assert (k = 31) by lia. subst k.
    destruct (Z.ltb_spec (2 ^ 31) need); [lia|].
    exists 31. split; [lia|]. split; [reflexivity|lia].
  - destruct (Z.ltb_spec (2 ^ k) need).
    + assert (Hd : wrap32 (2 ^ k * 2) = 2 ^ (k + 1)).
      { replace (2 ^ k * 2) with (2 ^ (k + 1)) by (rewrite Z.pow_add_r; lia).
        apply wrap32_small. split; [apply Z.pow_nonneg; lia|].
        apply Z.pow_lt_mono_r; lia. }
      rewrite Hd.
      destruct (IH (k + 1) fuel) as (k' & Hk' & He & Hle); try lia.
      exists k'. split; [lia|]. split; [exact He|exact Hle].
    + exists k. split; [lia|]. split; [reflexivity|lia].
Qed.

Lemma U32Vec_reserve_ok (o : U32Vec) (need : Z) :
  cap_shape (vec_cap o) -> need <= 2 ^ 31 ->
  exists o', U32Vec_reserve o need = Some o' /\ vec_a o' = vec_a o /\
    need <= vec_cap o' /\ vec_cap o <= vec_cap o' /\ cap_shape (vec_cap o').
Proof.
  intros Hc Hn. unfold U32Vec_reserve.
  destruct (Z.leb_spec need (vec_cap o)).
  - exists o. repeat split; auto; lia.
  - assert (Hstart : exists k, 3 <= k <= 31 /\
              (if vec_cap o =? 0 then 8 else vec_cap o) = 2 ^ k /\
              vec_cap o <= 2 ^ k).
    { destruct Hc as [->|(k & Hk & ->)].
      - exists 3. simpl. split; [lia|]. split; [reflexivity|lia].
      - exists k. split; [exact Hk|].
        assert (0 < 2 ^ k) by (apply Z.pow_pos_nonneg; lia).
        destruct (Z.eqb_spec (2 ^ k) 0); [lia|]. split; [reflexivity|lia]. }
    destruct Hstart as (k & Hk & -> & Hle).
    destruct (reserve_loop_pow need Hn (Z.to_nat (31 - k)) k 33%nat) as (k' & Hk' & -> & Hle');
      try lia.
    simpl. eexists. split; [reflexivity|]. simpl.
    assert (2 ^ k <= 2 ^ k') by (apply Z.pow_le_mono_r; lia).
    split; [reflexivity|]. split; [exact Hle'|]. split; [lia|].
    right. exists k'. split; [lia|reflexivity].
Qed.

(** A request above [2^31] is never met. *)
Lemma U32Vec_reserve_never (o : U32Vec) (need : Z) :
  cap_shape (vec_cap o) -> 2 ^ 31 < need -> U32Vec_reserve o need = None.
Proof.
  intros Hc Hn. unfold U32Vec_reserve.
  assert (Hle : vec_cap o <= 2 ^ 31).
  { destruct Hc as [->|(k & Hk & ->)]; [lia|]. apply Z.pow_le_mono_r; lia. }
  destruct (Z.leb_spec need (vec_cap o)); [lia|].
  assert (Hloop : forall (j : nat) k fuel, 3 <= k -> k + Z.of_nat j = 32 ->
            reserve_loop fuel (wrap32 (2 ^ k)) need = None).
  { induction j as [|j IH]; intros k fuel Hk Hkj.
    - assert (k = 32) by lia. subst k.
      change (wrap32 (2 ^ 32)) with 0. apply reserve_loop_zero. lia.
    - destruct fuel as [|fuel]; [reflexivity|]. simpl.
      assert (Hs : wrap32 (2 ^ k) = 2 ^ k).
      { apply wrap32_small. split; [apply Z.pow_nonneg; lia|].
        apply Z.pow_lt_mono_r; lia. }
      rewrite Hs.
      assert (2 ^ k <= 2 ^ 31) by (apply Z.pow_le_mono_r; lia).
      destruct (Z.ltb_spec (2 ^ k) need); [|lia].
      replace (2 ^ k * 2) with (2 ^ (k + 1)) by (rewrite Z.pow_add_r; lia).
      apply IH; lia. }
  assert (Hstart : exists k, 3 <= k <= 31 /\
            (if vec_cap o =? 0 then 8 else vec_cap o) = wrap32 (2 ^ k)).
  { destruct Hc as [->|(k & Hk & ->)].
    - exists 3. split; [lia|reflexivity].
    - exists k. split; [exact Hk|].
      assert (0 < 2 ^ k) by (apply Z.pow_pos_nonneg; lia).
      destruct (Z.eqb_spec (2 ^ k) 0); [lia|]. symmetry. apply wrap32_small.
      split; [lia|]. apply Z.pow_lt_mono_r; lia. }
  destruct Hstart as (k & Hk & ->).
  rewrite (Hloop (Z.to_nat (32 - k)) k 33%nat) by lia. reflexivity.
Qed.

(** *** Pushes stay inside the buffer up to [2^31] values *)

Lemma U32Vec_push_ok (o : U32Vec) (v : Z) :
  vec_ok o -> vec_n o < 2 ^ 31 ->
  exists o', U32Vec_push o v = Some o' /\ vec_a o' = vec_a o ++ [v] /\ vec_ok o'.
Proof.
  intros [Hn Hc] Hlt. unfold U32Vec_push.
  assert (Hstep : exists o1,
            (if vec_n o =? vec_cap o
             then U32Vec_reserve o (if vec_cap o =? 0 then 8
                                    else wrap32 (vec_cap o * 2))
             else Some o) = Some o1 /\
            vec_a o1 = vec_a o /\ vec_n o < vec_cap o1 /\ cap_shape (vec_cap o1)).
  { destruct (Z.eqb_spec (vec_n o) (vec_cap o)) as [He|Hne].
    - assert (Hneed : exists need, (if vec_cap o =? 0 then 8
                                    else wrap32 (vec_cap o * 2)) = need /\
                        vec_cap o < need <= 2 ^ 31).
      { destruct Hc as [H0|(k & Hk & Hck)].
        - rewrite H0. exists 8. simpl. lia.
        - assert (0 < 2 ^ k) by (apply Z.pow_pos_nonneg; lia).
          destruct (Z.eqb_spec (vec_cap o) 0); [lia|].
          assert (k <= 30).
          { destruct (Z.le_gt_cases k 30); [assumption|].
            assert (k = 31) by lia. subst k. lia. }
          exists (2 ^ (k + 1)). rewrite Hck.
          replace (2 ^ k * 2) with (2 ^ (k + 1)) by (rewrite Z.pow_add_r; lia).
          assert (2 ^ (k + 1) <= 2 ^ 31) by (apply Z.pow_le_mono_r; lia).
          assert (2 ^ k < 2 ^ (k + 1)) by (apply Z.pow_lt_mono_r; lia).
          split; [apply wrap32_small; lia|lia]. }
      destruct Hneed as (need & -> & Hneed).
      destruct (U32Vec_reserve_ok o need Hc) as (o1 & -> & Ha & Hle & _ & Hs); [lia|].
      exists o1. split; [reflexivity|]. split; [exact Ha|]. split; [lia|exact Hs].
    - exists o. split; [reflexivity|]. split; [reflexivity|]. split; [lia|exact Hc]. }
  destruct Hstep as (o1 & -> & Ha & Hlt1 & Hs). simpl.
  unfold vec_n in *. rewrite Ha.
  destruct (Z.ltb_spec (zlen (vec_a o)) (vec_cap o1)); [|lia].
  eexists. split; [reflexivity|]. simpl. split; [reflexivity|].
  split; [|exact Hs]. unfold vec_n, zlen in *. simpl. rewrite length_app. simpl. lia.
Qed.

Lemma push_all_ok (vs : list Z) : forall o,
  vec_ok o -> vec_n o + zlen vs <= 2 ^ 31 ->
  exists o', push_all o vs = Some o' /\ vec_a o' = vec_a o ++ vs /\ vec_ok o'.
Proof.
  induction vs as [|v vs IH]; intros o Hok Hn.
  - exists o. simpl. rewrite app_nil_r. auto.
  - unfold zlen in Hn. simpl length in Hn.
    destruct (U32Vec_push_ok o v Hok) as (o1 & He & Ha & Hok1); [lia|].
    destruct (IH o1 Hok1) as (o' & He' & Ha' & Hok').
    { unfold vec_n, zlen in *. rewrite Ha, length_app. simpl. lia. }
    exists o'. simpl. rewrite He. simpl. split; [exact He'|].
    split; [|exact Hok']. rewrite Ha', Ha, <- app_assoc. reflexivity.
Qed.

(** A vector with a valid capacity that reserves [need <= 2^31] cells and
    then receives at most [2^31] values returns with these values. *)
Lemma fill_returns (out : U32Vec) (need : Z) (vs : list Z) :
  cap_shape (vec_cap out) -> need <= 2 ^ 31 -> zlen vs <= 2 ^ 31 ->
  returns (o ← U32Vec_reserve (U32Vec_clear out) need; push_all o vs) vs.
Proof.
  intros Hc Hn Hvs.
  destruct (U32Vec_reserve_ok (U32Vec_clear out) need Hc Hn)
    as (o & -> & Ha & Hle & Hge & Hs).
  simpl in Ha, Hge. simpl.
  assert (Hcap0 : 0 <= vec_cap out).
  { destruct Hc as [->|(k & Hk & ->)]; [lia|]. apply Z.pow_nonneg. lia. }
  destruct (push_all_ok vs o) as (o' & -> & Ha' & Hok').
  - split; [|exact Hs]. unfold vec_n, zlen. rewrite Ha. simpl. lia.
  - unfold vec_n, zlen in *. rewrite Ha. simpl. lia.
  - exists o'. split; [reflexivity|]. split; [|exact Hok']. now rewrite Ha', Ha.
Qed.

End Vectors.

(** ** op_and, op_or, op_not *)

Section Combinators.
Import SearchCli.

(** Strictly ascending lists are determined by their elements. *)
Lemma ascending_ext (l1 : list Z) : forall l2,
  ascending l1 -> ascending l2 -> (forall v, v ∈ l1 <-> v ∈ l2) -> l1 = l2.
Proof.
  induction l1 as [|x l1 IH]; intros [|y l2] H1 H2 Hm.
  - reflexivity.
  - exfalso. eapply not_elem_of_nil. apply Hm. left.
  - exfalso. eapply not_elem_of_nil. apply Hm. left.
  - pose proof (ascending_forall_lt _ _ H1) as F1.
    pose proof (ascending_forall_lt _ _ H2) as F2.
    rewrite Forall_forall in F1, F2.
    assert (x = y) as ->.
    { assert (Hx : x ∈ y :: l2) by (apply Hm; left).
      assert (Hy : y ∈ x :: l1) by (apply Hm; left).
      apply elem_of_cons in Hx as [?|Hx]; [assumption|].
      apply elem_of_cons in Hy as [?|Hy]; [congruence|].
      specialize (F1 _ Hy). specialize (F2 _ Hx). lia. }
    f_equal. apply IH; [now inversion H1|now inversion H2|].
    intros v. specialize (Hm v). rewrite !elem_of_cons in Hm.
    split; intros Hv.
    + destruct (proj1 Hm (or_intror Hv)) as [->|?]; [|assumption].
      specialize (F1 _ Hv). lia.
    + destruct (proj2 Hm (or_intror Hv)) as [->|?]; [|assumption].
      specialize (F2 _ Hv). lia.
Qed.

Lemma op_and_elem_of a : forall b v,
  ascending a -> ascending b -> (v ∈ op_and a b <-> v ∈ a /\ v ∈ b).
Proof.
  induction a as [|x a IHa]; intros b.
  - destruct b; intros v _ _; simpl; rewrite !elem_of_nil; tauto.
  - induction b as [|y b IHb]; intros v Ha Hb.
    + simpl. rewrite !elem_of_nil. tauto.
    + pose proof (ascending_forall_lt _ _ Ha) as Fa.
      pose proof (ascending_forall_lt _ _ Hb) as Fb.
      rewrite Forall_forall in Fa, Fb.
      pose proof (ascending_tail _ _ Ha) as Ha'.
      pose proof (ascending_tail _ _ Hb) as Hb'.
      simpl. destruct (Z.eqb_spec x y) as [->|Hne].
      * rewrite !elem_of_cons, IHa by assumption.
        split; [tauto|]. intros [[->|Hva] [?|Hvb]]; tauto.
      * destruct (Z.ltb_spec x y) as [Hlt|Hge].
        -- rewrite IHa, !elem_of_cons by assumption.
           split; [tauto|]. intros [[->|Hva] Hv]; [|tauto].
           exfalso. destruct Hv as [?|Hvb]; [lia|].
           specialize (Fb _ Hvb). lia.
        -- specialize (IHb v Ha Hb'). simpl in IHb.
           rewrite IHb, !elem_of_cons.
           split; [tauto|]. intros [Hv [->|Hvb]]; [|tauto].
           exfalso. destruct Hv as [?|Hva]; [lia|].
           specialize (Fa _ Hva). lia.
Qed.

Lemma op_or_elem_of a : forall b v, v ∈ op_or a b <-> v ∈ a \/ v ∈ b.
Proof.
  induction a as [|x a IHa]; intros b.
  - destruct b; intros v; simpl; rewrite !elem_of_nil; tauto.
  - induction b as [|y b IHb]; intros v.
    + simpl. rewrite !elem_of_nil. tauto.
    + simpl. destruct (Z.eqb_spec x y) as [->|Hne].
      * rewrite !elem_of_cons, IHa. tauto.
      * destruct (x <? y).
        -- rewrite !elem_of_cons, IHa, elem_of_cons. tauto.
        -- specialize (IHb v). simpl in IHb.
           rewrite !elem_of_cons, IHb, elem_of_cons. tauto.
Qed.

Lemma op_and_ascending a : forall b,
  ascending a -> ascending b -> ascending (op_and a b).
Proof.
  induction a as [|x a IHa]; intros b.
  - destruct b; intros; constructor.
  - induction b as [|y b IHb]; intros Ha Hb; [constructor|].
    pose proof (ascending_tail _ _ Ha) as Ha'.
    pose proof (ascending_tail _ _ Hb) as Hb'.
    simpl. destruct (Z.eqb_spec x y) as [->|Hne].
    + apply ascending_cons; [now apply IHa|].
      pose proof (ascending_forall_lt _ _ Ha) as Fa.
      rewrite Forall_forall in Fa |- *. intros v Hv.
      apply op_and_elem_of in Hv; [|assumption..]. apply Fa. tauto.
    + destruct (x <? y); [now apply IHa|].
      specialize (IHb Ha Hb'). exact IHb.
Qed.

Lemma op_or_ascending a : forall b,
  ascending a -> ascending b -> ascending (op_or a b).
Proof.
  induction a as [|x a IHa]; intros b.
  - destruct b; intros; assumption.
  - induction b as [|y b IHb]; intros Ha Hb; [assumption|].
    pose proof (ascending_tail _ _ Ha) as Ha'.
    pose proof (ascending_tail _ _ Hb) as Hb'.
    pose proof (ascending_forall_lt _ _ Ha) as Fa.
    pose proof (ascending_forall_lt _ _ Hb) as Fb.
    rewrite Forall_forall in Fa, Fb.
    simpl. destruct (Z.eqb_spec x y) as [->|Hne].
    + apply ascending_cons; [now apply IHa|].
      rewrite Forall_forall. intros v Hv.
      apply op_or_elem_of in Hv as [Hv|Hv]; [now apply Fa|now apply Fb].
    + destruct (Z.ltb_spec x y) as [Hlt|Hge].
      * apply ascending_cons; [now apply IHa|].
        rewrite Forall_forall. intros v Hv.
        apply op_or_elem_of in Hv as [Hv|Hv]; [now apply Fa|].
        apply elem_of_cons in Hv as [->|Hv]; [assumption|].
        specialize (Fb _ Hv). lia.
      * specialize (IHb Ha Hb').
        apply ascending_cons; [exact IHb|].
        rewrite Forall_forall. intros v Hv.
        pose proof (op_or_elem_of (x :: a) b v) as Hm. simpl in Hm.
        apply Hm in Hv as [Hv|Hv]; [|now apply Fb].
        apply elem_of_cons in Hv as [->|Hv]; [lia|].
        specialize (Fa _ Hv). lia.
Qed.

Lemma skip_below_ascending d a : ascending a -> ascending (skip_below d a).
Proof.
  induction a as [|x a IH]; intros Ha; simpl; [constructor|].
  destruct (x <? d); [apply IH; now inversion Ha|exact Ha].
Qed.

Lemma skip_below_elem_of d a v :
  ascending a -> (v ∈ skip_below d a <-> v ∈ a /\ d <= v).
Proof.
  induction a as [|x a IH]; intros Ha; simpl.
  - rewrite elem_of_nil. tauto.
  - pose proof (ascending_forall_lt _ _ Ha) as Fa. rewrite Forall_forall in Fa.
    destruct (Z.ltb_spec x d) as [Hlt|Hge].
    + rewrite IH, elem_of_cons by (now inversion Ha). split; [tauto|].
      intros [[->|Hv] Hd]; [lia|tauto].
    + rewrite elem_of_cons. split; [|tauto].
      intros [->|Hv]; [split; [now left|lia]|].
      split; [now right|]. specialize (Fa _ Hv). lia.
Qed.

Lemma op_not_loop_elem_of todo : forall d a v,
  ascending a ->
  (v ∈ op_not_loop todo d a <-> (d <= v < d + Z.of_nat todo) /\ v ∉ a).
Proof.
  induction todo as [|todo IH]; intros d a v Ha.
  - simpl. rewrite elem_of_nil. lia.
  - pose proof (skip_below_ascending d a Ha) as Ha1.
    pose proof (fun u => skip_below_elem_of d a u Ha) as Hm.
    cbn [op_not_loop]. cbv zeta.
    assert (Hstep : forall u, d + 1 <= u -> (u ∉ skip_below d a <-> u ∉ a)).
    { intros u Hu. rewrite Hm. split; intros Hn Hin; apply Hn; [split; [assumption|lia]|tauto]. }
    destruct (skip_below d a) as [|x a1] eqn:Ha1e.
    + rewrite elem_of_cons, IH by assumption.
      assert (Hd : d ∉ a).
      { intros Hin. eapply not_elem_of_nil. apply Hm. split; [exact Hin|lia]. }
      split.
      * intros [->|[Hr Hn]]; [split; [lia|exact Hd]|].
        split; [lia|]. apply Hstep; [lia|exact Hn].
      * intros [Hr Hn]. destruct (Z.eq_dec v d) as [->|Hne]; [now left|].
        right. split; [lia|]. apply Hstep; [lia|exact Hn].
    + assert (Hx : d <= x) by (apply (Hm x); left).
      destruct (Z.eqb_spec x d) as [->|Hne].
      * rewrite IH by assumption.
        assert (Hd : d ∈ a) by (apply (Hm d); left).
        split.
        -- intros [Hr Hn]. split; [lia|]. apply Hstep; [lia|exact Hn].
        -- intros [Hr Hn]. assert (v <> d) by (intros ->; tauto).
           split; [lia|]. apply Hstep; [lia|exact Hn].
      * rewrite elem_of_cons, IH by assumption.
        assert (Hd : d ∉ a).
        { intros Hin. assert (Hin1 : d ∈ x :: a1) by (apply Hm; split; [exact Hin|lia]).
          apply elem_of_cons in Hin1 as [?|Hin1]; [congruence|].
          pose proof (ascending_forall_lt _ _ Ha1) as F. rewrite Forall_forall in F.
          specialize (F _ Hin1). lia. }
        split.
        -- intros [->|[Hr Hn]]; [split; [lia|exact Hd]|].
           split; [lia|]. apply Hstep; [lia|exact Hn].
        -- intros [Hr Hn]. destruct (Z.eq_dec v d) as [->|Hne']; [now left|].
           right. split; [lia|]. apply Hstep; [lia|exact Hn].
Qed.

Lemma op_not_loop_ascending todo : forall d a,
  ascending a -> ascending (op_not_loop todo d a).
Proof.
  induction todo as [|todo IH]; intros d a Ha; [constructor|].
  pose proof (skip_below_ascending d a Ha) as Ha1.
  assert (Hc : ascending (d :: op_not_loop todo (d + 1) (skip_below d a))).
  { apply ascending_cons; [now apply IH|].
    rewrite Forall_forall. intros v Hv.
    apply op_not_loop_elem_of in Hv; [lia|assumption]. }
  cbn [op_not_loop]. cbv zeta.
  destruct (skip_below d a) as [|x a1]; [exact Hc|].
  destruct (x =? d); [now apply IH|exact Hc].
Qed.

Lemma op_not_elem_of doc_count a v :
  ascending a -> (v ∈ op_not doc_count a <-> 0 <= v < doc_count /\ v ∉ a).
Proof.
  intros Ha. unfold op_not. rewrite op_not_loop_elem_of by assumption.
  destruct (Z.le_gt_cases 0 doc_count).
  - rewrite Z2Nat.id by assumption. tauto.
  - rewrite Z2Nat.nonpos by lia. lia.
Qed.

Lemma op_not_ascending doc_count a : ascending a -> ascending (op_not doc_count a).
Proof. apply op_not_loop_ascending. Qed.


(** *** How many values the loops push *)

Lemma op_and_length a : forall b,
  zlen (op_and a b) <= zlen a /\ zlen (op_and a b) <= zlen b.
Proof.
  unfold zlen. induction a as [|x a IHa]; intros b.
  - destruct b; simpl; lia.
  - induction b as [|y b IHb].
    + simpl. lia.
    + simpl op_and. destruct (x =? y).
      * specialize (IHa b). simpl. lia.
      * destruct (x <? y).
        -- specialize (IHa (y :: b)). simpl in *. lia.
        -- simpl in *. lia.
Qed.

Lemma op_and_or_length a : forall b,
  zlen (op_and a b) + zlen (op_or a b) = zlen a + zlen b.
Proof.
  unfold zlen. induction a as [|x a IHa]; intros b.
  - destruct b; simpl; lia.
  - induction b as [|y b IHb].
    + simpl. lia.
    + simpl op_and. simpl op_or. destruct (x =? y).
      * specialize (IHa b). simpl. lia.
      * destruct (x <? y).
        -- specialize (IHa (y :: b)). simpl in *. lia.
        -- simpl in *. lia.
Qed.

Lemma op_not_loop_length todo : forall d a,
  zlen (op_not_loop todo d a) <= Z.of_nat todo.
Proof.
  unfold zlen. induction todo as [|todo IH]; intros d a.
  - simpl. lia.
  - simpl op_not_loop.
    pose proof (IH (d + 1) (skip_below d a)) as Hl.
    destruct (skip_below d a) as [|x a1] eqn:E.
    + simpl length. lia.
    + destruct (x =? d); simpl length; lia.
Qed.

Lemma op_not_length doc_count a :
  0 <= doc_count -> zlen (op_not doc_count a) <= doc_count.
Proof.
  intros H. unfold op_not.
  pose proof (op_not_loop_length (Z.to_nat doc_count) 0 a). lia.
Qed.



(** The three combinators return, with the pushed values in the vector, as
    long as no more than [2^31] cells are asked for. *)
Lemma op_and_v_returns a b out :
  cap_shape (vec_cap out) -> zlen a <= 2 ^ 31 \/ zlen b <= 2 ^ 31 ->
  returns (op_and_v a b out) (op_and a b).
Proof.
  intros Hc Hn. unfold op_and_v.
  pose proof (op_and_length a b) as [Hla Hlb].
  apply fill_returns; [exact Hc| |lia].
  destruct (zlen a <? zlen b) eqn:E; [apply Z.ltb_lt in E|apply Z.ltb_ge in E]; lia.
Qed.

Lemma op_or_v_returns a b out :
  cap_shape (vec_cap out) -> zlen a + zlen b <= 2 ^ 31 ->
  returns (op_or_v a b out) (op_or a b).
Proof.
  intros Hc Hn. unfold op_or_v.
  pose proof (op_and_or_length a b) as Hl.
  assert (0 <= zlen (op_and a b)) by (unfold zlen; lia).
  assert (0 <= zlen a /\ 0 <= zlen b) as [? ?] by (unfold zlen; lia).
  rewrite wrap32_small by lia.
  apply fill_returns; [exact Hc|lia|lia].
Qed.

Lemma op_not_v_returns doc_count a out :
  cap_shape (vec_cap out) -> doc_count <= 2 ^ 31 ->
  returns (op_not_v doc_count a out) (op_not doc_count a).
Proof.
  intros Hc Hn. unfold op_not_v.
  apply fill_returns; [exact Hc| |].
  - destruct (zlen a <? doc_count); [|lia].
    assert (0 <= zlen a) by (unfold zlen; lia). lia.
  - destruct (Z.le_gt_cases 0 doc_count).
    + pose proof (op_not_length doc_count a). lia.
    + unfold op_not. rewrite Z2Nat.nonpos by lia. simpl. unfold zlen. simpl. lia.
Qed.

(** Above [2^31] documents [op_not] of the empty array never returns: the
    request of [reserve] cannot be met by doubling a 32-bit capacity. *)
Lemma op_not_v_never doc_count out :
  cap_shape (vec_cap out) -> 2 ^ 31 < doc_count ->
  op_not_v doc_count [] out = None.
Proof.
  intros Hc Hn. unfold op_not_v.
  change (zlen (@nil Z)) with 0.
  destruct (Z.ltb_spec 0 doc_count); [|lia].
  rewrite U32Vec_reserve_never; [reflexivity|exact Hc|lia].
Qed.



End Combinators.

(** ** The stemmer never lengthens a word *)

Section StemLength.
Import Stemming.

Lemma shrinks_refl st : -1 <= k st -> shrinks st st.
Proof. unfold shrinks. lia. Qed.

Lemma shrinks_trans st1 st2 st3 : shrinks st1 st2 -> shrinks st2 st3 -> shrinks st1 st3.
Proof. unfold shrinks. lia. Qed.

Lemma poke_Some b i c :
  0 <= i < zlen b -> exists b', poke b i c = Some b' /\ zlen b' = zlen b.
Proof.
  intros Hi. unfold poke.
  replace ((0 <=? i) && (i <? zlen b)) with true.
  - eexists. split; [reflexivity|]. unfold zlen. now rewrite length_insert.
  - symmetry. apply andb_true_iff. split; [apply Z.leb_le|apply Z.ltb_lt]; lia.
Qed.

Lemma poke_all_Some s : forall b start,
  0 <= start -> start + zlen s <= zlen b ->
  exists b', poke_all b start s = Some b' /\ zlen b' = zlen b.
Proof.
  induction s as [|c s IH]; intros b start H0 Hle; simpl.
  - eauto.
  - unfold zlen in Hle. simpl length in Hle.
    destruct (poke_Some b start c) as (b1 & -> & Hl1); [unfold zlen; lia|].
    simpl. destruct (IH b1 (start + 1)) as (b2 & -> & Hl2); [lia|unfold zlen in *; lia|].
    exists b2. split; [reflexivity|congruence].
Qed.

Lemma cut_to_Some st k' :
  -1 <= k' -> k' + 1 < zlen (buf st) ->
  exists st', cut_to st k' = Some st' /\ k st' = k' /\ j st' = j st /\
              zlen (buf st') = zlen (buf st).
Proof.
  intros H1 H2. unfold cut_to.
  destruct (poke_Some (buf st) (k' + 1) 0) as (b' & -> & Hl); [lia|].
  simpl. eexists. split; [reflexivity|]. simpl. auto.
Qed.

Lemma set_to_Some st s :
  -1 <= j st -> j st + zlen s + 1 < zlen (buf st) ->
  exists st', set_to st s = Some st' /\ k st' = j st + zlen s /\
              zlen (buf st') = zlen (buf st).
Proof.
  intros H1 H2. unfold set_to.
  destruct (poke_all_Some s (buf st) (j st + 1)) as (b1 & -> & Hl1); [lia|lia|].
  simpl. destruct (poke_Some b1 (j st + 1 + zlen s - 1 + 1) 0) as (b2 & -> & Hl2).
  { assert (0 <= zlen s) by (unfold zlen; lia). lia. }
  simpl. eexists. split; [reflexivity|]. simpl. split; [lia|congruence].
Qed.

Lemma ends_with_len b k s : ends_with b k s = true -> zlen s <= k + 1.
Proof.
  unfold ends_with. destruct (Z.ltb_spec (k + 1) (zlen s)); [discriminate|lia].
Qed.

Lemma m_measure_neg b j : j < 0 -> m_measure b j = 0.
Proof. intros H. unfold m_measure. now replace (Z.to_nat (j + 1)) with O by lia. Qed.

Lemma m_measure_pos b j : 0 < m_measure b j -> 0 <= j.
Proof.
  intros H. destruct (Z.le_gt_cases 0 j); [assumption|].
  rewrite m_measure_neg in H; lia.
Qed.

Lemma vowel_in_stem_nonneg b j : vowel_in_stem b j = true -> 0 <= j.
Proof.
  unfold vowel_in_stem. intros H. destruct (Z.le_gt_cases 0 j); [assumption|].
  replace (Z.to_nat (j + 1)) with O in H by lia. discriminate.
Qed.

Lemma doublec_pos b j : doublec b j = true -> 1 <= j.
Proof. unfold doublec. destruct (Z.ltb_spec j 1); [discriminate|lia]. Qed.

(** Bookkeeping shared by the step lemmas: name the facts a successful
    test gives, run the store, and close the arithmetic. *)
Ltac test_facts :=
  repeat match goal with
  | H : ends_with _ _ (str _) = true |- _ =>
      apply ends_with_len in H; unfold zlen in H; simpl in H
  | H : ends_with _ _ _ = true |- _ => apply ends_with_len in H
  | H : vowel_in_stem _ _ = true |- _ => apply vowel_in_stem_nonneg in H
  | H : doublec _ _ = true |- _ => apply doublec_pos in H
  | H : (0 <? m_measure _ _) = true |- _ => apply Z.ltb_lt, m_measure_pos in H
  | H : (1 <? m_measure _ _) = true |- _ =>
      apply Z.ltb_lt in H;
      let H' := fresh in
      match type of H with 1 < m_measure ?b ?j =>
        assert (H' : 0 <= j) by (apply (m_measure_pos b); lia) end;
      clear H
  end.

Ltac keep st := exists st; split; [reflexivity|unfold shrinks; simpl; lia].

Ltac by_cut :=
  match goal with
  | |- context [cut_to ?st ?k'] =>
      let st' := fresh "st'" in
      let He := fresh in let Hk := fresh in let Hj := fresh in let Hl := fresh in
      destruct (cut_to_Some st k') as (st' & He & Hk & Hj & Hl);
      [simpl; lia|simpl; lia|];
      exists st'; split; [exact He|unfold shrinks; simpl in *; lia]
  end.

Ltac by_set :=
  match goal with
  | |- context [set_to ?st ?s] =>
      let st' := fresh "st'" in
      let He := fresh in let Hk := fresh in let Hl := fresh in
      destruct (set_to_Some st s) as (st' & He & Hk & Hl);
      [simpl; lia|unfold zlen; simpl; lia|];
      exists st'; split; [exact He|unfold shrinks, zlen in *; simpl in *; lia]
  end.

(** Step 1a may strip a whole one- or two-letter word; with three letters
    or more something is left. *)
Lemma step1a_shrinks st :
  -1 <= k st -> k st + 1 < zlen (buf st) ->
  exists st', step1a st = Some st' /\
    -1 <= k st' <= k st /\ (2 <= k st -> 0 <= k st') /\
    zlen (buf st') = zlen (buf st).
Proof.
  intros H1 H2. unfold step1a.
  repeat (match goal with |- context [if ?c then _ else _] => destruct c eqn:? end);
    test_facts; try (exists st; split; [reflexivity|lia]).
  all: match goal with
       | |- context [cut_to ?s0 ?k'] =>
           destruct (cut_to_Some s0 k') as (st' & -> & Hk & _ & Hl);
           [lia|lia|]; exists st'; split; [reflexivity|lia]
       end.
Qed.

Lemma step1b_shrinks st :
  -1 <= k st -> k st + 1 < zlen (buf st) ->
  exists st' flag, step1b st = Some (st', flag) /\ shrinks st st' /\
    (flag = true -> k st' <= k st - 2).
Proof.
  intros H1 H2. unfold step1b.
  assert (Hcut : forall st1 k' fl, -1 <= k' <= k st -> (0 <= k st -> 0 <= k') ->
            (fl = true -> k' <= k st - 2) ->
            zlen (buf st1) = zlen (buf st) ->
            exists st' flag, (st2 ← cut_to st1 k'; Some (st2, fl)) = Some (st', flag) /\
              shrinks st st' /\ (flag = true -> k st' <= k st - 2)).
  { intros st1 k' fl Hk Hk0 Hfl Hb.
    destruct (cut_to_Some st1 k') as (st' & -> & Hk' & _ & Hl); [lia|lia|].
    exists st', fl. simpl. split; [reflexivity|]. unfold shrinks. split; [lia|].
    intros ->. specialize (Hfl eq_refl). lia. }
  assert (Hno : forall st1, k st1 = k st -> buf st1 = buf st ->
            exists st' flag, Some (st1, false) = Some (st', flag) /\
              shrinks st st' /\ (flag = true -> k st' <= k st - 2)).
  { intros st1 Hk Hb. exists st1, false. split; [reflexivity|].
    unfold shrinks. rewrite Hk, Hb. split; [lia|discriminate]. }
  repeat (match goal with |- context [if ?c then _ else _] => destruct c eqn:? end);
    test_facts; simpl in *;
    first [ apply Hno; reflexivity
          | apply Hcut; simpl; (lia || discriminate || reflexivity) ].
Qed.

Lemma step1b_post_shrinks st :
  -1 <= k st -> k st + 2 < zlen (buf st) ->
  exists st', step1b_post st = Some st' /\
    k st' <= k st + 1 /\ (0 <= k st -> 0 <= k st') /\ -1 <= k st' /\
    zlen (buf st') = zlen (buf st).
Proof.
  intros H1 H2. unfold step1b_post.
  repeat (match goal with |- context [if ?c then _ else _] => destruct c eqn:? end);
    test_facts.
  all: try (exists st; split; [reflexivity|lia]).
  all: try (destruct (cut_to_Some st (k st - 1)) as (st' & -> & Hk & _ & Hl);
            [lia|lia|]; exists st'; split; [reflexivity|lia]).
  all: match goal with
       | |- context [set_to ?s0 ?s] =>
           destruct (set_to_Some s0 s) as (st' & -> & Hk & Hl);
           [simpl; lia|unfold zlen in *; simpl in *; lia|];
           exists st'; split; [reflexivity|];
           unfold zlen in *; simpl in *; lia
       end.
Qed.

Lemma step1c_shrinks st :
  -1 <= k st -> k st + 1 < zlen (buf st) ->
  exists st', step1c st = Some st' /\ shrinks st st'.
Proof.
  intros H1 H2. unfold step1c.
  repeat (match goal with |- context [if ?c then _ else _] => destruct c eqn:? end);
    test_facts; try (eexists; split; [reflexivity|unfold shrinks; simpl; lia]).
  simpl. destruct (poke_Some (buf st) (k st) (ch "i")) as (b' & -> & Hl); [lia|].
  simpl. eexists. split; [reflexivity|]. unfold shrinks. simpl. lia.
Qed.

Lemma step1ab_shrinks st :
  -1 <= k st -> k st + 1 < zlen (buf st) ->
  exists st', step1ab st = Some st' /\
    -1 <= k st' <= k st /\ (2 <= k st -> 0 <= k st') /\
    zlen (buf st') = zlen (buf st).
Proof.
  intros H1 H2. unfold step1ab.
  destruct (step1a_shrinks st H1 H2) as (st1 & -> & S1). simpl.
  destruct (step1b_shrinks st1) as (st2 & flag & -> & S2 & Hf); [lia..|]. simpl.
  unfold shrinks in S2.
  assert (exists st3, (if flag then step1b_post st2 else Some st2) = Some st3 /\
                      shrinks st1 st3) as (st3 & -> & S3).
  { destruct flag.
    - specialize (Hf eq_refl).
      destruct (step1b_post_shrinks st2) as (st3 & -> & ?); [lia..|].
      exists st3. split; [reflexivity|]. unfold shrinks. lia.
    - exists st2. split; [reflexivity|]. unfold shrinks. lia. }
  unfold shrinks in S3.
  simpl. destruct (step1c_shrinks st3) as (st4 & -> & S4); [lia..|].
  unfold shrinks in S4.
  exists st4. split; [reflexivity|]. lia.
Qed.

Lemma r_shrinks st (suf rep : list Z) :
  -1 <= k st -> k st + 1 < zlen (buf st) ->
  zlen suf <= k st + 1 -> zlen rep <= zlen suf ->
  exists st', r (with_j st (k st - zlen suf)) rep = Some st' /\ shrinks st st'.
Proof.
  intros H1 H2 Hs Hr. unfold r. simpl.
  destruct (0 <? m_measure (buf st) (k st - zlen suf)) eqn:Hm.
  - test_facts.
    destruct (set_to_Some (with_j st (k st - zlen suf)) rep) as (st' & -> & Hk & Hl);
      [simpl; lia|simpl; lia|].
    exists st'. split; [reflexivity|]. unfold shrinks. simpl in *.
    assert (0 <= zlen rep) by (unfold zlen; lia). lia.
  - eexists. split; [reflexivity|]. unfold shrinks. simpl. lia.
Qed.

Lemma apply_rules_shrinks rules : forall st,
  Forall (fun sr => zlen (snd sr) <= zlen (fst sr)) rules ->
  -1 <= k st -> k st + 1 < zlen (buf st) ->
  exists st', apply_rules rules st = Some st' /\ shrinks st st'.
Proof.
  induction rules as [|[suf rep] rules IH]; intros st Hr H1 H2; simpl.
  - exists st. split; [reflexivity|now apply shrinks_refl].
  - inversion Hr as [|? ? Hsr Hrest]; subst. simpl in Hsr.
    destruct (ends_with (buf st) (k st) suf) eqn:He.
    + apply ends_with_len in He. now apply r_shrinks.
    + now apply IH.
Qed.

Lemma step2_shrinks st :
  -1 <= k st -> k st + 1 < zlen (buf st) ->
  exists st', step2 st = Some st' /\ shrinks st st'.
Proof.
  apply apply_rules_shrinks. unfold step2_rules.
  repeat constructor; vm_compute; discriminate.
Qed.

Lemma step3_shrinks st :
  -1 <= k st -> k st + 1 < zlen (buf st) ->
  exists st', step3 st = Some st' /\ shrinks st st'.
Proof.
  apply apply_rules_shrinks. unfold step3_rules.
  repeat constructor; vm_compute; discriminate.
Qed.

Lemma step4_loop_shrinks sufs : forall st,
  -1 <= k st -> k st + 1 < zlen (buf st) ->
  exists st', step4_loop sufs st = Some st' /\ shrinks st st'.
Proof.
  induction sufs as [|suf sufs IH]; intros st H1 H2; simpl.
  - exists st. split; [reflexivity|now apply shrinks_refl].
  - destruct (ends_with (buf st) (k st) suf) eqn:He; [|now apply IH].
    apply ends_with_len in He.
    assert (0 <= zlen suf) by (unfold zlen; lia).
    assert (Hstrip : exists st',
      (if 1 <? m_measure (buf st) (k st - zlen suf)
       then cut_to (with_j st (k st - zlen suf)) (k st - zlen suf)
       else Some (with_j st (k st - zlen suf))) = Some st' /\ shrinks st st').
    { destruct (1 <? m_measure _ _) eqn:Hm.
      - test_facts.
        destruct (cut_to_Some (with_j st (k st - zlen suf)) (k st - zlen suf))
          as (st' & -> & Hk & _ & Hl); [lia|simpl; lia|].
        exists st'. split; [reflexivity|]. unfold shrinks. simpl in *. lia.
      - eexists. split; [reflexivity|]. unfold shrinks. simpl. lia. }
    assert (Hkeep : exists st', Some (with_j st (k st - zlen suf)) = Some st' /\
                                shrinks st st').
    { eexists. split; [reflexivity|]. unfold shrinks. simpl. lia. }
    simpl. repeat (match goal with |- context [if ?c then _ else _] =>
                     first [exact Hstrip | exact Hkeep | destruct c eqn:?] end);
      first [exact Hstrip | exact Hkeep].
Qed.

Lemma step4_shrinks st :
  -1 <= k st -> k st + 1 < zlen (buf st) ->
  exists st', step4 st = Some st' /\ shrinks st st'.
Proof. apply step4_loop_shrinks. Qed.

Lemma step5_shrinks st :
  -1 <= k st -> k st + 1 < zlen (buf st) ->
  exists st', step5 st = Some st' /\ shrinks st st'.
Proof.
  intros H1 H2. unfold step5.
  assert (exists st1, step5a st = Some st1 /\ shrinks st st1) as (st1 & -> & S1).
  { unfold step5a.
    destruct (ends_with (buf st) (k st) (str "e")) eqn:He; [|keep st].
    test_facts. simpl.
    set (m := m_measure (buf st) (k st - 1)).
    destruct ((1 <? m) || ((m =? 1) && negb (cvc (buf st) (k st - 1)))) eqn:Hc.
    - assert (0 < m).
      { apply orb_true_iff in Hc as [Hc|Hc]; [apply Z.ltb_lt in Hc; lia|].
        apply andb_true_iff in Hc as [Hc _]. apply Z.eqb_eq in Hc. lia. }
      assert (0 <= k st - 1) by (apply (m_measure_pos (buf st)); assumption).
      destruct (cut_to_Some (with_j st (k st - 1)) (k st - 1))
        as (st' & -> & Hk & _ & Hl); [lia|simpl; lia|].
      exists st'. split; [reflexivity|]. unfold shrinks. simpl in *. lia.
    - eexists. split; [reflexivity|]. unfold shrinks. simpl. lia. }
  simpl. unfold step5b.
  destruct (_ && _) eqn:Hc.
  - apply andb_true_iff in Hc as [Hc _]. apply andb_true_iff in Hc as [_ Hd].
    apply doublec_pos in Hd.
    destruct (cut_to_Some st1 (k st1 - 1)) as (st' & -> & Hk & _ & Hl);
      [lia|unfold shrinks in S1; lia|].
    exists st'. split; [reflexivity|]. unfold shrinks in *. lia.
  - exists st1. split; [reflexivity|exact S1].
Qed.

(** The stem of a word that fits its buffer: it is returned, it is not
    longer than the word, and it is empty only if the word is. *)
Lemma porter_stem_inplace_bounds (b : list Z) (n : Z) :
  0 <= n < zlen b ->
  exists b' n', porter_stem_inplace b n = Some (b', n') /\
    0 <= n' <= n /\ (1 <= n -> 1 <= n') /\ zlen b' = zlen b.
Proof.
  intros Hn. unfold porter_stem_inplace.
  destruct (Z.leb_spec n 2).
  { destruct (poke_Some b n 0) as (b' & -> & Hl); [lia|].
    exists b', n. simpl. split; [reflexivity|]. lia. }
  destruct (negb (has_letter b n)).
  { destruct (poke_Some b n 0) as (b' & -> & Hl); [lia|].
    exists b', n. simpl. split; [reflexivity|]. lia. }
  destruct (step1ab_shrinks (mkStem b (n - 1) 0)) as (st1 & -> & S1); [simpl; lia..|].
  simpl in S1. simpl.
  destruct (step2_shrinks st1) as (st2 & -> & S2); [lia..|]. unfold shrinks in S2. simpl.
  destruct (step3_shrinks st2) as (st3 & -> & S3); [lia..|]. unfold shrinks in S3. simpl.
  destruct (step4_shrinks st3) as (st4 & -> & S4); [lia..|]. unfold shrinks in S4. simpl.
  destruct (step5_shrinks st4) as (st5 & -> & S5); [lia..|]. unfold shrinks in S5. simpl.
  destruct (Z.ltb_spec (k st5 + 1) 0); [lia|].
  destruct (poke_Some (buf st5) (k st5 + 1) 0) as (b' & -> & Hl); [lia|].
  simpl. exists b', (k st5 + 1). split; [reflexivity|]. lia.
Qed.

(** C9. [stem_word_en] on a word of length [n] held in a larger buffer
    returns a length of at most [n] and keeps every store inside the
    buffer; with a 256-byte buffer this covers every token of at most 255
    bytes. *)
Theorem stem_word_en_never_lengthens (w : list Z) (n : Z) :
  0 <= n < zlen w ->
  exists w' n', stem_word_en w n = Some (w', n') /\ 0 <= n' <= n /\
                zlen w' = zlen w.
Proof.
  intros Hn. destruct (porter_stem_inplace_bounds w n Hn) as (w' & n' & He & Hb & _ & Hl).
  exists w', n'. auto.
Qed.

Lemma stem_word_en_never_lengthens_witness :
  exists w' n',
    stem_word_en (str "conflated" ++ replicate 247 0) 9 = Some (w', n') /\
    0 <= n' <= 9 /\ zlen w' = zlen (str "conflated" ++ replicate 247 0).
Proof.
  apply stem_word_en_never_lengthens.
  vm_compute. split; [discriminate|reflexivity].
Defined.

Example stem_conflated :
  stem_word_en (str "conflated" ++ replicate 247 0) 9
  = Some (str "conflat" ++ replicate 249 0, 7).
Proof. vm_compute. reflexivity. Qed.

End StemLength.

(** ** Index::find_term *)

Section FindTerm.
Import SearchCli.

Lemma memcmp_take_l n : forall kk a b,
  (n <= kk)%nat -> memcmp (take kk a) b n = memcmp a b n.
Proof.
  induction n as [|n IH]; intros kk a b Hk; [reflexivity|].
  destruct kk as [|kk]; [lia|].
  destruct a as [|x a]; [reflexivity|].
  simpl. rewrite IH by lia. reflexivity.
Qed.

Lemma memcmp_take_r n : forall kk a b,
  (n <= kk)%nat -> memcmp a (take kk b) n = memcmp a b n.
Proof.
  induction n as [|n IH]; intros kk a b Hk; [reflexivity|].
  destruct kk as [|kk]; [lia|].
  destruct b as [|y b]; [reflexivity|].
  simpl. rewrite IH by lia. reflexivity.
Qed.

Lemma StronglySorted_lookup_lt {A} (R : A -> A -> Prop) (l : list A) :
  StronglySorted R l ->
  forall i1 i2 x y, l !! i1 = Some x -> l !! i2 = Some y -> (i1 < i2)%nat -> R x y.
Proof.
  induction 1 as [|a l Hs IH Hf]; intros i1 i2 x y H1 H2 Hlt.
  - discriminate.
  - destruct i2 as [|i2]; [lia|]. simpl in H2.
    destruct i1 as [|i1]; simpl in H1.
    + injection H1 as <-. rewrite Forall_forall in Hf. apply Hf.
      eapply list_elem_of_lookup_2. exact H2.
    + eapply IH; [exact H1|exact H2|lia].
Qed.

Lemma term_cmp_nil_nil : term_cmp [] [] = 0.
Proof. reflexivity. Qed.

Lemma term_cmp_nil_cons y b : term_cmp [] (y :: b) = -1.
Proof.
  unfold term_cmp, Indexer.lex_cmp_str, zlen. simpl length.
  replace (Z.of_nat 0 <? Z.of_nat (S (length b))) with true
    by (symmetry; apply Z.ltb_lt; lia).
  reflexivity.
Qed.

Lemma term_cmp_cons_nil x a : term_cmp (x :: a) [] = 1.
Proof.
  unfold term_cmp, Indexer.lex_cmp_str, zlen. simpl length.
  replace (Z.of_nat (S (length a)) <? Z.of_nat 0) with false
    by (symmetry; apply Z.ltb_ge; lia).
  replace (Z.of_nat 0 <? Z.of_nat (S (length a))) with true
    by (symmetry; apply Z.ltb_lt; lia).
  reflexivity.
Qed.

Lemma term_cmp_cons_cons x a y b :
  term_cmp (x :: a) (y :: b) =
  if x <? y then -1 else if y <? x then 1 else term_cmp a b.
Proof.
  unfold term_cmp, Indexer.lex_cmp_str, zlen. simpl length.
  set (la := length a). set (lb := length b).
  assert (Hm : Z.to_nat (if Z.of_nat (S la) <? Z.of_nat (S lb)
                         then Z.of_nat (S la) else Z.of_nat (S lb))
               = S (Z.to_nat (if Z.of_nat la <? Z.of_nat lb
                              then Z.of_nat la else Z.of_nat lb))).
  { destruct (Z.ltb_spec (Z.of_nat (S la)) (Z.of_nat (S lb)));
      destruct (Z.ltb_spec (Z.of_nat la) (Z.of_nat lb)); lia. }
  rewrite Hm. simpl memcmp.
  destruct (x <? y); [reflexivity|]. destruct (y <? x); [reflexivity|].
  replace (Z.of_nat (S la) <? Z.of_nat (S lb)) with (Z.of_nat la <? Z.of_nat lb)
    by (destruct (Z.ltb_spec (Z.of_nat (S la)) (Z.of_nat (S lb)));
        destruct (Z.ltb_spec (Z.of_nat la) (Z.of_nat lb)); lia).
  replace (Z.of_nat (S lb) <? Z.of_nat (S la)) with (Z.of_nat lb <? Z.of_nat la)
    by (destruct (Z.ltb_spec (Z.of_nat (S lb)) (Z.of_nat (S la)));
        destruct (Z.ltb_spec (Z.of_nat lb) (Z.of_nat la)); lia).
  reflexivity.
Qed.

Lemma term_cmp_eq a : forall b, term_cmp a b = 0 <-> a = b.
Proof.
  induction a as [|x a IH]; intros [|y b].
  - rewrite term_cmp_nil_nil. tauto.
  - rewrite term_cmp_nil_cons. split; [lia|discriminate].
  - rewrite term_cmp_cons_nil. split; [lia|discriminate].
  - rewrite term_cmp_cons_cons.
    destruct (Z.ltb_spec x y); [split; [lia|intros [=]; lia]|].
    destruct (Z.ltb_spec y x); [split; [lia|intros [=]; lia]|].
    rewrite IH. assert (x = y) by lia. split; [intros ->; congruence|intros [=]; assumption].
Qed.

Lemma term_cmp_flip a : forall b, term_cmp a b < 0 <-> 0 < term_cmp b a.
Proof.
  induction a as [|x a IH]; intros [|y b].
  - rewrite term_cmp_nil_nil. lia.
  - rewrite term_cmp_nil_cons, term_cmp_cons_nil. lia.
  - rewrite term_cmp_nil_cons, term_cmp_cons_nil. lia.
  - rewrite !term_cmp_cons_cons.
    destruct (Z.ltb_spec x y); destruct (Z.ltb_spec y x); try lia. apply IH.
Qed.

Lemma term_lt_trans a : forall b c, term_lt a b -> term_lt b c -> term_lt a c.
Proof.
  unfold term_lt.
  induction a as [|x a IH]; intros [|y b] [|z c];
    rewrite ?term_cmp_nil_nil, ?term_cmp_nil_cons, ?term_cmp_cons_nil,
            ?term_cmp_cons_cons; try lia.
  destruct (Z.ltb_spec x y); destruct (Z.ltb_spec y x);
    destruct (Z.ltb_spec y z); destruct (Z.ltb_spec z y);
    destruct (Z.ltb_spec x z); destruct (Z.ltb_spec z x); try lia.
  apply IH.
Qed.

Lemma term_lt_irrefl a : ~ term_lt a a.
Proof.
  unfold term_lt. assert (term_cmp a a = 0) by now apply term_cmp_eq. lia.
Qed.

(** Under [lexicon_wf] the comparison at [mid] is [term_cmp] of the query
    term and the record's term. *)
Lemma find_term_cmp_term_cmp idx tb tlen mid r :
  lex idx !! Z.to_nat mid = Some r ->
  0 <= term_off r -> 0 <= term_len r ->
  term_off r + term_len r <= zlen (term_pool idx) ->
  0 <= tlen <= zlen tb ->
  find_term_cmp idx tb tlen mid = term_cmp (take (Z.to_nat tlen) tb) (rec_term idx r).
Proof.
  intros Hr Ho Hl Hp Ht. unfold find_term_cmp.
  rewrite (nth_lookup_Some _ _ _ _ Hr). cbv zeta.
  unfold term_cmp, Indexer.lex_cmp_str, rec_term.
  assert (Hlt : zlen (take (Z.to_nat tlen) tb) = tlen).
  { unfold zlen in *. rewrite length_take. lia. }
  assert (Hlr : zlen (take (Z.to_nat (term_len r))
                        (drop (Z.to_nat (term_off r)) (term_pool idx))) = term_len r).
  { unfold zlen in *. rewrite length_take, length_drop. lia. }
  rewrite Hlt, Hlr.
  set (m := if tlen <? term_len r then tlen else term_len r).
  assert (Hm : m <= tlen /\ m <= term_len r)
    by (unfold m; destruct (Z.ltb_spec tlen (term_len r)); lia).
  rewrite memcmp_take_l, memcmp_take_r by lia.
  destruct (memcmp tb _ (Z.to_nat m) =? 0) eqn:Hc; simpl.
  - apply Z.eqb_eq in Hc. rewrite Hc.
    destruct (tlen <? term_len r); [reflexivity|].
    destruct (term_len r <? tlen); reflexivity.
  - reflexivity.
Qed.

Lemma find_term_loop_unfold idx t tlen lo hi :
  find_term_loop idx t tlen lo hi =
  if lo <? hi then
    let mid := lo + (hi - lo) / 2 in
    let c := find_term_cmp idx t tlen mid in
    if c =? 0 then Some mid
    else if c <? 0 then find_term_loop idx t tlen lo mid
    else find_term_loop idx t tlen (mid + 1) hi
  else None.
Proof.
  rewrite find_term_loop_equation_1.
  destruct (Z_lt_dec lo hi) as [Hlt|Hge]; simpl.
  - replace (lo <? hi) with true by (symmetry; apply Z.ltb_lt; lia). reflexivity.
  - replace (lo <? hi) with false by (symmetry; apply Z.ltb_ge; lia). reflexivity.
Qed.

Section Search.
Variable idx : Index.
Variable tb : list Z.
Variable tlen : Z.
Hypothesis Hwf : lexicon_wf idx.
Hypothesis Hsorted : lexicon_sorted idx.
Hypothesis Htlen : 0 <= tlen <= zlen tb.

Let t := take (Z.to_nat tlen) tb.

Lemma lex_terms_lookup i r :
  lex idx !! i = Some r -> lex_terms idx !! i = Some (rec_term idx r).
Proof. intros H. unfold lex_terms. rewrite list_lookup_fmap, H. reflexivity. Qed.

Lemma lexicon_strongly_sorted : StronglySorted term_lt (lex_terms idx).
Proof.
  apply Sorted_StronglySorted; [|exact Hsorted].
  intros a b c. apply term_lt_trans.
Qed.

Lemma lexicon_ordered i1 i2 r1 r2 :
  lex idx !! i1 = Some r1 -> lex idx !! i2 = Some r2 -> (i1 < i2)%nat ->
  term_lt (rec_term idx r1) (rec_term idx r2).
Proof.
  intros H1 H2 Hlt.
  eapply (StronglySorted_lookup_lt term_lt); [exact lexicon_strongly_sorted| | |exact Hlt].
  - now apply lex_terms_lookup.
  - now apply lex_terms_lookup.
Qed.

Lemma find_term_cmp_at mid r :
  lex idx !! Z.to_nat mid = Some r ->
  find_term_cmp idx tb tlen mid = term_cmp t (rec_term idx r).
Proof.
  intros Hr. destruct Hwf as [_ Hf]. rewrite Forall_forall in Hf.
  destruct (Hf r) as (Ho & Hl & Hp); [eapply list_elem_of_lookup_2; exact Hr|].
  now apply find_term_cmp_term_cmp.
Qed.

(** The search between [lo] and [hi], all records below [lo] being smaller
    than [t] and all from [hi] on being larger. *)
Lemma find_term_loop_spec (n : nat) : forall lo hi,
  (Z.to_nat (hi - lo) <= n)%nat -> 0 <= lo <= hi -> hi <= term_count idx ->
  (forall i r, lex idx !! i = Some r -> Z.of_nat i < lo -> term_lt (rec_term idx r) t) ->
  (forall i r, lex idx !! i = Some r -> hi <= Z.of_nat i -> term_lt t (rec_term idx r)) ->
  match find_term_loop idx tb tlen lo hi with
  | Some m => exists r, 0 <= m /\ lex idx !! Z.to_nat m = Some r /\ rec_term idx r = t
  | None => forall i r, lex idx !! i = Some r -> rec_term idx r <> t
  end.
Proof.
  induction n as [|n IH]; intros lo hi Hn Hlo Hhi Hbelow Habove;
    rewrite find_term_loop_unfold.
  - replace (lo <? hi) with false by (symmetry; apply Z.ltb_ge; lia).
    intros i r Hr He.
    destruct (Z.lt_ge_cases (Z.of_nat i) lo) as [Hi|Hi].
    + apply (term_lt_irrefl t). rewrite <- He at 1. eapply Hbelow; eassumption.
    + apply (term_lt_irrefl t). rewrite <- He at 2. eapply Habove; [eassumption|lia].
  - destruct (Z.ltb_spec lo hi) as [Hlt|Hge].
    2:{ intros i r Hr He.
        destruct (Z.lt_ge_cases (Z.of_nat i) lo) as [Hi|Hi].
        + apply (term_lt_irrefl t). rewrite <- He at 1. eapply Hbelow; eassumption.
        + apply (term_lt_irrefl t). rewrite <- He at 2. eapply Habove; [eassumption|lia]. }
    cbv zeta. set (mid := lo + (hi - lo) / 2).
    assert (Hmid : lo <= mid < hi).
    { unfold mid.
      assert (0 <= (hi - lo) / 2 < hi - lo)
        by (split; [apply Z.div_pos; lia|apply Z.div_lt_upper_bound; lia]).
      lia. }
    destruct Hwf as [Hcount _].
    destruct (lookup_lt_is_Some_2 (lex idx) (Z.to_nat mid)) as [r Hr].
    { unfold zlen in Hcount. lia. }
    rewrite (find_term_cmp_at mid r Hr).
    destruct (Z.eqb_spec (term_cmp t (rec_term idx r)) 0) as [Hc|Hc].
    + apply term_cmp_eq in Hc. exists r. split; [lia|]. split; [exact Hr|now symmetry].
    + destruct (Z.ltb_spec (term_cmp t (rec_term idx r)) 0) as [Hneg|Hpos].
      * apply IH; [lia|lia|lia|exact Hbelow|].
        intros i r' Hr' Hi.
        destruct (Z.lt_ge_cases (Z.of_nat i) hi) as [Hih|Hih];
          [|eapply Habove; [exact Hr'|exact Hih]].
        destruct (Nat.eq_dec i (Z.to_nat mid)) as [->|Hne].
        -- rewrite Hr in Hr'. injection Hr' as <-. exact Hneg.
        -- eapply term_lt_trans; [exact Hneg|].
           eapply lexicon_ordered; [exact Hr|exact Hr'|lia].
      * assert (Hgt : term_lt (rec_term idx r) t) by (apply term_cmp_flip; lia).
        apply IH; [lia|lia|lia| |exact Habove].
        intros i r' Hr' Hi.
        destruct (Z.lt_ge_cases (Z.of_nat i) lo) as [Hil|Hil];
          [eapply Hbelow; [exact Hr'|exact Hil]|].
        destruct (Nat.eq_dec i (Z.to_nat mid)) as [->|Hne].
        -- rewrite Hr in Hr'. injection Hr' as <-. exact Hgt.
        -- eapply term_lt_trans; [|exact Hgt].
           eapply lexicon_ordered; [exact Hr'|exact Hr|lia].
Qed.

Lemma find_term_spec :
  match find_term idx tb tlen with
  | Some m => exists r, 0 <= m /\ lex idx !! Z.to_nat m = Some r /\ rec_term idx r = t
  | None => forall i r, lex idx !! i = Some r -> rec_term idx r <> t
  end.
Proof.
  unfold find_term.
  assert (0 <= term_count idx) by (destruct Hwf as [<- _]; unfold zlen; lia).
  apply (find_term_loop_spec (Z.to_nat (term_count idx))); try lia.
  - intros i r Hr Hi.
    destruct Hwf as [Hc _]. apply lookup_lt_Some in Hr. unfold zlen in Hc. lia.
Qed.

Lemma find_term_found i r :
  lex idx !! i = Some r -> rec_term idx r = t ->
  find_term idx tb tlen = Some (Z.of_nat i).
Proof.
  intros Hr He. pose proof find_term_spec as Hs.
  destruct (find_term idx tb tlen) as [m|].
  - destruct Hs as (r' & Hm & Hr' & He'). f_equal.
    destruct (lt_eq_lt_dec (Z.to_nat m) i) as [[Hlt|Heq]|Hgt].
    + exfalso. apply (term_lt_irrefl t). rewrite <- He' at 1. rewrite <- He.
      eapply lexicon_ordered; eassumption.
    + lia.
    + exfalso. apply (term_lt_irrefl t). rewrite <- He at 1. rewrite <- He'.
      eapply lexicon_ordered; eassumption.
  - exfalso. exact (Hs i r Hr He).
Qed.

Lemma find_term_absent :
  (forall i r, lex idx !! i = Some r -> rec_term idx r <> t) ->
  find_term idx tb tlen = None.
Proof.
  intros Hno. pose proof find_term_spec as Hs.
  destruct (find_term idx tb tlen) as [m|]; [|reflexivity].
  destruct Hs as (r' & Hm & Hr' & He'). exfalso. exact (Hno _ _ Hr' He').
Qed.

End Search.

(** C7. On a lexicon whose records are strictly ascending under the
    (bytes, length) order, [find_term(t, tlen)] returns 1 with the index of
    the record whose term is [(t, tlen)] when there is one, and returns 0
    when no record has that term. *)
Theorem find_term_correct (idx : Index) (tb : list Z) (tlen : Z) :
  lexicon_wf idx -> lexicon_sorted idx -> 0 <= tlen <= zlen tb ->
  (forall i r, lex idx !! i = Some r ->
               rec_term idx r = take (Z.to_nat tlen) tb ->
               find_term idx tb tlen = Some (Z.of_nat i)) /\
  ((forall i r, lex idx !! i = Some r ->
                rec_term idx r <> take (Z.to_nat tlen) tb) ->
   find_term idx tb tlen = None).
Proof.
  intros Hwf Hs Ht. split.
  - intros i r. now apply find_term_found.
  - now apply find_term_absent.
Qed.

Lemma find_term_correct_witness :
  find_term small_index (str "cats" ++ replicate 252 0) 4 = Some 1 /\
  find_term small_index (str "cow" ++ replicate 253 0) 3 = None.
Proof.
  assert (Hwf : lexicon_wf small_index).
  { split; [reflexivity|]. repeat constructor; vm_compute; discriminate. }
  assert (Hs : lexicon_sorted small_index).
  { repeat constructor; vm_compute; reflexivity. }
  split.
  - apply (proj1 (find_term_correct small_index (str "cats" ++ replicate 252 0) 4
                    Hwf Hs ltac:(vm_compute; split; discriminate)) 1%nat
                 (mkLexRec 4 4 0 1 48 1 0)); reflexivity.
  - apply (proj2 (find_term_correct small_index (str "cow" ++ replicate 253 0) 3
                    Hwf Hs ltac:(vm_compute; split; discriminate))).
    intros [|[|[|i]]] r [= <-]; vm_compute; discriminate.
Defined.

End FindTerm.

(** ** Query lexer and to_rpn *)

Section Lexer.
Import SearchCli.

Lemma skip_spaces_length ts : (length (skip_spaces ts) <= length ts)%nat.
Proof.
  induction ts as [|c ts IH]; simpl; [lia|].
  destruct (is_space c); simpl; lia.
Qed.

Lemma scan_term_length s : forall text kk text' k' rest,
  scan_term s text kk = (text', k', rest) ->
  (length rest <= length s)%nat /\ length text' = length text /\
  (kk <= 255 -> kk <= k' <= 255).
Proof.
  induction s as [|c s IH]; intros text kk text' k' rest H; simpl in H.
  - injection H as <- <- <-. simpl. lia.
  - destruct (is_ascii_alnum c).
    + destruct (Z.ltb_spec kk 255).
      * apply IH in H as (Hr & Hl & Hk). rewrite length_insert in Hl.
        simpl. split; [lia|]. split; [exact Hl|lia].
      * apply IH in H as (Hr & Hl & Hk). simpl. split; [lia|]. split; [exact Hl|lia].
    + injection H as <- <- <-. simpl. lia.
Qed.

Lemma scan_term_first c s text text' k' rest :
  is_ascii_alnum c = true ->
  scan_term (c :: s) text 0 = (text', k', rest) ->
  (length rest <= length s)%nat /\ length text' = length text /\ 1 <= k' <= 255.
Proof.
  intros Hc H. simpl in H. rewrite Hc in H. simpl in H.
  apply scan_term_length in H as (Hr & Hl & Hk).
  rewrite length_insert in Hl. split; [exact Hr|]. split; [exact Hl|lia].
Qed.

(** Every token but [T_END] uses up at least one byte of the line. *)
Lemma next_shorter ts tok ts' :
  next ts = (tok, ts') -> tok_type tok <> T_END -> (length ts' < length ts)%nat.
Proof.
  unfold next. pose proof (skip_spaces_length ts) as Hs.
  destruct (skip_spaces ts) as [|c s'] eqn:Hsk.
  - intros [= <- <-] H. now contradiction H.
  - simpl in Hs.
    repeat (match goal with
            | |- context [if ?c then _ else _] => destruct c eqn:?
            | |- context [match ?l with [] => _ | _ :: _ => _ end] => destruct l eqn:?
            end; try (intros [= <- <-] _; simpl in *; lia)).
    destruct (scan_term (c :: s') (replicate 256 0) 0) as [[text k'] rest] eqn:Hsc.
    intros [= <- <-] _.
    apply scan_term_first in Hsc as (Hr & _); [lia|assumption].
Qed.

Lemma next_tok_wf ts tok ts' :
  next ts = (tok, ts') -> tok_type tok <> T_END -> tok_wf tok.
Proof.
  intros Hn He. split; [exact He|]. revert Hn. unfold next.
  destruct (skip_spaces ts) as [|c s'] eqn:Hsk.
  - intros [= <- <-]. discriminate.
  - repeat (match goal with
            | |- context [if ?c then _ else _] => destruct c eqn:?
            | |- context [match ?l with [] => _ | _ :: _ => _ end] => destruct l eqn:?
            end; try (intros [= <- <-]; discriminate)).
    destruct (scan_term (c :: s') (replicate 256 0) 0) as [[text k'] rest] eqn:Hsc.
    intros [= <- <-] _. simpl.
    apply scan_term_first in Hsc as (_ & Hl & Hk); [|assumption].
    split; [exact Hk|]. unfold zlen. rewrite length_insert, Hl, length_replicate.
    reflexivity.
Qed.

Lemma lex_all_wf fuel : forall ts, Forall tok_wf (lex_all fuel ts).
Proof.
  induction fuel as [|fuel IH]; intros ts; simpl; [constructor|].
  destruct (next ts) as [tok ts'] eqn:Hn.
  case_bool_decide as He; [constructor|].
  constructor; [|apply IH]. eapply next_tok_wf; eassumption.
Qed.

Lemma to_rpn_loop_feed fuel : forall ts st,
  (length ts < fuel)%nat ->
  to_rpn_loop fuel ts st = rpn_feed (lex_all fuel ts) st.
Proof.
  induction fuel as [|fuel IH]; intros ts st Hf; [lia|].
  simpl. destruct (next ts) as [tok ts'] eqn:Hn.
  case_bool_decide as He.
  - rewrite He. reflexivity.
  - pose proof (next_shorter _ _ _ Hn He) as Hlt.
    simpl. case_bool_decide as Hb.
    + rewrite Hb. apply IH. lia.
    + destruct (tok_type tok) eqn:Ht; try congruence;
        (destruct (to_rpn_token tok st) as [st'|]; simpl; [apply IH; lia|reflexivity]).
Qed.

Lemma to_rpn_feed line :
  to_rpn line =
  st ← rpn_feed (token_stream line) (mkRpn [] Tok_end []);
  Some (drain_ops (rpn_ops st) (rpn_out st)).
Proof. unfold to_rpn, token_stream. rewrite to_rpn_loop_feed by lia. reflexivity. Qed.

End Lexer.

(** ** Queries made of binary operators and parentheses only *)

Section OperatorOnlyQueries.
Import SearchCli.

Lemma pop_ops_binary op ops : forall out ops' out',
  Forall (fun t => binary_op t \/ t = T_LP) ops ->
  Forall (fun it => binary_op (rpn_type it)) out ->
  pop_ops op ops out = (ops', out') ->
  Forall (fun t => binary_op t \/ t = T_LP) ops' /\
  Forall (fun it => binary_op (rpn_type it)) out'.
Proof.
  induction ops as [|top ops IH]; intros out ops' out' Ho Hout; simpl.
  - intros [= <- <-]. auto.
  - inversion Ho as [|? ? Htop Hrest]; subst.
    case_bool_decide as Hlp; [intros [= <- <-]; auto|].
    destruct (_ || _); [|intros [= <- <-]; auto].
    apply IH; [exact Hrest|].
    apply Forall_app. split; [exact Hout|]. constructor; [|constructor].
    simpl. destruct Htop; [assumption|contradiction].
Qed.

Lemma close_paren_binary ops : forall out ops' out',
  Forall (fun t => binary_op t \/ t = T_LP) ops ->
  Forall (fun it => binary_op (rpn_type it)) out ->
  close_paren ops out = (ops', out') ->
  Forall (fun t => binary_op t \/ t = T_LP) ops' /\
  Forall (fun it => binary_op (rpn_type it)) out'.
Proof.
  induction ops as [|top ops IH]; intros out ops' out' Ho Hout; simpl.
  - intros [= <- <-]. auto.
  - inversion Ho as [|? ? Htop Hrest]; subst.
    case_bool_decide as Hlp; [intros [= <- <-]; auto|].
    apply IH; [exact Hrest|].
    apply Forall_app. split; [exact Hout|]. constructor; [|constructor].
    simpl. destruct Htop; [assumption|contradiction].
Qed.

Lemma drain_ops_binary ops : forall out,
  Forall (fun t => binary_op t \/ t = T_LP) ops ->
  Forall (fun it => binary_op (rpn_type it)) out ->
  Forall (fun it => binary_op (rpn_type it)) (drain_ops ops out).
Proof.
  induction ops as [|top ops IH]; intros out Ho Hout; simpl; [exact Hout|].
  inversion Ho as [|? ? Htop Hrest]; subst.
  case_bool_decide as Hlp; [now apply IH|].
  apply IH; [exact Hrest|].
  apply Forall_app. split; [exact Hout|]. constructor; [|constructor].
  simpl. destruct Htop; [assumption|contradiction].
Qed.

Lemma to_rpn_token_binary tok st :
  tok_type tok <> T_TERM -> tok_type tok <> T_NOT -> tok_type tok <> T_END ->
  tok_type tok <> T_BAD ->
  binary_only st ->
  exists st', to_rpn_token tok st = Some st' /\ binary_only st' /\
              rpn_prev st' = tok.
Proof.
  intros Ht Hn He Hb [Hops Hout]. unfold to_rpn_token.
  assert (Hpre : exists ops out,
    (if is_value_token (tok_type (rpn_prev st)) && can_start_value (tok_type tok)
     then push_op T_AND (rpn_ops st) (rpn_out st)
     else (rpn_ops st, rpn_out st)) = (ops, out) /\
    Forall (fun t => binary_op t \/ t = T_LP) ops /\
    Forall (fun it => binary_op (rpn_type it)) out).
  { destruct (_ && _).
    - unfold push_op.
      destruct (pop_ops T_AND (rpn_ops st) (rpn_out st)) as [ops1 out1] eqn:Hp.
      apply pop_ops_binary in Hp as [H1 H2]; [|assumption..].
      exists (T_AND :: ops1), out1. split; [reflexivity|]. split; [|exact H2].
      constructor; [left; left; reflexivity|exact H1].
    - eauto. }
  destruct Hpre as (ops & out & -> & Ho & Hu).
  destruct (tok_type tok) eqn:Hty; try congruence.
  - unfold push_op. destruct (pop_ops T_AND ops out) as [ops1 out1] eqn:Hp.
    apply pop_ops_binary in Hp as [H1 H2]; [|assumption..].
    eexists. split; [reflexivity|]. split; [|reflexivity]. split; simpl; [|exact H2].
    constructor; [left; left; reflexivity|exact H1].
  - unfold push_op. destruct (pop_ops T_OR ops out) as [ops1 out1] eqn:Hp.
    apply pop_ops_binary in Hp as [H1 H2]; [|assumption..].
    eexists. split; [reflexivity|]. split; [|reflexivity]. split; simpl; [|exact H2].
    constructor; [left; right; reflexivity|exact H1].
  - eexists. split; [reflexivity|]. split; [|reflexivity]. split; simpl; [|exact Hu].
    constructor; [right; reflexivity|exact Ho].
  - destruct (close_paren ops out) as [ops1 out1] eqn:Hp.
    apply close_paren_binary in Hp as [H1 H2]; [|assumption..].
    eexists. split; [reflexivity|]. split; [|reflexivity]. split; simpl; assumption.
Qed.

Lemma rpn_feed_binary toks : forall st,
  Forall (fun tok => tok_type tok <> T_TERM /\ tok_type tok <> T_NOT) toks ->
  Forall tok_wf toks ->
  binary_only st ->
  exists st', rpn_feed toks st = Some st' /\ binary_only st'.
Proof.
  induction toks as [|tok toks IH]; intros st Hty Hwf Hst; simpl.
  - eauto.
  - inversion Hty as [|? ? [Ht Hn] Hty']; subst.
    inversion Hwf as [|? ? [He _] Hwf']; subst.
    case_bool_decide as Hb; [now apply IH|].
    destruct (to_rpn_token_binary tok st Ht Hn He Hb Hst) as (st1 & -> & H1 & _).
    simpl. now apply IH.
Qed.

(** Evaluating binary operators over empty operands leaves empty results. *)
Lemma eval_binary_empty idx rpn : forall st,
  Forall (fun it => binary_op (rpn_type it)) rpn ->
  Forall (fun a => a = []) st ->
  Forall (fun a : list Z => a = [])
         (fold_left (fun st it => eval_item idx it st) rpn st).
Proof.
  induction rpn as [|it rpn IH]; intros st Hr Hst; simpl; [exact Hst|].
  inversion Hr as [|? ? Hit Hr']; subst.
  apply IH; [exact Hr'|].
  assert (Hpop : forall s : list (list Z), Forall (fun a => a = []) s ->
            fst (pop_safe s) = [] /\ Forall (fun a => a = []) (snd (pop_safe s))).
  { intros [|x s] Hs; simpl; [auto|]. inversion Hs; subst. auto. }
  unfold eval_item.
  destruct (pop_safe st) as [b st1] eqn:H1.
  destruct (pop_safe st1) as [a st2] eqn:H2.
  destruct (Hpop st Hst) as [Hb Hs1]. rewrite H1 in Hb, Hs1. simpl in Hb, Hs1.
  destruct (Hpop st1 Hs1) as [Ha Hs2]. rewrite H2 in Ha, Hs2. simpl in Ha, Hs2.
  subst a b.
  destruct Hit as [-> | ->]; simpl; constructor; auto.
Qed.

(** C3 (amended). A query line whose token stream has neither [TERM] nor
    [NOT] tokens evaluates to the empty result: zero hits. *)
Theorem operator_only_query_empty (idx : Index) (line : list Z) :
  Forall (fun tok => tok_type tok <> T_TERM /\ tok_type tok <> T_NOT)
         (token_stream line) ->
  run_query idx line = Some [].
Proof.
  intros Hty. unfold run_query. rewrite to_rpn_feed.
  destruct (rpn_feed_binary (token_stream line) (mkRpn [] Tok_end []) Hty)
    as (st & -> & [Hops Hout]).
  { apply lex_all_wf. }
  { split; constructor. }
  simpl. f_equal. unfold eval_rpn.
  pose proof (eval_binary_empty idx (drain_ops (rpn_ops st) (rpn_out st)) []
                (drain_ops_binary _ _ Hops Hout) ltac:(constructor)) as He.
  destruct (fold_left _ _ _) as [|x s]; [reflexivity|].
  inversion He; subst. reflexivity.
Qed.

Lemma operator_only_query_empty_witness :
  run_query small_index (str "( & ) || # &&") = Some [].
Proof.
  apply operator_only_query_empty.
  vm_compute. repeat constructor; discriminate.
Defined.

(** The query [!] has no [TERM] token and yet returns every document:
    [NOT] pops an empty operand and complements it. *)
Lemma lone_not_query_hits_all :
  Forall (fun tok => tok_type tok <> T_TERM) (token_stream (str "!")) /\
  run_query small_index (str "!") = Some [0; 1] /\
  ~ (forall idx line,
       Forall (fun tok => tok_type tok <> T_TERM) (token_stream line) ->
       run_query idx line = Some []).
Proof.
  assert (H1 : Forall (fun tok => tok_type tok <> T_TERM) (token_stream (str "!"))).
  { vm_compute. repeat constructor; discriminate. }
  assert (H2 : run_query small_index (str "!") = Some [0; 1]).
  { vm_compute. reflexivity. }
  split; [exact H1|]. split; [exact H2|].
  intros H. specialize (H small_index (str "!") H1). rewrite H2 in H. discriminate.
Qed.

End OperatorOnlyQueries.

(** ** Empty stems and implicit conjunction *)

Section EmptyStems.
Import SearchCli.

(** A lexed term never stems to nothing. *)
Lemma normalize_term_nonempty (s : list Z) (len : Z) :
  zlen s = 256 -> 1 <= len <= 255 ->
  exists s' n, normalize_term s len = Some (s', n) /\ 1 <= n <= len.
Proof.
  intros Hs Hl. unfold normalize_term, Stemming.stem_word_en.
  destruct (porter_stem_inplace_bounds s len) as (s1 & n & -> & Hn & Hpos & Hl1); [lia|].
  simpl. specialize (Hpos ltac:(lia)).
  destruct (Z.ltb_spec n 0); [lia|]. destruct (Z.ltb_spec 255 n); [lia|].
  destruct (poke_Some s1 n 0) as (s2 & -> & _); [lia|].
  simpl. exists s2, n. split; [reflexivity|lia].
Qed.

(** On a token of the lexer, one turn of [to_rpn]'s loop is the
    shunting-yard step on the stemmed token, which is never dropped. *)
Lemma to_rpn_token_spec tok :
  tok_wf tok -> tok_type tok <> T_BAD ->
  exists tok', stem_token tok = Some tok' /\ empty_stem tok' = false /\
    forall st, to_rpn_token tok st = Some (shunting_yard_token st tok').
Proof.
  intros [He Hterm] Hb. unfold stem_token.
  destruct (tok_type tok) eqn:Hty; try congruence.
  - destruct (Hterm eq_refl) as [Hlen Htext].
    destruct (normalize_term_nonempty _ _ Htext Hlen) as (s' & n & Hn & Hpos).
    rewrite Hn. simpl. eexists. split; [reflexivity|]. split.
    + unfold empty_stem. simpl. apply Z.leb_gt. lia.
    + intros st. unfold to_rpn_token, shunting_yard_token. rewrite Hty, Hn. simpl.
      destruct (if _ && _ then _ else _) as [ops out].
      replace (0 <? n) with true by (symmetry; apply Z.ltb_lt; lia). reflexivity.
  - exists tok. split; [reflexivity|]. split; [unfold empty_stem; now rewrite Hty|].
    intros st. unfold to_rpn_token, shunting_yard_token. rewrite Hty.
    destruct (if _ && _ then _ else _) as [ops out].
    destruct (push_op T_AND ops out). reflexivity.
  - exists tok. split; [reflexivity|]. split; [unfold empty_stem; now rewrite Hty|].
    intros st. unfold to_rpn_token, shunting_yard_token. rewrite Hty.
    destruct (if _ && _ then _ else _) as [ops out].
    destruct (push_op T_OR ops out). reflexivity.
  - exists tok. split; [reflexivity|]. split; [unfold empty_stem; now rewrite Hty|].
    intros st. unfold to_rpn_token, shunting_yard_token. rewrite Hty.
    destruct (if _ && _ then _ else _) as [ops out].
    destruct (push_op T_NOT ops out). reflexivity.
  - exists tok. split; [reflexivity|]. split; [unfold empty_stem; now rewrite Hty|].
    intros st. unfold to_rpn_token, shunting_yard_token. rewrite Hty.
    destruct (if _ && _ then _ else _) as [ops out]. reflexivity.
  - exists tok. split; [reflexivity|]. split; [unfold empty_stem; now rewrite Hty|].
    intros st. unfold to_rpn_token, shunting_yard_token. rewrite Hty.
    destruct (if _ && _ then _ else _) as [ops out].
    destruct (close_paren ops out). reflexivity.
Qed.

Lemma rpn_feed_spec toks :
  Forall tok_wf toks ->
  exists toks',
    stem_tokens (filter (fun tok => negb (is_bad tok)) toks) = Some toks' /\
    filter (fun tok => negb (empty_stem tok)) toks' = toks' /\
    forall st, rpn_feed toks st = Some (fold_left shunting_yard_token toks' st).
Proof.
  induction 1 as [|tok toks Hwf _ (toks' & Hst & Hkeep & Hfeed)].
  - exists []. repeat split.
  - rewrite filter_cons. simpl rpn_feed.
    case_bool_decide as Hb; simpl.
    + rewrite decide_False by (unfold is_bad; rewrite bool_decide_true by exact Hb; auto).
      exists toks'. auto.
    + rewrite decide_True by (unfold is_bad; rewrite bool_decide_false by exact Hb; exact I).
      destruct (to_rpn_token_spec tok Hwf Hb) as (tok' & Hs & Hne & Hstep).
      exists (tok' :: toks'). simpl. rewrite Hs, Hst. simpl.
      split; [reflexivity|]. split.
      * rewrite filter_cons, decide_True by (rewrite Hne; exact I).
        rewrite Hkeep. reflexivity.
      * intros st. rewrite Hstep. simpl. apply Hfeed.
Qed.

(** With the stemmer of [stemming.cpp] no term is ever dropped: [to_rpn]
    is the shunting-yard with implicit conjunction on the stemmed tokens. *)
Lemma to_rpn_no_empty_stem (line : list Z) :
  exists rpn, to_rpn line = Some rpn /\ to_rpn_spec line = Some rpn.
Proof.
  destruct (rpn_feed_spec (token_stream line)) as (toks' & Hst & Hkeep & Hfeed).
  { apply lex_all_wf. }
  eexists. rewrite to_rpn_feed, Hfeed. unfold to_rpn_spec. rewrite Hst. simpl.
  rewrite Hkeep. split; reflexivity.
Qed.

Example to_rpn_implicit_and :
  option_map (map rpn_type) (to_rpn (str "cat dog | !cats (cow)"))
  = Some [T_TERM; T_TERM; T_AND; T_TERM; T_NOT; T_TERM; T_AND; T_OR].
Proof. vm_compute. reflexivity. Qed.

(** *** Empty stems, for any stemmer behind the interface *)

Lemma to_rpn_with_stemming (line : list Z) :
  to_rpn_with Stemming.stem_word_en line = to_rpn line.
Proof. reflexivity. Qed.













(** An empty stem in front: the [AND] is injected on account of the
    dropped [x] when [a] comes, and is left with one operand. *)
Example to_rpn_empty_stem_first :
  option_map (map rpn_type) (to_rpn_with drop_x (str "x a")) = Some [T_TERM; T_AND] /\
  option_map (map rpn_type) (to_rpn_kept drop_x (str "x a")) = Some [T_TERM; T_AND].
Proof. split; vm_compute; reflexivity. Qed.

End EmptyStems.

(** ** TermTable: load factor and termination of the probe loops *)

Section TermTableInvariant.
Import Indexer.

Lemma land_mask x cap k : 0 <= k -> cap = 2 ^ k -> Z.land x (cap - 1) = x mod cap.
Proof.
  intros Hk ->. rewrite <- Z.land_ones by assumption.
  rewrite Z.ones_equiv. reflexivity.
Qed.

Lemma fnv1a_64_nonzero s len : fnv1a_64 s len <> 0.
Proof.
  unfold fnv1a_64.
  destruct (Z.eqb_spec (fnv1a_64_loop (take (Z.to_nat len) s) 1469598103934665603) 0);
    lia.
Qed.

Lemma occupied_bounds tab : 0 <= occupied tab <= zlen tab.
Proof.
  unfold occupied, zlen. pose proof (List.filter_length_le
    (fun e => negb (te_hash e =? 0)) tab). lia.
Qed.

Lemma occupied_replicate n : occupied (replicate n TermEntry_zero) = 0.
Proof. induction n as [|n IH]; [reflexivity|exact IH]. Qed.

Lemma occupied_cons e tab :
  occupied (e :: tab) = (if te_hash e =? 0 then 0 else 1) + occupied tab.
Proof.
  unfold occupied, zlen. simpl. destruct (te_hash e =? 0); simpl; lia.
Qed.

(** Filling an empty slot adds one to the count. *)
Lemma occupied_insert tab : forall p e,
  (p < length tab)%nat -> te_hash (nth p tab TermEntry_zero) = 0 ->
  te_hash e <> 0 ->
  occupied (<[p := e]> tab) = occupied tab + 1.
Proof.
  induction tab as [|x tab IH]; intros p e Hp H0 He; simpl in Hp; [lia|].
  destruct p as [|p]; simpl in *.
  - rewrite !occupied_cons, H0.
    destruct (Z.eqb_spec (te_hash e) 0); [contradiction|]. simpl. lia.
  - rewrite !occupied_cons, IH by (assumption || lia). lia.
Qed.

(** Replacing the posting list of an entry keeps the count. *)
Lemma occupied_insert_same tab : forall p e,
  te_hash e = te_hash (nth p tab TermEntry_zero) ->
  occupied (<[p := e]> tab) = occupied tab.
Proof.
  induction tab as [|x tab IH]; intros p e He; [reflexivity|].
  destruct p as [|p]; simpl in *.
  - rewrite !occupied_cons, He. reflexivity.
  - rewrite !occupied_cons, IH by assumption. reflexivity.
Qed.

(** With fewer slots in use than there are slots, one is empty. *)
Lemma empty_slot_exists tab :
  occupied tab < zlen tab ->
  exists p, 0 <= p < zlen tab /\ te_hash (slot tab p) = 0.
Proof.
  induction tab as [|x tab IH]; intros Hlt.
  - unfold occupied, zlen in Hlt. simpl in Hlt. lia.
  - rewrite occupied_cons in Hlt. unfold zlen in *. simpl length in *.
    destruct (Z.eqb_spec (te_hash x) 0) as [H0|Hne].
    + exists 0. split; [lia|]. exact H0.
    + destruct IH as (p & Hp & Hz); [lia|].
      exists (p + 1). split; [lia|]. unfold slot in *.
      replace (Z.to_nat (p + 1)) with (S (Z.to_nat p)) by lia. exact Hz.
Qed.

Section Probing.
Variable cap k : Z.
Hypothesis Hk : 0 <= k.
Hypothesis Hcap : cap = 2 ^ k.

Lemma cap_pos : 0 < cap.
Proof. rewrite Hcap. apply Z.pow_pos_nonneg; lia. Qed.

Lemma next_pos pos : Z.land (pos + 1) (cap - 1) = (pos + 1) mod cap.
Proof. eapply land_mask; eassumption. Qed.

Lemma step_mod pos d : ((pos + 1) mod cap + d) mod cap = (pos + (d + 1)) mod cap.
Proof.
  rewrite Z.add_mod_idemp_l by (pose proof cap_pos; lia). f_equal. lia.
Qed.

(** An empty slot [d] steps ahead is reached within [d + 1] tries. *)
Lemma find_empty_reaches tab (d : nat) : forall fuel pos,
  (d < fuel)%nat -> 0 <= pos < cap ->
  te_hash (slot tab ((pos + Z.of_nat d) mod cap)) = 0 ->
  exists p, find_empty fuel tab (cap - 1) pos = Some p /\
            0 <= p < cap /\ te_hash (slot tab p) = 0.
Proof.
  pose proof cap_pos as Hpos.
  induction d as [|d IH]; intros fuel pos Hf Hp Hz;
    (destruct fuel as [|fuel]; [lia|]); simpl.
  - rewrite Z.add_0_r, Z.mod_small in Hz by lia. rewrite Hz. simpl. eauto.
  - destruct (Z.eqb_spec (te_hash (slot tab pos)) 0) as [H0|Hne]; [eauto|].
    rewrite next_pos. apply IH; [lia|apply Z.mod_pos_bound; lia|].
    rewrite step_mod. rewrite <- Hz. f_equal. f_equal. lia.
Qed.

Lemma find_empty_terminates tab pos :
  zlen tab = cap -> occupied tab < cap -> 0 <= pos < cap ->
  exists p, find_empty (Z.to_nat cap) tab (cap - 1) pos = Some p /\
            0 <= p < cap /\ te_hash (slot tab p) = 0.
Proof.
  intros Hl Ho Hp.
  destruct (empty_slot_exists tab) as (e & He & Hz); [lia|].
  apply (find_empty_reaches tab (Z.to_nat ((e - pos) mod cap))).
  - pose proof (Z.mod_pos_bound (e - pos) cap ltac:(lia)). lia.
  - exact Hp.
  - rewrite Z2Nat.id by (apply Z.mod_pos_bound; lia).
    rewrite Z.add_mod_idemp_r by lia.
    replace (pos + (e - pos)) with e by lia.
    rewrite Z.mod_small by lia. exact Hz.
Qed.

(** The rehash loop places every used old slot and ends. *)
Lemma rehash_terminates old : forall tab used,
  zlen tab = cap -> used = occupied tab ->
  used + zlen old <= cap - 1 ->
  exists tab' used', rehash old tab cap used = Some (tab', used') /\
    zlen tab' = cap /\ used' = occupied tab' /\ used' = used + occupied old.
Proof.
  pose proof cap_pos as Hpos.
  induction old as [|e old IH]; intros tab used Hl Hu Hroom; simpl.
  - exists tab, used. assert (occupied [] = 0) by reflexivity.
    repeat split; auto; lia.
  - unfold zlen in Hroom. simpl length in Hroom. rewrite occupied_cons.
    destruct (Z.eqb_spec (te_hash e) 0) as [H0|Hne].
    + destruct (IH tab used) as (tab' & used' & -> & ? & ? & ?);
        [assumption|assumption|unfold zlen; lia|].
      exists tab', used'. repeat split; auto; lia.
    + destruct (find_empty_terminates tab (Z.land (te_hash e) (cap - 1)))
        as (p & -> & Hp & Hz); [assumption|lia| |].
      { rewrite (land_mask _ cap k) by assumption. apply Z.mod_pos_bound. lia. }
      simpl.
      destruct (IH (<[Z.to_nat p := e]> tab) (used + 1))
        as (tab' & used' & -> & ? & ? & ?).
      * unfold zlen in *. rewrite length_insert. assumption.
      * rewrite occupied_insert; [lia|unfold zlen in Hl; lia|exact Hz|exact Hne].
      * unfold zlen. lia.
      * exists tab', used'. repeat split; auto; lia.
Qed.

End Probing.

Lemma maybe_grow_invariant tt :
  tt_wf tt ->
  exists tt1, maybe_grow tt = Some tt1 /\ tt_wf tt1 /\
    tt_used tt1 * 10 < tt_cap tt1 * 7 /\ tt_used tt1 = tt_used tt.
Proof.
  intros ((k & Hk & Hcap) & Hlen & Hused). unfold maybe_grow.
  destruct (Z.ltb_spec (tt_used tt * 10) (tt_cap tt * 7)) as [Hlt|Hge].
  - exists tt. repeat split; eauto.
  - pose proof (occupied_bounds (tt_tab tt)) as Hb.
    assert (Hpos : 0 < tt_cap tt) by (rewrite Hcap; apply Z.pow_pos_nonneg; lia).
    assert (Hcap2 : tt_cap tt * 2 = 2 ^ (k + 1))
      by (rewrite Z.pow_add_r, Hcap by lia; lia).
    destruct (rehash_terminates (tt_cap tt * 2) (k + 1) ltac:(lia) Hcap2
                (tt_tab tt) (replicate (Z.to_nat (tt_cap tt * 2)) TermEntry_zero) 0)
      as (tab' & used' & -> & Hl' & Hu' & Hsum).
    + unfold zlen. rewrite length_replicate. lia.
    + now rewrite occupied_replicate.
    + lia.
    + simpl. eexists. split; [reflexivity|]. unfold tt_wf. simpl.
      split; [|lia]. split; [exists (k + 1); split; [lia|exact Hcap2]|].
      split; assumption.
Qed.

Lemma get_or_create_probe_terminates tt s len h (d : nat) : forall fuel pos k,
  0 <= k -> tt_cap tt = 2 ^ k -> zlen (tt_tab tt) = tt_cap tt ->
  tt_used tt = occupied (tt_tab tt) -> h <> 0 ->
  (d < fuel)%nat -> 0 <= pos < tt_cap tt ->
  te_hash (slot (tt_tab tt) ((pos + Z.of_nat d) mod tt_cap tt)) = 0 ->
  exists tt2 p, get_or_create_probe fuel tt s len h (tt_cap tt - 1) pos
                = Some (tt2, p) /\ tt_wf tt2 /\ 0 <= p < tt_cap tt2.
Proof.
  induction d as [|d IH]; intros fuel pos k Hk Hcap Hlen Hused Hh Hf Hp Hz;
    (destruct fuel as [|fuel]; [lia|]); simpl.
  - assert (Hins : tt_wf (mkTermTable
        (<[Z.to_nat pos := mkTermEntry h (take (Z.to_nat len) s) (len mod 2 ^ 16)
                                       U32List_empty]> (tt_tab tt))
        (tt_cap tt) (tt_used tt + 1) (Arena_add (tt_arena tt) s len))).
    { rewrite Z.add_0_r, Z.mod_small in Hz by lia.
      split; [eauto|]. simpl. split.
      - unfold zlen in *. now rewrite length_insert.
      - rewrite occupied_insert; [lia|unfold zlen in Hlen; lia|exact Hz|exact Hh]. }
    rewrite Z.add_0_r, Z.mod_small in Hz by lia. rewrite Hz. simpl.
    eexists _, _. split; [reflexivity|]. split; [exact Hins|exact Hp].
  - destruct (Z.eqb_spec (te_hash (slot (tt_tab tt) pos)) 0) as [H0|Hne].
    + eexists _, _. split; [reflexivity|]. split; [|exact Hp].
      split; [eauto|]. simpl. split.
      * unfold zlen in *. now rewrite length_insert.
      * rewrite occupied_insert; [lia|unfold zlen in Hlen; lia|exact H0|exact Hh].
    + destruct (_ && _).
      * eexists _, _. split; [reflexivity|]. split; [|exact Hp].
        split; [eauto|]. split; assumption.
      * assert (Hpos : 0 < tt_cap tt) by (rewrite Hcap; apply Z.pow_pos_nonneg; lia).
        rewrite (next_pos (tt_cap tt) k) by assumption.
        eapply IH; try eassumption; [lia|apply Z.mod_pos_bound; lia|].
        rewrite (step_mod (tt_cap tt) k) by assumption.
        rewrite <- Hz. f_equal. f_equal. lia.
Qed.

(** [get_or_create] on a well-formed table: what [maybe_grow] leaves, and
    the slot the probe ends in. *)
Lemma get_or_create_total (tt : TermTable) (s : list Z) (len : Z) :
  tt_wf tt -> 0 < len ->
  exists tt1 tt2 pos,
    maybe_grow tt = Some tt1 /\
    tt_wf tt1 /\ tt_used tt1 * 10 < tt_cap tt1 * 7 /\
    (exists p, 0 <= p < tt_cap tt1 /\ te_hash (slot (tt_tab tt1) p) = 0) /\
    get_or_create tt s len = Some (tt2, Some pos) /\
    tt_wf tt2 /\ 0 <= pos < tt_cap tt2.
Proof.
  intros Hwf Hlen.
  destruct (maybe_grow_invariant tt Hwf) as (tt1 & Hg & Hwf1 & Hload & _).
  pose proof Hwf1 as ((k & Hk & Hcap) & Hl1 & Hu1).
  assert (Hpos : 0 < tt_cap tt1) by (rewrite Hcap; apply Z.pow_pos_nonneg; lia).
  destruct (empty_slot_exists (tt_tab tt1)) as (e & He & Hz); [lia|].
  rewrite Hl1 in He.
  set (h := fnv1a_64 s len).
  set (pos0 := Z.land h (tt_cap tt1 - 1)).
  assert (Hp0 : 0 <= pos0 < tt_cap tt1).
  { unfold pos0. rewrite (land_mask _ _ k) by assumption. apply Z.mod_pos_bound. lia. }
  destruct (get_or_create_probe_terminates tt1 s len h
              (Z.to_nat ((e - pos0) mod tt_cap tt1)) (Z.to_nat (tt_cap tt1)) pos0 k)
    as (tt2 & p & Hprobe & Hwf2 & Hp); try assumption.
  { apply fnv1a_64_nonzero. }
  { pose proof (Z.mod_pos_bound (e - pos0) (tt_cap tt1) ltac:(lia)). lia. }
  { rewrite Z2Nat.id by (apply Z.mod_pos_bound; lia).
    rewrite Z.add_mod_idemp_r by lia.
    replace (pos0 + (e - pos0)) with e by lia.
    rewrite Z.mod_small by lia. exact Hz. }
  exists tt1, tt2, p. split; [exact Hg|]. split; [exact Hwf1|]. split; [exact Hload|].
  split; [exists e; split; assumption|]. split; [|split; [exact Hwf2|exact Hp]].
  unfold get_or_create. replace (len <=? 0) with false by (symmetry; apply Z.leb_gt; lia).
  rewrite Hg. simpl. fold h. fold pos0. rewrite Hprobe. reflexivity.
Qed.

(** C10. On a well-formed table [get_or_create] first runs [maybe_grow],
    whose rehash loop ends and leaves [used * 10 < cap * 7] with [cap] a
    power of two; the table then has an empty slot, the probe loop ends, and
    the table is well-formed again for the next call. *)
Theorem term_table_load_invariant (tt : TermTable) (s : list Z) (len : Z) :
  tt_wf tt -> 0 < len ->
  exists tt1 tt2 pos,
    maybe_grow tt = Some tt1 /\
    tt_wf tt1 /\ tt_used tt1 * 10 < tt_cap tt1 * 7 /\
    (exists p, 0 <= p < tt_cap tt1 /\ te_hash (slot (tt_tab tt1) p) = 0) /\
    get_or_create tt s len = Some (tt2, Some pos) /\
    tt_wf tt2.
Proof.
  intros Hwf Hlen.
  destruct (get_or_create_total tt s len Hwf Hlen)
    as (tt1 & tt2 & pos & H1 & H2 & H3 & H4 & H5 & H6 & _).
  exists tt1, tt2, pos. auto 10.
Qed.

(** The invariant holds from the start and survives the other operations. *)
Lemma TermTable_init_wf k arena_bytes : 0 <= k -> tt_wf (TermTable_init (2 ^ k) arena_bytes).
Proof.
  intros Hk. assert (0 < 2 ^ k) by (apply Z.pow_pos_nonneg; lia).
  split; [eauto|]. simpl. split.
  - unfold zlen. rewrite length_replicate. lia.
  - now rewrite occupied_replicate.
Qed.

Lemma TermTable_clear_wf tt : tt_wf tt -> tt_wf (TermTable_clear tt).
Proof.
  intros ((k & Hk & Hcap) & _ & _).
  assert (0 < tt_cap tt) by (rewrite Hcap; apply Z.pow_pos_nonneg; lia).
  split; [eauto|]. simpl. split.
  - unfold zlen. rewrite length_replicate. lia.
  - now rewrite occupied_replicate.
Qed.

Lemma push_post_wf tt pos v : tt_wf tt -> tt_wf (push_post tt pos v).
Proof.
  intros (Hc & Hl & Hu). split; [exact Hc|]. simpl. split.
  - unfold zlen in *. now rewrite length_insert.
  - rewrite occupied_insert_same; [exact Hu|reflexivity].
Qed.

Lemma term_table_load_invariant_witness :
  exists tt1 tt2 pos,
    maybe_grow (TermTable_init 8 1024) = Some tt1 /\
    tt_wf tt1 /\ tt_used tt1 * 10 < tt_cap tt1 * 7 /\
    (exists p, 0 <= p < tt_cap tt1 /\ te_hash (slot (tt_tab tt1) p) = 0) /\
    get_or_create (TermTable_init 8 1024) (str "hello") 5 = Some (tt2, Some pos) /\
    tt_wf tt2.
Proof.
  apply term_table_load_invariant.
  - apply (TermTable_init_wf 3). lia.
  - lia.
Defined.

End TermTableInvariant.

(** ** DocTermSet at its load limit *)

Section DedupSaturation.
Import Indexer.

Lemma push_unique_sorted_last l v :
  last (U32List_a (push_unique_sorted l v)) = Some v.
Proof.
  rewrite push_unique_sorted_a. case_decide as Hl; [exact Hl|apply last_snoc].
Qed.

(** C1 (amended). At or above 80% load ([used * 10 >= cap * 8])
    [contains_or_add] returns 0, "not present", and leaves the set as it is;
    [process_one_doc] then hands the token to [get_or_create] and
    [push_unique_sorted], so the document is the last id of the posting list
    of a term met after the threshold. *)
Theorem saturated_set_passes_tokens (doc_id : Z) (st : doc_state) :
  tt_wf (d_tt st) -> 0 < d_tok_len st ->
  ds_cap (d_dset st) * 8 <= ds_used (d_dset st) * 10 ->
  contains_or_add (d_dset st) (d_tok st) (d_tok_len st) = Some (0, d_dset st) /\
  exists tt2 pos st',
    get_or_create (d_tt st) (d_tok st) (d_tok_len st) = Some (tt2, Some pos) /\
    index_token doc_id st = Some st' /\
    d_tt st' = push_post tt2 pos doc_id /\ d_dset st' = d_dset st /\
    last (U32List_a (te_post (slot (tt_tab (d_tt st')) pos))) = Some doc_id.
Proof.
  intros Hwf Hlen Hsat.
  assert (Hc : contains_or_add (d_dset st) (d_tok st) (d_tok_len st)
               = Some (0, d_dset st)).
  { unfold contains_or_add.
    replace (d_tok_len st <=? 0) with false by (symmetry; apply Z.leb_gt; lia).
    replace (ds_cap (d_dset st) * 8 <=? ds_used (d_dset st) * 10) with true
      by (symmetry; apply Z.leb_le; lia).
    reflexivity. }
  split; [exact Hc|].
  destruct (get_or_create_total (d_tt st) (d_tok st) (d_tok_len st) Hwf Hlen)
    as (_ & tt2 & pos & _ & _ & _ & _ & Hg & Hwf2 & Hpos).
  exists tt2, pos. eexists. split; [exact Hg|].
  unfold index_token. rewrite Hc. simpl. rewrite Hg. simpl.
  split; [reflexivity|]. simpl. split; [reflexivity|]. split; [reflexivity|].
  unfold slot at 1. simpl.
  destruct Hwf2 as (_ & Hl2 & _). unfold zlen in Hl2.
  rewrite nth_lookup, list_lookup_insert_eq by lia. simpl.
  apply push_unique_sorted_last.
Qed.

Lemma saturated_set_passes_tokens_witness :
  d_tok_len doc_with_late_token = 4 /\
  ds_used (d_dset doc_with_late_token) = 7 /\
  contains_or_add (d_dset doc_with_late_token) (d_tok doc_with_late_token) 4
  = Some (0, d_dset doc_with_late_token).
Proof.
  split; [reflexivity|]. split; [reflexivity|].
  apply (proj1 (saturated_set_passes_tokens 5 doc_with_late_token
    ltac:(split; [exists 4; split; [lia|reflexivity]|split; reflexivity])
    ltac:(vm_compute; reflexivity) ltac:(vm_compute; discriminate))).
Defined.

(** With a set of 8 slots the eighth distinct term of a document meets a
    set holding 7 terms (70 >= 64).  [contains_or_add] answers 0 for it and
    does not insert it, and the term does get the document in its posting
    list. *)
Lemma saturated_term_still_indexed :
  match process_one_doc (Some (str "a b c d e f g late")) 5
          (TermTable_init 16 1024) (DocTermSet_init 8 64) (mkCounters 0 0 0) with
  | Some (rc, table, dset, cnt) =>
      rc = 0 /\ ds_used dset = 7 /\ ds_cap dset * 8 <= ds_used dset * 10 /\
      contains_or_add dset (str "late") 4 = Some (0, dset) /\
      contains_or_add dset (str "late") 4 <> Some (1, dset) /\
      postings_of table (str "late") = Some [5]
  | None => False
  end.
Proof.
  vm_compute. repeat split; discriminate.
Qed.

End DedupSaturation.

(** ** The build on an empty corpus *)

Section EmptyCorpus.
Import Indexer.

Lemma bind_Ret {A B} (m : run A) (f : A -> run B) fs x fs' :
  m fs = (Ret x, fs') -> (m ≫= f) fs = f x fs'.
Proof. intros H. unfold mbind, run_bind, bind. now rewrite H. Qed.

Lemma bind_Ret_inv {A B} (m : run A) (f : A -> run B) fs y fs2 :
  (m ≫= f) fs = (Ret y, fs2) ->
  exists x fs1, m fs = (Ret x, fs1) /\ f x fs1 = (Ret y, fs2).
Proof.
  unfold mbind, run_bind, bind. destruct (m fs) as [[x| |] fs1]; try discriminate.
  eauto.
Qed.

Lemma split_at_last_slash_join d b :
  split_at_last_slash b = None ->
  split_at_last_slash (d ++ String "/" b) = Some (d, b).
Proof.
  intros Hb. induction d as [|c d IH].
  - change (split_at_last_slash (String "/" b) = Some (EmptyString, b)).
    simpl. rewrite Hb. reflexivity.
  - change (split_at_last_slash (String c (d ++ String "/" b))
            = Some (String c d, b)).
    simpl. rewrite IH. reflexivity.
Qed.

Lemma split_path_join d b :
  split_at_last_slash b = None -> split_path (d ++ String "/" b) = (d, b).
Proof. intros Hb. unfold split_path. now rewrite split_at_last_slash_join. Qed.

Lemma append_neq_self (d s : string) : s <> EmptyString -> (d ++ s)%string <> d.
Proof.
  intros Hs. induction d as [|c d IH].
  - exact Hs.
  - change (String c (d ++ s) <> String c d). intros [= He]. now apply IH.
Qed.

Lemma find_put_entry_eq ents b data :
  List.find (file_entry b) (put_entry ents b data) = Some (b, data).
Proof.
  induction ents as [|e ents IH]; simpl.
  - unfold file_entry. simpl. now rewrite String.eqb_refl.
  - destruct (file_entry b e) eqn:He; simpl.
    + unfold file_entry. simpl. now rewrite String.eqb_refl.
    + rewrite He. exact IH.
Qed.

Lemma find_put_entry_ne ents b b' data :
  b <> b' ->
  List.find (file_entry b') (put_entry ents b data) = List.find (file_entry b') ents.
Proof.
  intros Hne. induction ents as [|e ents IH]; simpl.
  - unfold file_entry. simpl. apply String.eqb_neq in Hne. now rewrite Hne.
  - destruct (file_entry b e) eqn:He; simpl.
    + unfold file_entry in *. apply String.eqb_eq in He. simpl. rewrite He.
      apply String.eqb_neq in Hne. now rewrite Hne.
    + destruct (file_entry b' e); [reflexivity|exact IH].
Qed.

Lemma is_dir_true fs p : is_dir fs p = true <-> is_Some (fs !! p).
Proof. unfold is_dir. apply bool_decide_eq_true. Qed.

(** [ensure_dir] leaves the directory in place and touches nothing else. *)
Lemma ensure_dir_Ret p fs fs' :
  ensure_dir p fs = (Ret tt, fs') ->
  is_dir fs' p = true /\
  (forall q, is_dir fs q = true -> is_dir fs' q = true) /\
  (forall q, q <> p -> fs' !! q = fs !! q).
Proof.
  unfold ensure_dir. destruct (is_dir fs p) eqn:Hd.
  - intros [= <-]. auto.
  - destruct (bool_decide _); [discriminate|].
    destruct (is_dir fs (split_path p).1); [|discriminate].
    intros [= <-]. split; [|split].
    + apply is_dir_true. rewrite lookup_insert_eq. eauto.
    + intros q Hq. apply is_dir_true. apply is_dir_true in Hq.
      destruct (decide (p = q)) as [->|Hne].
      * rewrite lookup_insert_eq. eauto.
      * now rewrite lookup_insert_ne.
    + intros q Hq. now rewrite lookup_insert_ne.
Qed.

Lemma index_lines_unusable a blocks_dir st lines fs :
  Forall unusable_line lines ->
  index_lines a blocks_dir st lines fs = (Ret st, fs).
Proof.
  induction 1 as [|raw lines Hraw _ IH]; [reflexivity|].
  simpl. erewrite bind_Ret; [exact IH|].
  unfold index_line. unfold unusable_line in Hraw. now rewrite Hraw.
Qed.

(** With no usable manifest line and no block in the blocks directory the
    build writes the header of [docs.bin] and stops in
    [merge_blocks_to_index] with [exit(1)]. *)
Lemma main_empty_corpus (a : Args) (fs fs1 : FS) (data : list Z) :
  (ensure_dir (out_dir a) ≫= fun _ => ensure_dir (out_dir a ++ "/blocks")) fs
    = (Ret tt, fs1) ->
  read_file fs1 (manifest a) = Some data ->
  Forall unusable_line (manifest_lines data) ->
  is_dir fs1 (out_dir a ++ "/docs.bin") = false ->
  no_blocks fs1 (out_dir a ++ "/blocks") ->
  exists fs2,
    main a fs = (Exit 1, fs2) /\
    read_file fs2 (out_dir a ++ "/docs.bin") = Some (DocsHeader_bytes 0 0) /\
    read_file fs2 (out_dir a ++ "/lexicon.bin")
      = read_file fs1 (out_dir a ++ "/lexicon.bin") /\
    read_file fs2 (out_dir a ++ "/postings.bin")
      = read_file fs1 (out_dir a ++ "/postings.bin").
Proof.
  intros Hdirs Hman Hlines Hnodir Hnoblk.
  destruct (bind_Ret_inv _ _ _ _ _ Hdirs) as ([] & fs0 & Hd1 & Hd2).
  destruct (ensure_dir_Ret _ _ _ Hd1) as (Hout0 & _ & _).
  destruct (ensure_dir_Ret _ _ _ Hd2) as (Hblk & Hkeep & _).
  pose proof (Hkeep _ Hout0) as Hout. apply is_dir_true in Hout as [ents Hents].
  apply is_dir_true in Hblk as [bents Hbents].
  set (blocks_dir := (out_dir a ++ "/blocks")%string) in *.
  set (hdr := DocsHeader_bytes 0 0).
  set (fs2 := <[out_dir a := put_entry ents "docs.bin" hdr]> fs1).
  assert (Hsplit : forall b, split_at_last_slash b = None ->
            split_path (out_dir a ++ String "/" b) = (out_dir a, b))
    by (intros b Hb; now apply split_path_join).
  assert (Hwrite : write_file fs1 (out_dir a ++ "/docs.bin") hdr = Some fs2).
  { unfold write_file. rewrite (Hsplit "docs.bin"%string eq_refl), Hnodir, Hents.
    reflexivity. }
  assert (Hread : forall b, split_at_last_slash b = None -> b <> "docs.bin"%string ->
            read_file fs2 (out_dir a ++ String "/" b)
            = read_file fs1 (out_dir a ++ String "/" b)).
  { intros b Hb Hne. unfold read_file. rewrite (Hsplit b Hb). unfold fs2.
    rewrite lookup_insert_eq, Hents. simpl.
    rewrite find_put_entry_ne by congruence. reflexivity. }
  exists fs2. split; [|split; [|split]].
  - unfold main. fold blocks_dir.
    erewrite bind_Ret by exact Hd1. erewrite bind_Ret by exact Hd2.
    erewrite bind_Ret by reflexivity. rewrite Hman.
    erewrite bind_Ret by (apply index_lines_unusable; exact Hlines).
    erewrite bind_Ret by reflexivity.
    erewrite bind_Ret.
    2:{ unfold DocsBuilder_write_to, fwrite_all.
        change (db_n _) with 0. change (arena_used _) with 0.
        change (concat _) with (@nil Z). change (arena_buf _) with (@nil Z).
        rewrite !app_nil_r. fold hdr. rewrite Hwrite. reflexivity. }
    unfold mbind, run_bind, bind, merge_blocks_to_index.
    assert (Hb2 : fs2 !! blocks_dir = Some bents).
    { unfold fs2. rewrite lookup_insert_ne; [exact Hbents|].
      intros He. symmetry in He. revert He. now apply append_neq_self. }
    rewrite Hb2, (Hnoblk bents Hbents). reflexivity.
  - unfold read_file. rewrite (Hsplit "docs.bin"%string eq_refl). unfold fs2.
    rewrite lookup_insert_eq. simpl. rewrite find_put_entry_eq. reflexivity.
  - apply (Hread "lexicon.bin"%string); [reflexivity|discriminate].
  - apply (Hread "postings.bin"%string); [reflexivity|discriminate].
Qed.

(** C2 (amended). On a manifest without a usable line, with no [.blk] file
    in the blocks directory, the build does not succeed: it writes
    [docs.bin] with a valid header of [doc_count = 0], then
    [merge_blocks_to_index] finds no block and the process exits with status
    1; [lexicon.bin] and [postings.bin] are not written. *)
Theorem empty_corpus_build_exits (a : Args) (fs fs1 : FS) (data : list Z) :
  (ensure_dir (out_dir a) ≫= fun _ => ensure_dir (out_dir a ++ "/blocks")) fs
    = (Ret tt, fs1) ->
  read_file fs1 (manifest a) = Some data ->
  Forall unusable_line (manifest_lines data) ->
  is_dir fs1 (out_dir a ++ "/docs.bin") = false ->
  no_blocks fs1 (out_dir a ++ "/blocks") ->
  exists fs2,
    main a fs = (Exit 1, fs2) /\
    read_file fs2 (out_dir a ++ "/docs.bin")
      = Some (str "DOCS" ++ u32 1 ++ u32 0 ++ u64 0 ++ replicate 32 0) /\
    read_file fs2 (out_dir a ++ "/lexicon.bin")
      = read_file fs1 (out_dir a ++ "/lexicon.bin") /\
    read_file fs2 (out_dir a ++ "/postings.bin")
      = read_file fs1 (out_dir a ++ "/postings.bin").
Proof. apply main_empty_corpus. Qed.

Lemma fresh_fs_facts :
  (ensure_dir (out_dir fresh_args) ≫= fun _ => ensure_dir (out_dir fresh_args ++ "/blocks"))
    fresh_fs = (Ret tt, fresh_fs_with_dirs) /\
  read_file fresh_fs_with_dirs (manifest fresh_args) = Some [] /\
  is_dir fresh_fs_with_dirs (out_dir fresh_args ++ "/docs.bin") = false /\
  no_blocks fresh_fs_with_dirs (out_dir fresh_args ++ "/blocks") /\
  read_file fresh_fs_with_dirs (out_dir fresh_args ++ "/lexicon.bin") = None /\
  read_file fresh_fs_with_dirs (out_dir fresh_args ++ "/postings.bin") = None.
Proof.
  split; [vm_compute; reflexivity|].
  split; [reflexivity|]. split; [reflexivity|].
  split; [|split; reflexivity].
  intros ents Hents.
  assert (He : fresh_fs_with_dirs !! (out_dir fresh_args ++ "/blocks")%string
               = Some []) by reflexivity.
  rewrite He in Hents. injection Hents as <-. reflexivity.
Qed.

Lemma empty_corpus_build_exits_witness :
  exists fs2,
    main fresh_args fresh_fs = (Exit 1, fs2) /\
    read_file fs2 "out/docs.bin"
      = Some (str "DOCS" ++ u32 1 ++ u32 0 ++ u64 0 ++ replicate 32 0).
Proof.
  destruct fresh_fs_facts as (H1 & H2 & H3 & H4 & _).
  destruct (empty_corpus_build_exits fresh_args fresh_fs fresh_fs_with_dirs [] H1 H2
              ltac:(constructor) H3 H4) as (fs2 & Hm & Hd & _).
  exists fs2. split; [exact Hm|exact Hd].
Defined.

(** An empty manifest in a fresh directory: the build ends with status 1,
    not 0, and leaves neither [lexicon.bin] nor [postings.bin]. *)
Lemma empty_corpus_build_fails :
  exists fs2,
    main fresh_args fresh_fs = (Exit 1, fs2) /\
    main fresh_args fresh_fs <> (Ret 0, fs2) /\
    read_file fs2 "out/lexicon.bin" = None /\
    read_file fs2 "out/postings.bin" = None.
Proof.
  destruct fresh_fs_facts as (H1 & H2 & H3 & H4 & H5 & H6).
  destruct (main_empty_corpus fresh_args fresh_fs fresh_fs_with_dirs [] H1 H2
              ltac:(constructor) H3 H4) as (fs2 & Hm & _ & Hl & Hp).
  exists fs2. split; [exact Hm|]. split; [rewrite Hm; discriminate|].
  split; [rewrite <- H5; exact Hl|rewrite <- H6; exact Hp].
Qed.

End EmptyCorpus.

(** * Further properties *)

(** ** Hash values *)

Section Hashing.
Import Indexer.

Lemma fnv1a_64_loop_range s : forall h,
  0 <= h < 2 ^ 64 -> 0 <= fnv1a_64_loop s h < 2 ^ 64.
Proof.
  unfold fnv1a_64_loop.
  induction s as [|c s IH]; intros h Hh; simpl; [exact Hh|].
  apply IH. unfold wrap64. apply Z.mod_pos_bound. lia.
Qed.

(** [fnv1a_64] returns a non-zero 64-bit value on every input: 0 stays free
    to mark an empty slot. *)
Theorem fnv1a_64_range (s : list Z) (len : Z) : 0 < fnv1a_64 s len < 2 ^ 64.
Proof.
  unfold fnv1a_64.
  pose proof (fnv1a_64_loop_range (take (Z.to_nat len) s) 1469598103934665603
                ltac:(lia)) as Hr.
  destruct (Z.eqb_spec (fnv1a_64_loop (take (Z.to_nat len) s) 1469598103934665603) 0);
    lia.
Qed.

End Hashing.

(** ** The term order *)

Section TermOrder.
Import Indexer SearchCli.

(** [lex_cmp_str] on two terms given with their lengths is a strict total
    order up to sign: it is 0 exactly on equal terms, swapping the arguments
    swaps the sign, and "less than" is transitive. *)
Theorem lex_cmp_str_total_order (a b c : list Z) :
  (lex_cmp_str a (zlen a) b (zlen b) = 0 <-> a = b) /\
  (lex_cmp_str a (zlen a) b (zlen b) < 0 <-> 0 < lex_cmp_str b (zlen b) a (zlen a)) /\
  (lex_cmp_str a (zlen a) b (zlen b) < 0 ->
   lex_cmp_str b (zlen b) c (zlen c) < 0 ->
   lex_cmp_str a (zlen a) c (zlen c) < 0).
Proof.
  split; [apply term_cmp_eq|]. split; [apply term_cmp_flip|].
  apply (term_lt_trans a b c).
Qed.

(** A prefix sorts before its extensions: shorter is lesser on a tie. *)
Theorem lex_cmp_str_prefix (a b : list Z) :
  b <> [] -> lex_cmp_str a (zlen a) (a ++ b) (zlen (a ++ b)) = -1.
Proof.
  intros Hb. change (term_cmp a (a ++ b) = -1).
  induction a as [|x a IH]; simpl.
  - destruct b; [congruence|apply term_cmp_nil_cons].
  - rewrite term_cmp_cons_cons. rewrite Z.ltb_irrefl. exact IH.
Qed.

Lemma lex_cmp_str_prefix_witness :
  lex_cmp_str (str "world") 5 (str "worlds") 6 = -1.
Proof. apply (lex_cmp_str_prefix (str "world") (str "s")). discriminate. Defined.

(** The comparison [find_term] makes at a record is [lex_cmp_str] of the
    query term and the record's term: the reader searches under the order
    the builder sorted by. *)
Theorem find_term_uses_lex_cmp_str (idx : Index) (tb : list Z) (tlen mid : Z)
  (r : LexRec) :
  lex idx !! Z.to_nat mid = Some r ->
  0 <= term_off r -> 0 <= term_len r ->
  term_off r + term_len r <= zlen (term_pool idx) ->
  0 <= tlen <= zlen tb ->
  find_term_cmp idx tb tlen mid
  = lex_cmp_str (take (Z.to_nat tlen) tb) tlen (rec_term idx r) (term_len r).
Proof.
  intros Hr Ho Hl Hp Ht.
  rewrite (find_term_cmp_term_cmp idx tb tlen mid r Hr Ho Hl Hp Ht).
  unfold term_cmp. f_equal.
  - unfold zlen. rewrite length_take. unfold zlen in Ht. lia.
  - unfold rec_term, zlen. rewrite length_take, length_drop.
    unfold zlen in Hp. lia.
Qed.

Lemma find_term_uses_lex_cmp_str_witness :
  find_term_cmp small_index (str "cow" ++ replicate 253 0) 3 1
  = lex_cmp_str (str "cow") 3 (str "cats") 4.
Proof.
  apply (find_term_uses_lex_cmp_str small_index (str "cow" ++ replicate 253 0) 3 1
           (mkLexRec 4 4 0 1 48 1 0)); vm_compute; try reflexivity;
    try discriminate; split; discriminate.
Defined.

End TermOrder.

(** ** Algebra of the sorted-list combinators *)

Section CombinatorLaws.
Import Indexer SearchCli.

(** [op_and] on strictly ascending arrays of at most [2^31] ids is the
    intersection: every call returns with its values inside the buffer, the
    result is strictly ascending, and the operation is commutative,
    associative and idempotent. *)
Theorem op_and_laws (a b c : list Z) (out : U32Vec) :
  ascending a -> ascending b -> ascending c ->
  zlen a <= 2 ^ 31 -> zlen b <= 2 ^ 31 -> zlen c <= 2 ^ 31 ->
  cap_shape (vec_cap out) ->
  returns (op_and_v a b out) (op_and a b) /\
  ascending (op_and a b) /\
  (forall v, v ∈ op_and a b <-> v ∈ a /\ v ∈ b) /\
  returns (op_and_v b a out) (op_and a b) /\
  returns (op_and_v (op_and a b) c out) (op_and a (op_and b c)) /\
  returns (op_and_v a (op_and b c) out) (op_and a (op_and b c)) /\
  returns (op_and_v a a out) a.
Proof.
  intros Ha Hb Hc Na Nb Nc Ho.
  pose proof (op_and_ascending a b Ha Hb) as Hab.
  pose proof (op_and_ascending b c Hb Hc) as Hbc.
  assert (Ecomm : op_and b a = op_and a b).
  { apply ascending_ext; [now apply op_and_ascending|exact Hab|].
    intros v. rewrite !op_and_elem_of by assumption. tauto. }
  assert (Eassoc : op_and (op_and a b) c = op_and a (op_and b c)).
  { apply ascending_ext; [now apply op_and_ascending|now apply op_and_ascending|].
    intros v. rewrite !op_and_elem_of by assumption. tauto. }
  assert (Eidem : op_and a a = a).
  { apply ascending_ext; [now apply op_and_ascending|exact Ha|].
    intros v. rewrite op_and_elem_of by assumption. tauto. }
  split; [apply op_and_v_returns; [exact Ho|now left]|].
  split; [exact Hab|]. split; [intros v; now apply op_and_elem_of|].
  split; [rewrite <- Ecomm; apply op_and_v_returns; [exact Ho|now left]|].
  split; [rewrite <- Eassoc; apply op_and_v_returns; [exact Ho|now right]|].
  split; [apply op_and_v_returns; [exact Ho|now left]|].
  rewrite <- Eidem at 3. apply op_and_v_returns; [exact Ho|now left].
Qed.

Lemma op_and_laws_witness :
  returns (op_and_v [1; 3; 5; 8] [3; 4; 8] U32Vec_empty) [3; 8] /\
  returns (op_and_v [3; 4; 8] [1; 3; 5; 8] U32Vec_empty) [3; 8].
Proof.
  assert (Hs : forall l : list Z, zlen l <= 10 -> zlen l <= 2 ^ 31) by (intros; lia).
  assert (Ha : ascending [1; 3; 5; 8]) by (repeat constructor; lia).
  assert (Hb : ascending [3; 4; 8]) by (repeat constructor; lia).
  assert (Hc : ascending []) by constructor.
  assert (Ho : cap_shape (vec_cap U32Vec_empty)) by now left.
  destruct (op_and_laws [1; 3; 5; 8] [3; 4; 8] [] U32Vec_empty Ha Hb Hc)
    as (H1 & _ & _ & H2 & _);
    [apply Hs; vm_compute; discriminate ..|exact Ho|].
  split; [exact H1|exact H2].
Defined.

(** [op_or] on strictly ascending arrays that hold at most [2^30] ids
    together is the union: every call returns with its values inside the
    buffer, the result is strictly ascending, and the operation is
    commutative, associative and idempotent, with the empty array
    neutral. *)
Theorem op_or_laws (a b c : list Z) (out : U32Vec) :
  ascending a -> ascending b -> ascending c ->
  zlen a + zlen b + zlen c <= 2 ^ 30 ->
  cap_shape (vec_cap out) ->
  returns (op_or_v a b out) (op_or a b) /\
  ascending (op_or a b) /\
  (forall v, v ∈ op_or a b <-> v ∈ a \/ v ∈ b) /\
  returns (op_or_v b a out) (op_or a b) /\
  returns (op_or_v (op_or a b) c out) (op_or a (op_or b c)) /\
  returns (op_or_v a (op_or b c) out) (op_or a (op_or b c)) /\
  returns (op_or_v a a out) a /\
  returns (op_or_v a [] out) a /\ returns (op_or_v [] a out) a.
Proof.
  intros Ha Hb Hc Hn Ho.
  pose proof (op_or_ascending a b Ha Hb) as Hab.
  pose proof (op_or_ascending b c Hb Hc) as Hbc.
  assert (Ecomm : op_or b a = op_or a b).
  { apply ascending_ext; [now apply op_or_ascending|exact Hab|].
    intros v. rewrite !op_or_elem_of. tauto. }
  assert (Eassoc : op_or (op_or a b) c = op_or a (op_or b c)).
  { apply ascending_ext; [now apply op_or_ascending|now apply op_or_ascending|].
    intros v. rewrite !op_or_elem_of. tauto. }
  assert (Eidem : op_or a a = a).
  { apply ascending_ext; [now apply op_or_ascending|exact Ha|].
    intros v. rewrite op_or_elem_of. tauto. }
  assert (El : op_or a [] = a) by (destruct a; reflexivity).
  assert (Er : op_or [] a = a) by (destruct a; reflexivity).
  assert (Hlen : forall x y, zlen (op_or x y) <= zlen x + zlen y).
  { intros x y. pose proof (op_and_or_length x y).
    assert (0 <= zlen (op_and x y)) by (unfold zlen; lia). lia. }
  pose proof (Hlen a b). pose proof (Hlen b c).
  assert (0 <= zlen a /\ 0 <= zlen b /\ 0 <= zlen c) as (? & ? & ?)
    by (unfold zlen; lia).
  split; [apply op_or_v_returns; [exact Ho|lia]|].
  split; [exact Hab|]. split; [intros v; apply op_or_elem_of|].
  split; [rewrite <- Ecomm; apply op_or_v_returns; [exact Ho|lia]|].
  split; [rewrite <- Eassoc; apply op_or_v_returns; [exact Ho|lia]|].
  split; [apply op_or_v_returns; [exact Ho|lia]|].
  split; [rewrite <- Eidem at 3; apply op_or_v_returns; [exact Ho|lia]|].
  split.
  - rewrite <- El at 2. apply op_or_v_returns; [exact Ho|].
    change (zlen (@nil Z)) with 0. lia.
  - rewrite <- Er at 2. apply op_or_v_returns; [exact Ho|].
    change (zlen (@nil Z)) with 0. lia.
Qed.

Lemma op_or_laws_witness :
  returns (op_or_v (op_or [1; 3] [2; 3]) [0; 9] U32Vec_empty) [0; 1; 2; 3; 9] /\
  returns (op_or_v [1; 3] (op_or [2; 3] [0; 9]) U32Vec_empty) [0; 1; 2; 3; 9].
Proof.
  assert (Ha : ascending [1; 3]) by (repeat constructor; lia).
  assert (Hb : ascending [2; 3]) by (repeat constructor; lia).
  assert (Hc : ascending [0; 9]) by (repeat constructor; lia).
  assert (Ho : cap_shape (vec_cap U32Vec_empty)) by now left.
  destruct (op_or_laws [1; 3] [2; 3] [0; 9] U32Vec_empty Ha Hb Hc)
    as (_ & _ & _ & _ & H1 & H2 & _);
    [vm_compute; discriminate|exact Ho|].
  split; [exact H1|exact H2].
Defined.

(** With at most [2^30] documents and operands of at most [2^31] ids
    together, [op_not] returns, in strictly ascending order and inside its
    buffer, exactly the ids of [[0, doc_count)] that are not in its operand,
    and it turns unions into intersections and back (De Morgan). *)
Theorem op_not_complement (doc_count : Z) (a b : list Z) (out : U32Vec) :
  ascending a -> ascending b ->
  doc_count <= 2 ^ 30 -> zlen a + zlen b <= 2 ^ 31 ->
  cap_shape (vec_cap out) ->
  returns (op_not_v doc_count a out) (op_not doc_count a) /\
  ascending (op_not doc_count a) /\
  (forall v, v ∈ op_not doc_count a <-> 0 <= v < doc_count /\ v ∉ a) /\
  returns (op_not_v doc_count (op_or a b) out)
          (op_and (op_not doc_count a) (op_not doc_count b)) /\
  returns (op_and_v (op_not doc_count a) (op_not doc_count b) out)
          (op_and (op_not doc_count a) (op_not doc_count b)) /\
  returns (op_not_v doc_count (op_and a b) out)
          (op_or (op_not doc_count a) (op_not doc_count b)) /\
  returns (op_or_v (op_not doc_count a) (op_not doc_count b) out)
          (op_or (op_not doc_count a) (op_not doc_count b)).
Proof.
  intros Ha Hb Hd Hn Ho.
  pose proof (op_not_ascending doc_count a Ha) as Hna.
  pose proof (op_not_ascending doc_count b Hb) as Hnb.
  assert (E1 : op_not doc_count (op_or a b)
               = op_and (op_not doc_count a) (op_not doc_count b)).
  { apply ascending_ext.
    + apply op_not_ascending. now apply op_or_ascending.
    + now apply op_and_ascending.
    + intros v. rewrite op_and_elem_of by assumption.
      rewrite !op_not_elem_of by (assumption || now apply op_or_ascending).
      rewrite op_or_elem_of. tauto. }
  assert (E2 : op_not doc_count (op_and a b)
               = op_or (op_not doc_count a) (op_not doc_count b)).
  { apply ascending_ext.
    + apply op_not_ascending. now apply op_and_ascending.
    + now apply op_or_ascending.
    + intros v. rewrite op_or_elem_of.
      rewrite !op_not_elem_of by (assumption || now apply op_and_ascending).
      rewrite op_and_elem_of by assumption.
      destruct (decide (v ∈ a)); destruct (decide (v ∈ b)); tauto. }
  assert (Hl : forall x, zlen (op_not doc_count x) <= 2 ^ 30).
  { intros x. destruct (Z.le_gt_cases 0 doc_count).
    - pose proof (op_not_length doc_count x). lia.
    - unfold op_not. rewrite Z2Nat.nonpos by lia. simpl. unfold zlen. simpl. lia. }
  pose proof (Hl a). pose proof (Hl b).
  split; [apply op_not_v_returns; [exact Ho|lia]|].
  split; [exact Hna|]. split; [intros v; now apply op_not_elem_of|].
  split; [rewrite <- E1; apply op_not_v_returns; [exact Ho|lia]|].
  split; [apply op_and_v_returns; [exact Ho|left; lia]|].
  split; [rewrite <- E2; apply op_not_v_returns; [exact Ho|lia]|].
  apply op_or_v_returns; [exact Ho|lia].
Qed.

Lemma op_not_complement_witness :
  returns (op_not_v 5 (op_or [0; 2] [2; 4]) U32Vec_empty) [1; 3] /\
  returns (op_and_v (op_not 5 [0; 2]) (op_not 5 [2; 4]) U32Vec_empty) [1; 3].
Proof.
  assert (Ha : ascending [0; 2]) by (repeat constructor; lia).
  assert (Hb : ascending [2; 4]) by (repeat constructor; lia).
  assert (Ho : cap_shape (vec_cap U32Vec_empty)) by now left.
  destruct (op_not_complement 5 [0; 2] [2; 4] U32Vec_empty Ha Hb)
    as (_ & _ & _ & H1 & H2 & _);
    [lia|vm_compute; discriminate|exact Ho|].
  split; [exact H1|exact H2].
Defined.

(** [merge_union_u32] on strictly ascending arrays that hold fewer than
    [2^31] ids together does not depend on the order of its operands, is
    associative and idempotent, has the empty array as neutral element,
    writes no more than [na + nb] cells, and gives the array [op_or] of the
    search program returns on the same operands. *)
Theorem merge_union_u32_laws (a b c : list Z) (out : U32Vec) :
  ascending a -> ascending b -> ascending c ->
  zlen a + zlen b + zlen c < 2 ^ 31 ->
  cap_shape (vec_cap out) ->
  merge_union_u32 a b = merge_union_u32 b a /\
  merge_union_u32 (merge_union_u32 a b) c
    = merge_union_u32 a (merge_union_u32 b c) /\
  merge_union_u32 a a = a /\ merge_union_u32 a [] = a /\
  zlen (merge_union_u32 a b) <= zlen a + zlen b /\
  returns (op_or_v a b out) (merge_union_u32 a b).
Proof.
  intros Ha Hb Hc Hn Ho.
  assert (Hm : forall x y, ascending x -> ascending y ->
            ascending (merge_union_u32 x y) /\
            forall v, v ∈ merge_union_u32 x y <-> v ∈ x \/ v ∈ y).
  { intros x y Hx Hy. split.
    - apply merge_union_loop_ascending; try assumption; try constructor;
        apply Forall_forall; intros u _ w Hw; discriminate.
    - intros v. unfold merge_union_u32.
      rewrite merge_union_loop_In, elem_of_nil. tauto. }
  destruct (Hm a b Ha Hb) as [Sab Mab]. destruct (Hm b a Hb Ha) as [Sba Mba].
  destruct (Hm b c Hb Hc) as [Sbc Mbc]. destruct (Hm a a Ha Ha) as [Saa Maa].
  destruct (Hm a [] Ha ltac:(constructor)) as [Sa0 Ma0].
  destruct (Hm _ c Sab Hc) as [S1 M1]. destruct (Hm a _ Ha Sbc) as [S2 M2].
  assert (Eor : op_or a b = merge_union_u32 a b).
  { apply ascending_ext; [now apply op_or_ascending|assumption|].
    intros v. rewrite Mab, op_or_elem_of. tauto. }
  split; [|split; [|split; [|split; [|split]]]].
  - apply ascending_ext; try assumption. intros v. rewrite Mab, Mba. tauto.
  - apply ascending_ext; try assumption. intros v. rewrite M1, M2, Mab, Mbc. tauto.
  - apply ascending_ext; try assumption. intros v. rewrite Maa. tauto.
  - apply ascending_ext; try assumption. intros v. rewrite Ma0, elem_of_nil. tauto.
  - unfold merge_union_u32, zlen.
    pose proof (merge_union_loop_length a b []) as Hl. simpl in Hl. lia.
  - rewrite <- Eor. apply op_or_v_returns; [exact Ho|].
    assert (0 <= zlen c) by (unfold zlen; lia). lia.
Qed.

Lemma merge_union_u32_laws_witness :
  merge_union_u32 [0; 4; 6] [1; 4] = merge_union_u32 [1; 4] [0; 4; 6] /\
  returns (op_or_v [0; 4; 6] [1; 4] U32Vec_empty) [0; 1; 4; 6].
Proof.
  assert (Ha : ascending [0; 4; 6]) by (repeat constructor; lia).
  assert (Hb : ascending [1; 4]) by (repeat constructor; lia).
  assert (Hc : ascending []) by constructor.
  assert (Ho : cap_shape (vec_cap U32Vec_empty)) by now left.
  destruct (merge_union_u32_laws [0; 4; 6] [1; 4] [] U32Vec_empty Ha Hb Hc)
    as (H1 & _ & _ & _ & _ & H2);
    [vm_compute; reflexivity|exact Ho|].
  split; [exact H1|exact H2].
Defined.

(** While fewer than [2^31] ids are stored, [push_unique_sorted] keeps
    [n <= cap]: the store [a[n++] = v] is inside the buffer, and doubling
    the capacity does not wrap. *)
Theorem push_unique_sorted_in_bounds (ds : list Z) : forall l,
  cap_ok l -> U32List_n l + zlen ds <= 2 ^ 31 ->
  cap_ok (fold_left push_unique_sorted ds l).
Proof.
  induction ds as [|d ds IH]; intros l Hl Hn; simpl; [exact Hl|].
  unfold zlen in Hn. simpl length in Hn.
  apply IH.
  - apply push_unique_sorted_cap_ok; [exact Hl|lia].
  - assert (U32List_n (push_unique_sorted l d) <= U32List_n l + 1).
    { unfold U32List_n, zlen. rewrite push_unique_sorted_a.
      case_decide; [lia|]. rewrite length_app. simpl. lia. }
    unfold zlen. lia.
Qed.

Lemma push_unique_sorted_in_bounds_witness :
  cap_ok (fold_left push_unique_sorted [0; 1; 2; 3; 4; 5; 6; 7; 8; 9] U32List_empty).
Proof.
  apply push_unique_sorted_in_bounds.
  - split; [vm_compute; discriminate|left; reflexivity].
  - vm_compute. discriminate.
Defined.

End CombinatorLaws.

(** ** The query path *)

Section QueryPath.
Import SearchCli.

Lemma lower_alnum_to_lower c : is_ascii_alnum c = true -> lower_alnum (to_lower_ascii c).
Proof.
  unfold is_ascii_alnum, to_lower_ascii, lower_alnum.
  change (ch "0") with 48. change (ch "9") with 57. change (ch "A") with 65.
  change (ch "Z") with 90. change (ch "a") with 97. change (ch "z") with 122.
  intros H.
  destruct (Z.leb_spec 48 c); destruct (Z.leb_spec c 57);
    destruct (Z.leb_spec 65 c); destruct (Z.leb_spec c 90);
    destruct (Z.leb_spec 97 c); destruct (Z.leb_spec c 122);
    simpl in *; try discriminate; lia.
Qed.

Lemma take_insert_snoc (text : list Z) (kk : nat) c :
  (kk < length text)%nat -> take (S kk) (<[kk := c]> text) = take kk text ++ [c].
Proof.
  revert kk. induction text as [|x text IH]; intros kk Hk; simpl in Hk; [lia|].
  destruct kk as [|kk]; simpl.
  - now rewrite take_0.
  - rewrite IH by lia. reflexivity.
Qed.

Lemma scan_term_lower s : forall text kk text' k' rest,
  0 <= kk -> length text = 256%nat ->
  Forall lower_alnum (take (Z.to_nat kk) text) ->
  scan_term s text kk = (text', k', rest) ->
  Forall lower_alnum (take (Z.to_nat k') text').
Proof.
  induction s as [|c s IH]; intros text kk text' k' rest Hk Hl Hp H; simpl in H.
  - now injection H as <- <- <-.
  - destruct (is_ascii_alnum c) eqn:Hc; [|now injection H as <- <- <-].
    destruct (Z.ltb_spec kk 255).
    + eapply IH in H; [exact H|lia|now rewrite length_insert|].
      replace (Z.to_nat (kk + 1)) with (S (Z.to_nat kk)) by lia.
      rewrite take_insert_snoc by lia.
      apply Forall_app. split; [exact Hp|].
      constructor; [now apply lower_alnum_to_lower|constructor].
    + eapply IH in H; eassumption.
Qed.

(** A [TERM] token of the query lexer holds 1 to 255 bytes, each a digit or
    a lower-case letter, followed by a NUL. *)
Theorem next_term_lower_alnum (ts : list Z) (tok : Tok) (ts' : list Z) :
  next ts = (tok, ts') -> tok_type tok = T_TERM ->
  1 <= tok_len tok <= 255 /\
  Forall lower_alnum (take (Z.to_nat (tok_len tok)) (tok_text tok)) /\
  at_ (tok_text tok) (tok_len tok) = 0.
Proof.
  unfold next. destruct (skip_spaces ts) as [|c s'] eqn:Hsk.
  - intros [= <- <-]. discriminate.
  - repeat (match goal with
            | |- context [if ?c then _ else _] => destruct c eqn:?
            | |- context [match ?l with [] => _ | _ :: _ => _ end] => destruct l eqn:?
            end; try (intros [= <- <-]; discriminate)).
    destruct (scan_term (c :: s') (replicate 256 0) 0) as [[text k'] rest] eqn:Hsc.
    intros [= <- <-] _. simpl.
    pose proof Hsc as Hlen. apply scan_term_first in Hlen as (_ & Hl & Hk); [|assumption].
    rewrite length_replicate in Hl.
    split; [exact Hk|]. split.
    + rewrite take_insert_ge by lia.
      apply (scan_term_lower (c :: s') (replicate 256 0) 0 text k' rest);
        [lia|apply length_replicate|constructor|exact Hsc].
    + unfold at_. rewrite nth_lookup, list_lookup_insert_eq by lia. reflexivity.
Qed.

Lemma next_term_lower_alnum_witness :
  Forall lower_alnum (str "w0rld").
Proof.
  apply (next_term_lower_alnum (str "  W0rLD!") 
           (mkTok T_TERM (str "w0rld" ++ replicate 251 0) 5) (str "!"));
    reflexivity.
Defined.

(** The stem of a non-empty word is not empty. *)
Theorem stem_word_en_nonempty (w : list Z) (n : Z) :
  1 <= n < zlen w ->
  exists w' n', Stemming.stem_word_en w n = Some (w', n') /\ 1 <= n' <= n.
Proof.
  intros Hn.
  destruct (porter_stem_inplace_bounds w n ltac:(lia)) as (w' & n' & He & Hb & Hp & _).
  exists w', n'. split; [exact He|]. split; [apply Hp; lia|lia].
Qed.

Lemma stem_word_en_nonempty_witness :
  exists w' n', Stemming.stem_word_en (str "ies" ++ replicate 253 0) 3 = Some (w', n')
                /\ 1 <= n' <= 3.
Proof. apply stem_word_en_nonempty. vm_compute. split; [discriminate|reflexivity]. Defined.

(** *** Shape of the postfix output *)

Lemma rpn_item_of_op top :
  rpn_op_ok top -> top <> T_LP -> rpn_item_ok (RpnItem_of top).
Proof.
  intros [-> | [-> | [-> | ->]]] Hne; unfold rpn_item_ok; simpl; auto. congruence.
Qed.

Lemma pop_ops_ok op ops : forall out ops' out',
  Forall rpn_op_ok ops -> Forall rpn_item_ok out ->
  pop_ops op ops out = (ops', out') ->
  Forall rpn_op_ok ops' /\ Forall rpn_item_ok out'.
Proof.
  induction ops as [|top ops IH]; intros out ops' out' Ho Hout; simpl.
  - intros [= <- <-]. auto.
  - inversion Ho as [|? ? Htop Hrest]; subst.
    case_bool_decide as Hlp; [intros [= <- <-]; auto|].
    destruct (_ || _); [|intros [= <- <-]; auto].
    apply IH; [exact Hrest|].
    apply Forall_app. split; [exact Hout|]. constructor; [|constructor].
    now apply rpn_item_of_op.
Qed.

Lemma push_op_ok op ops out ops' out' :
  rpn_op_ok op -> Forall rpn_op_ok ops -> Forall rpn_item_ok out ->
  push_op op ops out = (ops', out') ->
  Forall rpn_op_ok ops' /\ Forall rpn_item_ok out'.
Proof.
  intros Hop Ho Hout. unfold push_op.
  destruct (pop_ops op ops out) as [ops1 out1] eqn:Hp.
  apply pop_ops_ok in Hp as [H1 H2]; [|assumption..].
  intros [= <- <-]. split; [constructor|]; assumption.
Qed.

Lemma close_paren_ok ops : forall out ops' out',
  Forall rpn_op_ok ops -> Forall rpn_item_ok out ->
  close_paren ops out = (ops', out') ->
  Forall rpn_op_ok ops' /\ Forall rpn_item_ok out'.
Proof.
  induction ops as [|top ops IH]; intros out ops' out' Ho Hout; simpl.
  - intros [= <- <-]. auto.
  - inversion Ho as [|? ? Htop Hrest]; subst.
    case_bool_decide as Hlp; [intros [= <- <-]; auto|].
    apply IH; [exact Hrest|].
    apply Forall_app. split; [exact Hout|]. constructor; [|constructor].
    now apply rpn_item_of_op.
Qed.

Lemma drain_ops_ok ops : forall out,
  Forall rpn_op_ok ops -> Forall rpn_item_ok out ->
  Forall rpn_item_ok (drain_ops ops out).
Proof.
  induction ops as [|top ops IH]; intros out Ho Hout; simpl; [exact Hout|].
  inversion Ho as [|? ? Htop Hrest]; subst.
  case_bool_decide as Hlp; [now apply IH|].
  apply IH; [exact Hrest|].
  apply Forall_app. split; [exact Hout|]. constructor; [|constructor].
  now apply rpn_item_of_op.
Qed.

Lemma to_rpn_token_ok tok st st' :
  tok_wf tok -> rpn_state_ok st -> to_rpn_token tok st = Some st' ->
  rpn_state_ok st'.
Proof.
  intros [He Hterm] [Hops Hout]. unfold to_rpn_token.
  destruct (if is_value_token (tok_type (rpn_prev st)) && can_start_value (tok_type tok)
            then push_op T_AND (rpn_ops st) (rpn_out st)
            else (rpn_ops st, rpn_out st)) as [ops out] eqn:Hpre.
  assert (Hpre' : Forall rpn_op_ok ops /\ Forall rpn_item_ok out).
  { destruct (_ && _).
    - eapply push_op_ok; [| | |exact Hpre]; [unfold rpn_op_ok; auto|assumption..].
    - injection Hpre as <- <-. auto. }
  destruct Hpre' as [Ho Hu].
  destruct (tok_type tok) eqn:Hty; try congruence.
  - destruct (Hterm eq_refl) as [Hlen Htext].
    destruct (normalize_term_nonempty _ _ Htext Hlen) as (s' & n & -> & Hn).
    simpl. replace (0 <? n) with true by (symmetry; apply Z.ltb_lt; lia).
    intros [= <-]. split; simpl; [exact Ho|].
    apply Forall_app. split; [exact Hu|]. constructor; [|constructor].
    left. simpl. split; [reflexivity|lia].
  - destruct (push_op T_AND ops out) as [ops1 out1] eqn:Hp.
    intros [= <-]. eapply push_op_ok in Hp; [exact Hp| |assumption..].
    unfold rpn_op_ok; auto.
  - destruct (push_op T_OR ops out) as [ops1 out1] eqn:Hp.
    intros [= <-]. eapply push_op_ok in Hp; [exact Hp| |assumption..].
    unfold rpn_op_ok; auto.
  - destruct (push_op T_NOT ops out) as [ops1 out1] eqn:Hp.
    intros [= <-]. eapply push_op_ok in Hp; [exact Hp| |assumption..].
    unfold rpn_op_ok; auto.
  - intros [= <-]. split; simpl; [|exact Hu].
    constructor; [unfold rpn_op_ok; auto|exact Ho].
  - destruct (close_paren ops out) as [ops1 out1] eqn:Hp.
    intros [= <-]. eapply close_paren_ok in Hp; [exact Hp|assumption..].
  - intros [= <-]. split; assumption.
Qed.

Lemma rpn_feed_ok toks : forall st st',
  Forall tok_wf toks -> rpn_state_ok st -> rpn_feed toks st = Some st' ->
  rpn_state_ok st'.
Proof.
  induction toks as [|tok toks IH]; intros st st' Hwf Hst; simpl.
  - now intros [= <-].
  - inversion Hwf as [|? ? Htok Hwf']; subst.
    case_bool_decide as Hb; [now apply IH|].
    destruct (to_rpn_token tok st) as [st1|] eqn:H1; [|discriminate].
    simpl. apply IH; [exact Hwf'|]. eapply to_rpn_token_ok; eassumption.
Qed.

Lemma to_rpn_ok (line : list Z) :
  exists rpn, to_rpn line = Some rpn /\ Forall rpn_item_ok rpn.
Proof.
  destruct (rpn_feed_spec (token_stream line)) as (toks' & _ & _ & Hfeed).
  { apply lex_all_wf. }
  rewrite to_rpn_feed.
  pose proof (Hfeed (mkRpn [] Tok_end [])) as Hf. rewrite Hf. simpl.
  eexists. split; [reflexivity|].
  destruct (rpn_feed_ok (token_stream line) (mkRpn [] Tok_end []) _
              (lex_all_wf _ _) ltac:(split; constructor) Hf) as [Ho Hu].
  now apply drain_ops_ok.
Qed.

(** [to_rpn] ends on every line, and its output holds terms of 1 to 255
    bytes and the operators AND, OR, NOT only: no parenthesis, no empty
    term. *)
Theorem to_rpn_output_shape (line : list Z) :
  exists rpn, to_rpn line = Some rpn /\ Forall rpn_item_ok rpn.
Proof. apply to_rpn_ok. Qed.

(** *** Results of the evaluator *)









(** Above [2^31] documents the query [!] alone never gets its result: the
    vector of [op_not] cannot be reserved. *)
Lemma eval_rpn_v_never idx :
  2 ^ 31 < doc_count idx -> eval_rpn_v idx [RpnItem_of T_NOT] = None.
Proof.
  intros Hd. unfold eval_rpn_v. simpl.
  rewrite op_not_v_never; [reflexivity|now left|exact Hd].
Qed.




End QueryPath.

(** ** The hash tables of the builder *)

Section HashTables.
Import Indexer.

Lemma memcmp_refl n : forall s, memcmp s s n = 0.
Proof.
  induction n as [|n IH]; intros s; simpl; [reflexivity|].
  rewrite Z.ltb_irrefl. apply IH.
Qed.

Lemma memcmp_take_self (s : list Z) n : memcmp (take n s) s n = 0.
Proof. rewrite memcmp_take_l by lia. apply memcmp_refl. Qed.

(** *** DocTermSet *)

Lemma ds_occupied_bounds tab : 0 <= ds_occupied tab <= zlen tab.
Proof.
  unfold ds_occupied, zlen. pose proof (List.filter_length_le
    (fun e => negb (de_hash e =? 0)) tab). lia.
Qed.

Lemma ds_occupied_replicate n : ds_occupied (replicate n DocSetEntry_zero) = 0.
Proof. induction n as [|n IH]; [reflexivity|exact IH]. Qed.

Lemma ds_occupied_cons e tab :
  ds_occupied (e :: tab) = (if de_hash e =? 0 then 0 else 1) + ds_occupied tab.
Proof.
  unfold ds_occupied, zlen. simpl. destruct (de_hash e =? 0); simpl; lia.
Qed.

Lemma ds_occupied_insert tab : forall p e,
  (p < length tab)%nat -> de_hash (nth p tab DocSetEntry_zero) = 0 ->
  de_hash e <> 0 ->
  ds_occupied (<[p := e]> tab) = ds_occupied tab + 1.
Proof.
  induction tab as [|x tab IH]; intros p e Hp H0 He; simpl in Hp; [lia|].
  destruct p as [|p]; simpl in *.
  - rewrite !ds_occupied_cons, H0.
    destruct (Z.eqb_spec (de_hash e) 0); [contradiction|]. simpl. lia.
  - rewrite !ds_occupied_cons, IH by (assumption || lia). lia.
Qed.

Lemma ds_empty_slot_exists tab :
  ds_occupied tab < zlen tab ->
  exists p, 0 <= p < zlen tab /\ de_hash (dslot tab p) = 0.
Proof.
  induction tab as [|x tab IH]; intros Hlt.
  - unfold ds_occupied, zlen in Hlt. simpl in Hlt. lia.
  - rewrite ds_occupied_cons in Hlt. unfold zlen in *. simpl length in *.
    destruct (Z.eqb_spec (de_hash x) 0) as [H0|Hne].
    + exists 0. split; [lia|]. exact H0.
    + destruct IH as (p & Hp & Hz); [lia|].
      exists (p + 1). split; [lia|]. unfold dslot in *.
      replace (Z.to_nat (p + 1)) with (S (Z.to_nat p)) by lia. exact Hz.
Qed.

(** What a probe that ends does: it answers 1 and changes nothing, or it
    answers 0 and fills one empty slot with the term. *)
Lemma contains_or_add_probe_effect ds s len h (d : nat) : forall fuel pos k,
  0 <= k -> ds_cap ds = 2 ^ k -> zlen (ds_tab ds) = ds_cap ds -> h <> 0 ->
  (d < fuel)%nat -> 0 <= pos < ds_cap ds ->
  de_hash (dslot (ds_tab ds) ((pos + Z.of_nat d) mod ds_cap ds)) = 0 ->
  exists r ds', contains_or_add_probe fuel ds s len h (ds_cap ds - 1) pos
                = Some (r, ds') /\
    ((r = 1 /\ ds' = ds) \/
     (r = 0 /\ exists p, 0 <= p < ds_cap ds /\ de_hash (dslot (ds_tab ds) p) = 0 /\
        ds' = mkDocTermSet
                (<[Z.to_nat p := mkDocSetEntry h (take (Z.to_nat len) s)
                                               (len mod 2 ^ 16)]> (ds_tab ds))
                (ds_cap ds) (ds_used ds + 1) (Arena_add (ds_arena ds) s len))).
Proof.
  induction d as [|d IH]; intros fuel pos k Hk Hcap Hlen Hh Hf Hp Hz;
    (destruct fuel as [|fuel]; [lia|]); simpl.
  - rewrite Z.add_0_r, Z.mod_small in Hz by lia. rewrite Hz. simpl.
    eexists _, _. split; [reflexivity|]. right. split; [reflexivity|].
    exists pos. auto.
  - destruct (Z.eqb_spec (de_hash (dslot (ds_tab ds) pos)) 0) as [H0|Hne].
    + eexists _, _. split; [reflexivity|]. right. split; [reflexivity|].
      exists pos. auto.
    + destruct (_ && _).
      * eexists _, _. split; [reflexivity|]. left. auto.
      * assert (Hpos : 0 < ds_cap ds) by (rewrite Hcap; apply Z.pow_pos_nonneg; lia).
        rewrite (next_pos (ds_cap ds) k) by assumption.
        eapply IH; try eassumption; [lia|apply Z.mod_pos_bound; lia|].
        rewrite (step_mod (ds_cap ds) k) by assumption.
        rewrite <- Hz. f_equal. f_equal. lia.
Qed.

(** [contains_or_add] on a well-formed set: it ends, it answers 0 or 1, it
    keeps the set well-formed, and it adds at most one entry. *)
Lemma contains_or_add_effect (ds : DocTermSet) (s : list Z) (len : Z) :
  ds_wf ds ->
  exists r ds', contains_or_add ds s len = Some (r, ds') /\
    (r = 0 \/ r = 1) /\ ds_wf ds' /\ ds_cap ds' = ds_cap ds /\
    ds_used ds <= ds_used ds' <= ds_used ds + 1 /\
    (ds_used ds' = ds_used ds \/ ds_used ds * 10 < ds_cap ds * 8).
Proof.
  intros Hwf. pose proof Hwf as ((k & Hk & Hcap) & Hlen & Hused).
  unfold contains_or_add.
  destruct (len <=? 0).
  { exists 1, ds. split; [reflexivity|]. split; [now right|].
    split; [exact Hwf|]. split; [reflexivity|]. split; [lia|now left]. }
  destruct (Z.leb_spec (ds_cap ds * 8) (ds_used ds * 10)) as [Hsat|Hroom].
  { exists 0, ds. split; [reflexivity|]. split; [now left|].
    split; [exact Hwf|]. split; [reflexivity|]. split; [lia|now left]. }
  assert (Hpos : 0 < ds_cap ds) by (rewrite Hcap; apply Z.pow_pos_nonneg; lia).
  destruct (ds_empty_slot_exists (ds_tab ds)) as (e & He & Hz); [lia|].
  rewrite Hlen in He.
  set (h := fnv1a_64 s len).
  set (pos0 := Z.land h (ds_cap ds - 1)).
  assert (Hp0 : 0 <= pos0 < ds_cap ds).
  { unfold pos0. rewrite (land_mask _ _ k) by assumption. apply Z.mod_pos_bound. lia. }
  destruct (contains_or_add_probe_effect ds s len h
              (Z.to_nat ((e - pos0) mod ds_cap ds)) (Z.to_nat (ds_cap ds)) pos0 k)
    as (r & ds' & Hprobe & Heff); try assumption.
  { apply fnv1a_64_nonzero. }
  { pose proof (Z.mod_pos_bound (e - pos0) (ds_cap ds) ltac:(lia)). lia. }
  { rewrite Z2Nat.id by (apply Z.mod_pos_bound; lia).
    rewrite Z.add_mod_idemp_r by lia.
    replace (pos0 + (e - pos0)) with e by lia.
    rewrite Z.mod_small by lia. exact Hz. }
  exists r, ds'. split; [exact Hprobe|].
  destruct Heff as [[-> ->]|(-> & p & Hp & Hpz & ->)].
  - split; [now right|]. split; [exact Hwf|]. split; [reflexivity|].
    split; [lia|now left].
  - simpl. split; [now left|]. split; [|split; [reflexivity|split; [lia|now right]]].
    split; [eauto|]. simpl. split.
    + unfold zlen in *. now rewrite length_insert.
    + rewrite ds_occupied_insert; [lia|unfold zlen in Hlen; lia|exact Hpz|].
      apply fnv1a_64_nonzero.
Qed.

(** The probe loop of [contains_or_add] always ends on a well-formed set:
    it answers 0 or 1, keeps the set well-formed, adds at most one entry,
    and adds one only below 80% load.  [DocTermSet::init] and [reset] give
    well-formed sets, so this holds for every call. *)
Theorem contains_or_add_terminates (ds : DocTermSet) (s : list Z) (len : Z) :
  ds_wf ds ->
  exists r ds', contains_or_add ds s len = Some (r, ds') /\
    (r = 0 \/ r = 1) /\ ds_wf ds' /\
    ds_used ds <= ds_used ds' <= ds_used ds + 1 /\
    (ds_used ds' = ds_used ds + 1 -> ds_used ds * 10 < ds_cap ds * 8).
Proof.
  intros Hwf.
  destruct (contains_or_add_effect ds s len Hwf)
    as (r & ds' & He & Hr & Hwf' & Hc & Hu & Hg).
  exists r, ds'. split; [exact He|]. split; [exact Hr|].
  split; [exact Hwf'|]. split; lia.
Qed.

Lemma DocTermSet_init_wf k arena_bytes :
  0 <= k -> ds_wf (DocTermSet_init (2 ^ k) arena_bytes).
Proof.
  intros Hk. assert (0 < 2 ^ k) by (apply Z.pow_pos_nonneg; lia).
  split; [eauto|]. simpl. split.
  - unfold zlen. rewrite length_replicate. lia.
  - now rewrite ds_occupied_replicate.
Qed.

Lemma DocTermSet_reset_wf ds : ds_wf ds -> ds_wf (DocTermSet_reset ds).
Proof.
  intros ((k & Hk & Hcap) & _ & _).
  assert (0 < ds_cap ds) by (rewrite Hcap; apply Z.pow_pos_nonneg; lia).
  split; [eauto|]. simpl. split.
  - unfold zlen. rewrite length_replicate. lia.
  - now rewrite ds_occupied_replicate.
Qed.

Lemma contains_or_add_terminates_witness :
  exists r ds', contains_or_add (DocTermSet_init 8 64) (str "hello") 5 = Some (r, ds') /\
    (r = 0 \/ r = 1) /\ ds_wf ds' /\
    ds_used (DocTermSet_init 8 64) <= ds_used ds' <= ds_used (DocTermSet_init 8 64) + 1 /\
    (ds_used ds' = ds_used (DocTermSet_init 8 64) + 1 ->
     ds_used (DocTermSet_init 8 64) * 10 < ds_cap (DocTermSet_init 8 64) * 8).
Proof. apply contains_or_add_terminates. apply (DocTermSet_init_wf 3). lia. Defined.

Lemma nth_insert_ne {A} (l : list A) (i j : nat) (x d : A) :
  i <> j -> nth i (<[j := x]> l) d = nth i l d.
Proof. intros Hij. now rewrite !nth_lookup, list_lookup_insert_ne by auto. Qed.

Lemma nth_insert_eq {A} (l : list A) (i : nat) (x d : A) :
  (i < length l)%nat -> nth i (<[i := x]> l) d = x.
Proof. intros Hi. now rewrite nth_lookup, list_lookup_insert_eq by auto. Qed.

Lemma contains_or_add_probe_eq fuel ds s len h mask pos :
  contains_or_add_probe (S fuel) ds s len h mask pos =
  if de_hash (dslot (ds_tab ds) pos) =? 0 then
    Some (0, mkDocTermSet
               (<[Z.to_nat pos := mkDocSetEntry h (take (Z.to_nat len) s)
                                                (len mod 2 ^ 16)]> (ds_tab ds))
               (ds_cap ds) (ds_used ds + 1) (Arena_add (ds_arena ds) s len))
  else if (de_hash (dslot (ds_tab ds) pos) =? h)
          && (de_len (dslot (ds_tab ds) pos) =? len mod 2 ^ 16)
          && (memcmp (de_term (dslot (ds_tab ds) pos)) s (Z.to_nat len) =? 0)
  then Some (1, ds)
  else contains_or_add_probe fuel ds s len h mask (Z.land (pos + 1) mask).
Proof. reflexivity. Qed.

(** A probe only ever writes to a slot that was empty. *)
Lemma contains_or_add_probe_frame s len h mask : forall fuel ds pos r ds',
  contains_or_add_probe fuel ds s len h mask pos = Some (r, ds') ->
  ds_cap ds' = ds_cap ds /\ ds_used ds' <= ds_used ds + 1 /\
  forall q, de_hash (dslot (ds_tab ds) q) <> 0 ->
            dslot (ds_tab ds') q = dslot (ds_tab ds) q.
Proof.
  induction fuel as [|fuel IH]; intros ds pos r ds' H; [discriminate|].
  rewrite contains_or_add_probe_eq in H.
  destruct (Z.eqb_spec (de_hash (dslot (ds_tab ds) pos)) 0) as [H0|Hne].
  - injection H as <- <-. simpl. split; [reflexivity|]. split; [lia|].
    intros q Hq. unfold dslot. apply nth_insert_ne. intros Heq. apply Hq.
    unfold dslot. rewrite Heq. exact H0.
  - destruct (_ && _) in H.
    + injection H as <- <-. split; [reflexivity|]. split; [lia|]. reflexivity.
    + eapply IH; eassumption.
Qed.

Lemma contains_or_add_probe_again s len h cap k :
  0 <= k -> cap = 2 ^ k -> h <> 0 ->
  forall fuel ds pos r ds',
  ds_cap ds = cap -> zlen (ds_tab ds) = cap -> 0 <= pos < cap ->
  contains_or_add_probe fuel ds s len h (cap - 1) pos = Some (r, ds') ->
  contains_or_add_probe fuel ds' s len h (cap - 1) pos = Some (1, ds').
Proof.
  intros Hk Hcap Hh.
  induction fuel as [|fuel IH]; intros ds pos r ds' Hc Hl Hp H; [discriminate|].
  pose proof (contains_or_add_probe_frame _ _ _ _ _ _ _ _ _ H) as (_ & _ & Hframe).
  rewrite contains_or_add_probe_eq in H. rewrite contains_or_add_probe_eq.
  destruct (de_hash (dslot (ds_tab ds) pos) =? 0) eqn:E0.
  - injection H as <- <-. simpl.
    assert (Hs : dslot (<[Z.to_nat pos := mkDocSetEntry h (take (Z.to_nat len) s)
                                              (len mod 2 ^ 16)]> (ds_tab ds)) pos
                 = mkDocSetEntry h (take (Z.to_nat len) s) (len mod 2 ^ 16)).
    { apply nth_insert_eq. unfold zlen in Hl. lia. }
    rewrite Hs. simpl.
    destruct (Z.eqb_spec h 0); [contradiction|].
    now rewrite !Z.eqb_refl, memcmp_take_self.
  - rewrite Hframe by (apply Z.eqb_neq; exact E0). rewrite E0.
    destruct (_ && _) eqn:Ec.
    + injection H as <- <-. reflexivity.
    + apply (IH ds _ r); try assumption.
      pose proof (cap_pos cap k Hk Hcap).
      rewrite (next_pos cap k Hk Hcap). apply Z.mod_pos_bound. lia.
Qed.

(** Below the load limit the set works as a set: the call for a term leaves
    the set in a state where the same term is reported as present (1), and
    reporting it changes nothing.  A term therefore reaches the posting
    lists once per document while the set has room. *)
Theorem contains_or_add_again (ds : DocTermSet) (s : list Z) (len : Z) :
  ds_wf ds -> (ds_used ds + 1) * 10 < ds_cap ds * 8 ->
  exists r ds', contains_or_add ds s len = Some (r, ds') /\
                contains_or_add ds' s len = Some (1, ds').
Proof.
  intros Hwf Hroom. pose proof Hwf as ((k & Hk & Hcap) & Hlen & Hused).
  destruct (contains_or_add_effect ds s len Hwf)
    as (r & ds' & He & _ & _ & Hc & Hu & _).
  exists r, ds'. split; [exact He|].
  unfold contains_or_add in *.
  destruct (len <=? 0); [now injection He as <- <-|].
  destruct (Z.leb_spec (ds_cap ds * 8) (ds_used ds * 10)); [lia|].
  destruct (Z.leb_spec (ds_cap ds' * 8) (ds_used ds' * 10)); [lia|].
  rewrite Hc.
  eapply (contains_or_add_probe_again s len _ (ds_cap ds) k Hk Hcap);
    [apply fnv1a_64_nonzero|reflexivity|exact Hlen| |exact He].
  rewrite (land_mask _ _ k) by assumption. apply Z.mod_pos_bound.
  apply (cap_pos _ k Hk Hcap).
Qed.

Lemma contains_or_add_again_witness :
  exists r ds', contains_or_add (DocTermSet_init 8 64) (str "hello") 5 = Some (r, ds') /\
                contains_or_add ds' (str "hello") 5 = Some (1, ds').
Proof.
  apply contains_or_add_again; [apply (DocTermSet_init_wf 3); lia|simpl; lia].
Defined.

(** *** TermTable *)

Lemma get_or_create_probe_eq fuel tt s len h mask pos :
  get_or_create_probe (S fuel) tt s len h mask pos =
  if te_hash (slot (tt_tab tt) pos) =? 0 then
    Some (mkTermTable
            (<[Z.to_nat pos := mkTermEntry h (take (Z.to_nat len) s)
                                 (len mod 2 ^ 16) U32List_empty]> (tt_tab tt))
            (tt_cap tt) (tt_used tt + 1) (Arena_add (tt_arena tt) s len), pos)
  else if (te_hash (slot (tt_tab tt) pos) =? h)
          && (te_len (slot (tt_tab tt) pos) =? len mod 2 ^ 16)
          && (memcmp (te_term (slot (tt_tab tt) pos)) s (Z.to_nat len) =? 0)
  then Some (tt, pos)
  else get_or_create_probe fuel tt s len h mask (Z.land (pos + 1) mask).
Proof. reflexivity. Qed.

(** What a probe that ends has done: the slot it returns is in use and holds
    the hash; the table is unchanged, or that slot was empty and now holds a
    new entry with an empty posting list.  No other slot is touched. *)
Lemma get_or_create_probe_inv s len h mask : forall fuel tt pos tt2 p,
  get_or_create_probe fuel tt s len h mask pos = Some (tt2, p) ->
  tt_cap tt2 = tt_cap tt /\
  ((tt2 = tt /\ te_hash (slot (tt_tab tt) p) <> 0 /\
    te_hash (slot (tt_tab tt) p) = h) \/
   (te_hash (slot (tt_tab tt) p) = 0 /\
    tt2 = mkTermTable
            (<[Z.to_nat p := mkTermEntry h (take (Z.to_nat len) s)
                               (len mod 2 ^ 16) U32List_empty]> (tt_tab tt))
            (tt_cap tt) (tt_used tt + 1) (Arena_add (tt_arena tt) s len))).
Proof.
  induction fuel as [|fuel IH]; intros tt pos tt2 p H; [discriminate|].
  rewrite get_or_create_probe_eq in H.
  destruct (Z.eqb_spec (te_hash (slot (tt_tab tt) pos)) 0) as [H0|Hne].
  - injection H as <- <-. split; [reflexivity|]. right. auto.
  - destruct (Z.eqb_spec (te_hash (slot (tt_tab tt) pos)) h) as [Heq|Hneq];
      simpl in H; [|eapply IH; eassumption].
    destruct (_ && _) in H.
    + injection H as <- <-. split; [reflexivity|]. left. auto.
    + eapply IH; eassumption.
Qed.

Lemma get_or_create_probe_frame s len h mask fuel tt pos tt2 p :
  get_or_create_probe fuel tt s len h mask pos = Some (tt2, p) ->
  forall q, te_hash (slot (tt_tab tt) q) <> 0 ->
            slot (tt_tab tt2) q = slot (tt_tab tt) q.
Proof.
  intros H q Hq.
  destruct (get_or_create_probe_inv _ _ _ _ _ _ _ _ _ H)
    as (_ & [(-> & _)|[H0 ->]]); [reflexivity|].
  simpl. unfold slot. apply nth_insert_ne. intros Heq. apply Hq.
  unfold slot. rewrite Heq. exact H0.
Qed.

Lemma get_or_create_probe_again s len h cap k :
  0 <= k -> cap = 2 ^ k -> h <> 0 ->
  forall fuel tt pos tt2 p,
  tt_cap tt = cap -> zlen (tt_tab tt) = cap -> 0 <= pos < cap ->
  get_or_create_probe fuel tt s len h (cap - 1) pos = Some (tt2, p) ->
  get_or_create_probe fuel tt2 s len h (cap - 1) pos = Some (tt2, p).
Proof.
  intros Hk Hcap Hh.
  induction fuel as [|fuel IH]; intros tt pos tt2 p Hc Hl Hp H; [discriminate|].
  pose proof (get_or_create_probe_frame _ _ _ _ _ _ _ _ _ H) as Hframe.
  rewrite get_or_create_probe_eq in H. rewrite get_or_create_probe_eq.
  destruct (te_hash (slot (tt_tab tt) pos) =? 0) eqn:E0.
  - injection H as <- <-. simpl.
    assert (Hs : slot (<[Z.to_nat pos := mkTermEntry h (take (Z.to_nat len) s)
                           (len mod 2 ^ 16) U32List_empty]> (tt_tab tt)) pos
                 = mkTermEntry h (take (Z.to_nat len) s) (len mod 2 ^ 16)
                               U32List_empty).
    { apply nth_insert_eq. unfold zlen in Hl. lia. }
    rewrite Hs. simpl.
    destruct (Z.eqb_spec h 0); [contradiction|].
    now rewrite !Z.eqb_refl, memcmp_take_self.
  - rewrite Hframe by (apply Z.eqb_neq; exact E0). rewrite E0.
    destruct (_ && _) eqn:Ec.
    + injection H as <- <-. reflexivity.
    + apply (IH tt); try assumption.
      pose proof (cap_pos cap k Hk Hcap).
      rewrite (next_pos cap k Hk Hcap). apply Z.mod_pos_bound. lia.
Qed.

(** *** The arena while it has room *)

(** [add] with room left stores at [buf + used] and leaves the buffer where
    it is: the terms stored before stay where the entries point. *)
Lemma Arena_add_room (a : Arena) (s : list Z) (len : Z) :
  0 <= len -> arena_used a + len + 1 <= arena_cap a ->
  arena_cap (Arena_add a s len) = arena_cap a /\
  arena_used (Arena_add a s len) <= arena_used a + len + 1 /\
  arena_used a <= arena_used (Arena_add a s len) /\
  take (length (arena_buf a)) (arena_buf (Arena_add a s len)) = arena_buf a.
Proof.
  intros Hlen Hroom. unfold Arena_add, arena_used, zlen in *. simpl.
  destruct (Z.ltb_spec (arena_cap a)
              (Z.of_nat (length (arena_buf a)) + (len + 1))); [lia|].
  split; [reflexivity|].
  rewrite !length_app, length_take. simpl.
  split; [lia|]. split; [lia|].
  now rewrite take_app_length.
Qed.

(** While no growth is due and the arena has room for the term, asking the
    table for a term twice gives the same slot both times and the second
    call changes nothing: a term has one entry, and so one posting list.
    The arena is not reallocated by either call, so the entries keep
    pointing at their terms. *)
Theorem get_or_create_again (tt : TermTable) (s : list Z) (len : Z) :
  tt_wf tt -> 0 < len -> (tt_used tt + 1) * 10 < tt_cap tt * 7 ->
  arena_used (tt_arena tt) + len + 1 <= arena_cap (tt_arena tt) ->
  exists tt2 pos,
    get_or_create tt s len = Some (tt2, Some pos) /\
    get_or_create tt2 s len = Some (tt2, Some pos) /\
    te_hash (slot (tt_tab tt2) pos) = fnv1a_64 s len /\
    arena_cap (tt_arena tt2) = arena_cap (tt_arena tt) /\
    take (length (arena_buf (tt_arena tt))) (arena_buf (tt_arena tt2))
      = arena_buf (tt_arena tt).
Proof.
  intros Hwf Hlen Hroom Harena. pose proof Hwf as ((k & Hk & Hcap) & Hl & Hused).
  destruct (get_or_create_total tt s len Hwf Hlen)
    as (tt1 & tt2 & pos & Hg & _ & _ & _ & He & _ & Hpos).
  exists tt2, pos. split; [exact He|].
  unfold get_or_create, maybe_grow in *.
  replace (len <=? 0) with false in * by (symmetry; apply Z.leb_gt; lia).
  destruct (Z.ltb_spec (tt_used tt * 10) (tt_cap tt * 7)); [|lia].
  injection Hg as <-. simpl in He.
  destruct (get_or_create_probe _ tt s len _ _ _) as [[tt2' p]|] eqn:Hprobe;
    [|discriminate].
  simpl in He. injection He as -> ->.
  destruct (get_or_create_probe_inv _ _ _ _ _ _ _ _ _ Hprobe) as (Hc & Hcase).
  assert (Hu2 : tt_used tt2 <= tt_used tt + 1)
    by (destruct Hcase as [(-> & _)|[_ ->]]; simpl; lia).
  assert (Hh : te_hash (slot (tt_tab tt2) pos) = fnv1a_64 s len).
  { destruct Hcase as [(-> & _ & Heq)|[H0 ->]]; [exact Heq|].
    simpl. unfold slot. rewrite nth_insert_eq; [reflexivity|].
    rewrite Hc in Hpos. unfold zlen in Hl. lia. }
  assert (Ha : arena_cap (tt_arena tt2) = arena_cap (tt_arena tt) /\
               take (length (arena_buf (tt_arena tt))) (arena_buf (tt_arena tt2))
                 = arena_buf (tt_arena tt)).
  { destruct Hcase as [(-> & _)|[_ ->]].
    - split; [reflexivity|]. apply firstn_all.
    - simpl.
      destruct (Arena_add_room (tt_arena tt) s len ltac:(lia) Harena)
        as (H1 & _ & _ & H2).
      split; assumption. }
  split; [|split; [exact Hh|exact Ha]].
  destruct (Z.ltb_spec (tt_used tt2 * 10) (tt_cap tt2 * 7)); [|lia].
  simpl. rewrite Hc.
  rewrite (get_or_create_probe_again s len _ (tt_cap tt) k Hk Hcap
             (fnv1a_64_nonzero s len) _ tt _ tt2 pos eq_refl Hl); [reflexivity| |exact Hprobe].
  rewrite (land_mask _ _ k) by assumption. apply Z.mod_pos_bound.
  apply (cap_pos _ k Hk Hcap).
Qed.

Lemma get_or_create_again_witness :
  exists tt2 pos,
    get_or_create (TermTable_init 16 64) (str "hello") 5 = Some (tt2, Some pos) /\
    get_or_create tt2 (str "hello") 5 = Some (tt2, Some pos) /\
    te_hash (slot (tt_tab tt2) pos) = fnv1a_64 (str "hello") 5 /\
    arena_cap (tt_arena tt2) = 64 /\
    take 0 (arena_buf (tt_arena tt2)) = [].
Proof.
  apply (get_or_create_again (TermTable_init 16 64) (str "hello") 5);
    [apply (TermTable_init_wf 4); lia|lia|simpl; lia|vm_compute; discriminate].
Defined.

End HashTables.

(** ** Growth of the table and the per-document loop *)

Section Documents.
Import Indexer.

(** *** [maybe_grow] keeps every entry *)

Lemma find_empty_inv cap k : 0 <= k -> cap = 2 ^ k ->
  forall fuel tab pos p, 0 <= pos < cap ->
  find_empty fuel tab (cap - 1) pos = Some p ->
  te_hash (slot tab p) = 0 /\ 0 <= p < cap.
Proof.
  intros Hk Hcap. induction fuel as [|fuel IH]; intros tab pos p Hp H;
    simpl in H; [discriminate|].
  destruct (Z.eqb_spec (te_hash (slot tab pos)) 0) as [H0|Hne].
  - injection H as <-. auto.
  - apply IH in H; [exact H|].
    pose proof (cap_pos cap k Hk Hcap).
    rewrite (next_pos cap k Hk Hcap). apply Z.mod_pos_bound. lia.
Qed.

Lemma live_entries_replicate n : live_entries (replicate n TermEntry_zero) = [].
Proof. induction n as [|n IH]; [reflexivity|exact IH]. Qed.

Lemma live_entries_insert tab : forall p e,
  (p < length tab)%nat -> te_hash (nth p tab TermEntry_zero) = 0 ->
  te_hash e <> 0 ->
  live_entries (<[p := e]> tab) ≡ₚ e :: live_entries tab.
Proof.
  unfold live_entries.
  induction tab as [|x tab IH]; intros p e Hp H0 He; simpl in Hp; [lia|].
  destruct p as [|p]; simpl in *.
  - rewrite H0. destruct (Z.eqb_spec (te_hash e) 0); [contradiction|]. reflexivity.
  - destruct (te_hash x =? 0); simpl.
    + apply IH; [lia|assumption|assumption].
    + rewrite IH by (assumption || lia). apply Permutation_swap.
Qed.

Lemma rehash_keeps_entries cap k : 0 <= k -> cap = 2 ^ k ->
  forall old tab used tab' used',
  zlen tab = cap ->
  rehash old tab cap used = Some (tab', used') ->
  live_entries tab' ≡ₚ live_entries old ++ live_entries tab.
Proof.
  intros Hk Hcap. pose proof (cap_pos cap k Hk Hcap) as Hpos.
  induction old as [|e old IH]; intros tab used tab' used' Hl H; simpl in H.
  - injection H as <- <-. reflexivity.
  - unfold live_entries at 2. simpl. fold (live_entries old).
    destruct (Z.eqb_spec (te_hash e) 0) as [H0|Hne]; simpl.
    + eapply IH; eassumption.
    + destruct (find_empty _ tab _ _) as [p|] eqn:Hf; [|discriminate]. simpl in H.
      apply (find_empty_inv cap k Hk Hcap) in Hf as (Hz & Hp).
      2:{ rewrite (land_mask _ cap k) by assumption. apply Z.mod_pos_bound. lia. }
      apply IH in H; [|unfold zlen in *; now rewrite length_insert].
      rewrite H, live_entries_insert; [|unfold zlen in Hl; lia|exact Hz|exact Hne].
      symmetry. apply Permutation_middle.
Qed.

(** Growing the table loses nothing and invents nothing: the entries in use
    after [maybe_grow] are those in use before, each with its term and its
    posting list, only in other slots; the capacity stays or doubles and
    the arena is the same. *)
Theorem maybe_grow_keeps_entries (tt : TermTable) :
  tt_wf tt ->
  exists tt1, maybe_grow tt = Some tt1 /\
    live_entries (tt_tab tt1) ≡ₚ live_entries (tt_tab tt) /\
    tt_arena tt1 = tt_arena tt /\
    (tt_cap tt1 = tt_cap tt \/ tt_cap tt1 = tt_cap tt * 2).
Proof.
  intros Hwf. destruct (maybe_grow_invariant tt Hwf) as (tt1 & Hg & _).
  exists tt1. split; [exact Hg|].
  destruct Hwf as ((k & Hk & Hcap) & Hlen & _).
  unfold maybe_grow in Hg.
  destruct (tt_used tt * 10 <? tt_cap tt * 7).
  - injection Hg as <-. auto.
  - destruct (rehash _ _ _ _) as [[tab used]|] eqn:Hr; [|discriminate].
    simpl in Hg. injection Hg as <-. simpl.
    split; [|split; [reflexivity|now right]].
    assert (Hpos : 0 < tt_cap tt) by (rewrite Hcap; apply Z.pow_pos_nonneg; lia).
    apply (rehash_keeps_entries (tt_cap tt * 2) (k + 1)) in Hr.
    + now rewrite Hr, live_entries_replicate, app_nil_r.
    + lia.
    + rewrite Z.pow_add_r, Hcap by lia. lia.
    + unfold zlen. rewrite length_replicate. lia.
Qed.

Lemma maybe_grow_keeps_entries_witness :
  exists tt1, maybe_grow full_table = Some tt1 /\
    live_entries (tt_tab tt1) ≡ₚ live_entries (tt_tab full_table) /\
    tt_arena tt1 = tt_arena full_table /\
    (tt_cap tt1 = tt_cap full_table \/ tt_cap tt1 = tt_cap full_table * 2).
Proof.
  apply maybe_grow_keeps_entries.
  split; [exists 1; split; [lia|reflexivity]|]. split; reflexivity.
Defined.

(** *** The entries stay in order while documents come in *)

Lemma post_ok_mono d v l : d <= v -> post_ok d l -> post_ok v l.
Proof.
  intros Hdv [Ha Hb]. split; [exact Ha|].
  eapply Forall_impl; [exact Hb|]. simpl. intros. lia.
Qed.

Lemma entry_ok_mono d v e : d <= v -> entry_ok d e -> entry_ok v e.
Proof.
  intros Hdv H Hh. destruct (H Hh) as [Ht Hp]. split; [exact Ht|].
  eapply post_ok_mono; eassumption.
Qed.

Lemma entries_ok_mono d v tt : d <= v -> entries_ok d tt -> entries_ok v tt.
Proof.
  intros Hdv H. eapply Forall_impl; [exact H|]. intros e. now apply (entry_ok_mono d).
Qed.

Lemma entry_ok_zero d : entry_ok d TermEntry_zero.
Proof. intros H. now contradiction H. Qed.

Lemma post_ok_push d v l :
  post_ok d l -> d <= v -> post_ok v (push_unique_sorted l v).
Proof.
  intros [Ha Hb] Hdv. unfold post_ok. rewrite push_unique_sorted_a.
  case_decide as Hl.
  - split; [exact Ha|]. eapply Forall_impl; [exact Hb|]. simpl. intros. lia.
  - split.
    + apply ascending_snoc; [exact Ha|]. intros w Hw.
      assert (w <= d).
      { apply last_Some_elem_of in Hw. rewrite Forall_forall in Hb. now apply Hb. }
      assert (w <> v) by (intros ->; now apply Hl). lia.
    + apply Forall_app. split.
      * eapply Forall_impl; [exact Hb|]. simpl. intros. lia.
      * constructor; [lia|constructor].
Qed.

Lemma slot_entry_ok d tab p : Forall (entry_ok d) tab -> entry_ok d (slot tab p).
Proof.
  intros H. unfold slot. rewrite nth_lookup.
  destruct (tab !! Z.to_nat p) as [e|] eqn:E; simpl.
  - eapply Forall_lookup_1; eassumption.
  - apply entry_ok_zero.
Qed.

Lemma rehash_entries_ok d cap : forall old tab used tab' used',
  Forall (entry_ok d) old -> Forall (entry_ok d) tab ->
  rehash old tab cap used = Some (tab', used') -> Forall (entry_ok d) tab'.
Proof.
  induction old as [|e old IH]; intros tab used tab' used' Ho Ht H; simpl in H.
  - now injection H as <- <-.
  - inversion Ho as [|? ? He Ho']; subst.
    destruct (te_hash e =? 0).
    + eapply IH; [exact Ho'|exact Ht|exact H].
    + destruct (find_empty _ _ _ _) as [p|] eqn:Hf; [|discriminate]. simpl in H.
      eapply IH; [exact Ho'| |exact H]. now apply Forall_insert.
Qed.

Lemma maybe_grow_entries_ok d tt tt1 :
  entries_ok d tt -> maybe_grow tt = Some tt1 -> entries_ok d tt1.
Proof.
  unfold maybe_grow, entries_ok. intros Hok H.
  destruct (_ <? _); [now injection H as <-|].
  destruct (rehash _ _ _ _) as [[tab used]|] eqn:Hr; [|discriminate].
  simpl in H. injection H as <-. simpl.
  eapply rehash_entries_ok; [exact Hok| |exact Hr].
  apply Forall_replicate. apply entry_ok_zero.
Qed.

Lemma get_or_create_entries_ok d tt s len tt2 e :
  entries_ok d tt -> 1 <= len <= 255 -> len <= zlen s ->
  Forall lower_alnum (take (Z.to_nat len) s) ->
  get_or_create tt s len = Some (tt2, e) -> entries_ok d tt2.
Proof.
  intros Hok Hlen Hs Hal H. unfold get_or_create in H.
  destruct (len <=? 0); [now injection H as <- <-|].
  destruct (maybe_grow tt) as [tt1|] eqn:Hg; [|discriminate]. simpl in H.
  apply (maybe_grow_entries_ok d) in Hg; [|exact Hok].
  destruct (get_or_create_probe _ _ _ _ _ _ _) as [[tt2' p]|] eqn:Hp; [|discriminate].
  simpl in H. injection H as <- <-.
  destruct (get_or_create_probe_inv _ _ _ _ _ _ _ _ _ Hp)
    as (_ & [(-> & _)|[_ ->]]); [exact Hg|].
  unfold entries_ok. simpl. apply Forall_insert; [exact Hg|].
  intros _. split.
  - unfold term_ok. simpl.
    assert (zlen (take (Z.to_nat len) s) = len)
      by (unfold zlen in *; rewrite length_take; lia).
    split; [lia|]. split; [exact Hal|].
    rewrite Z.mod_small by lia. congruence.
  - split; [constructor|constructor].
Qed.

Lemma push_post_entries_ok d v tt pos :
  entries_ok d tt -> d <= v -> entries_ok v (push_post tt pos v).
Proof.
  intros Hok Hdv. unfold entries_ok, push_post. simpl.
  apply Forall_insert.
  - eapply Forall_impl; [exact Hok|]. intros e. now apply (entry_ok_mono d).
  - intros Hh. simpl in Hh.
    destruct (slot_entry_ok d (tt_tab tt) pos Hok Hh) as [Ht Hp].
    split; [exact Ht|]. simpl. now apply (post_ok_push d).
Qed.

Lemma index_token_ok doc_id st :
  doc_state_ok doc_id st -> 0 < d_tok_len st ->
  exists st', index_token doc_id st = Some st' /\ doc_state_ok doc_id st'.
Proof.
  intros (Hwf & Hds & Hok & Hlen & Hz & Hal) Hpos. unfold index_token.
  destruct (contains_or_add_effect (d_dset st) (d_tok st) (d_tok_len st) Hds)
    as (r & ds' & -> & _ & Hds' & _). simpl.
  assert (Htok : forall tt' u, tok_ok (mkDocState tt' ds' (d_tok st) 0
                                         (d_tokens st + 1) u)).
  { intros. unfold tok_ok. simpl. split; [lia|]. split; [unfold zlen; lia|].
    constructor. }
  destruct (r =? 0).
  - destruct (get_or_create_total (d_tt st) (d_tok st) (d_tok_len st) Hwf Hpos)
      as (_ & tt2 & pos & _ & _ & _ & _ & He & Hwf2 & _).
    rewrite He. simpl. eexists. split; [reflexivity|].
    split; [apply push_post_wf; exact Hwf2|]. split; [exact Hds'|].
    split; [|apply Htok]. simpl.
    apply (push_post_entries_ok doc_id); [|lia].
    eapply get_or_create_entries_ok; [exact Hok| | | |exact He]; (lia || assumption).
  - eexists. split; [reflexivity|]. split; [exact Hwf|]. split; [exact Hds'|].
    split; [exact Hok|apply Htok].
Qed.

Lemma index_byte_ok doc_id st c :
  doc_state_ok doc_id st ->
  exists st', index_byte doc_id st c = Some st' /\ doc_state_ok doc_id st'.
Proof.
  intros Hst. unfold index_byte.
  destruct (is_ascii_alnum c) eqn:Hc.
  - unfold TOK_MAX. destruct (Z.ltb_spec (d_tok_len st) (256 - 1)) as [Hlt|Hge].
    + eexists. split; [reflexivity|].
      destruct Hst as (Hwf & Hds & Hok & Hlen & Hz & Hal).
      split; [exact Hwf|]. split; [exact Hds|]. split; [exact Hok|].
      unfold tok_ok. simpl.
      assert (Hl : length (take (Z.to_nat (d_tok_len st)) (d_tok st))
                   = Z.to_nat (d_tok_len st))
        by (unfold zlen in Hz; rewrite length_take; lia).
      split; [lia|]. split.
      * unfold zlen. rewrite length_app, Hl. simpl. lia.
      * rewrite take_ge by (rewrite length_app, Hl; simpl; lia).
        apply Forall_app. split; [exact Hal|].
        constructor; [|constructor]. now apply lower_alnum_to_lower.
    + exists st. auto.
  - destruct (Z.ltb_spec 0 (d_tok_len st)).
    + now apply index_token_ok.
    + exists st. auto.
Qed.

Lemma index_bytes_ok doc_id data : forall st,
  doc_state_ok doc_id st ->
  exists st', index_bytes doc_id st data = Some st' /\ doc_state_ok doc_id st'.
Proof.
  induction data as [|c data IH]; intros st Hst; simpl.
  - exists st. auto.
  - destruct (index_byte_ok doc_id st c Hst) as (st1 & -> & Hst1). simpl.
    now apply IH.
Qed.

Lemma process_one_doc_ok txt doc_id d tt dset cnt :
  tt_wf tt -> ds_wf dset -> entries_ok d tt -> d <= doc_id ->
  exists rc tt' dset' cnt',
    process_one_doc txt doc_id tt dset cnt = Some (rc, tt', dset', cnt') /\
    (rc = 0 \/ rc = -1) /\
    tt_wf tt' /\ ds_wf dset' /\ entries_ok doc_id tt'.
Proof.
  intros Hwf Hds Hok Hd. unfold process_one_doc.
  destruct txt as [data|].
  2:{ eexists _, _, _, _. split; [reflexivity|]. split; [now right|].
      split; [exact Hwf|]. split; [exact Hds|].
      now apply (entries_ok_mono d). }
  destruct (index_bytes_ok doc_id data
              (mkDocState tt (DocTermSet_reset dset) [] 0 (total_tokens cnt) 0))
    as (st1 & -> & Hst1).
  { split; [exact Hwf|]. split; [now apply DocTermSet_reset_wf|].
    split; [now apply (entries_ok_mono d)|].
    unfold tok_ok. simpl. split; [lia|]. split; [unfold zlen; simpl; lia|].
    constructor. }
  simpl.
  assert (exists st2, (if 0 <? d_tok_len st1 then index_token doc_id st1
                       else Some st1) = Some st2 /\ doc_state_ok doc_id st2)
    as (st2 & -> & (Hwf2 & Hds2 & Hok2 & _)).
  { destruct (Z.ltb_spec 0 (d_tok_len st1)).
    - now apply index_token_ok.
    - exists st1. auto. }
  simpl. eexists _, _, _, _. split; [reflexivity|]. split; [now left|]. auto.
Qed.

(** *** The arenas stay where they are while the document fits *)

Lemma maybe_grow_arena tt tt1 : maybe_grow tt = Some tt1 -> tt_arena tt1 = tt_arena tt.
Proof.
  unfold maybe_grow. intros H.
  destruct (_ <? _); [now injection H as <-|].
  destruct (rehash _ _ _ _) as [[tab used]|]; [|discriminate].
  simpl in H. now injection H as <-.
Qed.

Lemma get_or_create_arena tt s len tt2 e :
  0 <= len -> get_or_create tt s len = Some (tt2, e) ->
  arena_used (tt_arena tt) + len + 1 <= arena_cap (tt_arena tt) ->
  arena_cap (tt_arena tt2) = arena_cap (tt_arena tt) /\
  arena_used (tt_arena tt2) <= arena_used (tt_arena tt) + len + 1 /\
  arena_buf (tt_arena tt) `prefix_of` arena_buf (tt_arena tt2).
Proof.
  intros Hlen H Hroom. unfold get_or_create in H.
  destruct (len <=? 0).
  { injection H as <- <-. split; [reflexivity|]. split; [lia|reflexivity]. }
  destruct (maybe_grow tt) as [tt1|] eqn:Hg; [|discriminate]. simpl in H.
  apply maybe_grow_arena in Hg.
  destruct (get_or_create_probe _ _ _ _ _ _ _) as [[tt2' p]|] eqn:Hp; [|discriminate].
  simpl in H. injection H as <- <-.
  destruct (get_or_create_probe_inv _ _ _ _ _ _ _ _ _ Hp)
    as (_ & [(-> & _)|[_ ->]]); rewrite <- Hg in Hroom |- *.
  - split; [reflexivity|]. split; [lia|reflexivity].
  - simpl.
    destruct (Arena_add_room (tt_arena tt1) s len Hlen Hroom) as (H1 & H2 & _ & H3).
    split; [exact H1|]. split; [exact H2|].
    rewrite <- H3 at 1. apply prefix_take.
Qed.

Lemma contains_or_add_probe_arena s len h mask : forall fuel ds pos r ds',
  contains_or_add_probe fuel ds s len h mask pos = Some (r, ds') ->
  ds_arena ds' = ds_arena ds \/ ds_arena ds' = Arena_add (ds_arena ds) s len.
Proof.
  induction fuel as [|fuel IH]; intros ds pos r ds' H; [discriminate|].
  cbn [contains_or_add_probe] in H.
  destruct (de_hash (dslot (ds_tab ds) pos) =? 0).
  - injection H as <- <-. now right.
  - destruct (_ && _) in H.
    + injection H as <- <-. now left.
    + eapply IH; eassumption.
Qed.

Lemma contains_or_add_arena ds s len r ds' :
  0 <= len -> contains_or_add ds s len = Some (r, ds') ->
  arena_used (ds_arena ds) + len + 1 <= arena_cap (ds_arena ds) ->
  arena_cap (ds_arena ds') = arena_cap (ds_arena ds) /\
  arena_used (ds_arena ds') <= arena_used (ds_arena ds) + len + 1.
Proof.
  intros Hlen H Hroom. unfold contains_or_add in H.
  destruct (len <=? 0); [injection H as <- <-; split; [reflexivity|lia]|].
  destruct (_ <=? _); [injection H as <- <-; split; [reflexivity|lia]|].
  apply contains_or_add_probe_arena in H as [->| ->]; [split; [reflexivity|lia]|].
  destruct (Arena_add_room (ds_arena ds) s len Hlen Hroom) as (H1 & H2 & _).
  split; assumption.
Qed.

Lemma index_token_fit ct cd doc_id st st' rest :
  0 <= d_tok_len st -> 0 <= rest ->
  index_token doc_id st = Some st' -> arenas_fit ct cd st rest ->
  arenas_fit ct cd st' (rest - 1) /\
  arena_buf (tt_arena (d_tt st)) `prefix_of` arena_buf (tt_arena (d_tt st')).
Proof.
  intros Hlen Hrest H (Ht & Hd & Ft & Fd). unfold index_token in H.
  destruct (contains_or_add _ _ _) as [[already dset']|] eqn:Hc; [|discriminate].
  simpl in H.
  destruct (contains_or_add_arena _ _ _ _ _ Hlen Hc) as (Hd1 & Hd2); [lia|].
  destruct (already =? 0).
  - destruct (get_or_create _ _ _) as [[tt' e]|] eqn:Hg; [|discriminate].
    simpl in H. injection H as <-.
    destruct (get_or_create_arena _ _ _ _ _ Hlen Hg) as (Ht1 & Ht2 & Hp); [lia|].
    assert (Ha : tt_arena (match e with
                           | Some pos => push_post tt' pos doc_id
                           | None => tt'
                           end) = tt_arena tt') by (destruct e; reflexivity).
    unfold arenas_fit. simpl. rewrite Ha.
    split; [|exact Hp]. split; [lia|]. split; [lia|]. split; lia.
  - injection H as <-. unfold arenas_fit. simpl.
    split; [|reflexivity]. split; [lia|]. split; [lia|]. split; lia.
Qed.

Lemma index_byte_fit ct cd doc_id st c st' rest :
  0 <= d_tok_len st -> 0 <= rest ->
  index_byte doc_id st c = Some st' -> arenas_fit ct cd st (rest + 1) ->
  arenas_fit ct cd st' rest /\ 0 <= d_tok_len st' /\
  arena_buf (tt_arena (d_tt st)) `prefix_of` arena_buf (tt_arena (d_tt st')).
Proof.
  intros Hlen Hrest H Hfit. unfold index_byte in H.
  destruct (is_ascii_alnum c).
  - destruct (_ <? _); injection H as <-; destruct Hfit as (Ht & Hd & Ft & Fd);
      unfold arenas_fit; simpl;
      (split; [|split; [lia|reflexivity]]); (split; [lia|]); (split; [lia|]);
      split; lia.
  - destruct (Z.ltb_spec 0 (d_tok_len st)).
    + pose proof H as H'. unfold index_token in H'.
      destruct (index_token_fit ct cd doc_id st st' (rest + 1) Hlen ltac:(lia) H Hfit)
        as (Hf & Hp).
      replace (rest + 1 - 1) with rest in Hf by lia.
      split; [exact Hf|]. split; [|exact Hp].
      destruct (contains_or_add _ _ _) as [[already dset']|]; [|discriminate].
      simpl in H'. destruct (already =? 0).
      * destruct (get_or_create _ _ _) as [[tt' e]|]; [|discriminate].
        simpl in H'. injection H' as <-. simpl. lia.
      * injection H' as <-. simpl. lia.
    + injection H as <-. destruct Hfit as (Ht & Hd & Ft & Fd).
      unfold arenas_fit. split; [|split; [lia|reflexivity]].
      split; [lia|]. split; [lia|]. split; lia.
Qed.

Lemma index_bytes_fit ct cd doc_id data : forall st st',
  0 <= d_tok_len st ->
  index_bytes doc_id st data = Some st' -> arenas_fit ct cd st (zlen data) ->
  arenas_fit ct cd st' 0 /\ 0 <= d_tok_len st' /\
  arena_buf (tt_arena (d_tt st)) `prefix_of` arena_buf (tt_arena (d_tt st')).
Proof.
  induction data as [|c data IH]; intros st st' Hlen H Hfit; simpl in H.
  - injection H as <-. split; [exact Hfit|]. split; [exact Hlen|reflexivity].
  - destruct (index_byte doc_id st c) as [st1|] eqn:Hb; [|discriminate].
    simpl in H.
    assert (Hz : zlen (c :: data) = zlen data + 1) by (unfold zlen; simpl; lia).
    rewrite Hz in Hfit.
    destruct (index_byte_fit ct cd doc_id st c st1 (zlen data) Hlen
                ltac:(unfold zlen; lia) Hb Hfit) as (Hf1 & Hl1 & Hp1).
    destruct (IH st1 st' Hl1 H Hf1) as (Hf & Hl & Hp).
    split; [exact Hf|]. split; [exact Hl|]. etransitivity; eassumption.
Qed.

Lemma process_one_doc_fit txt doc_id tt dset cnt rc tt' dset' cnt' :
  doc_fits txt tt dset ->
  process_one_doc txt doc_id tt dset cnt = Some (rc, tt', dset', cnt') ->
  arena_cap (tt_arena tt') = arena_cap (tt_arena tt) /\
  arena_cap (ds_arena dset') = arena_cap (ds_arena dset) /\
  arena_buf (tt_arena tt) `prefix_of` arena_buf (tt_arena tt').
Proof.
  intros Hfit H. unfold process_one_doc in H.
  destruct txt as [data|]; [|injection H as <- <- <- <-; auto].
  destruct (Hfit data eq_refl) as (Ft & Fd).
  destruct (index_bytes _ _ _) as [st1|] eqn:Hb; [|discriminate]. simpl in H.
  apply (index_bytes_fit (arena_cap (tt_arena tt)) (arena_cap (ds_arena dset)))
    in Hb as (Hf1 & Hl1 & Hp1); [|simpl; lia|].
  2:{ unfold arenas_fit, arena_used, zlen in *. simpl. split; [reflexivity|].
      split; [reflexivity|]. split; lia. }
  simpl in Hp1.
  destruct (Z.ltb_spec 0 (d_tok_len st1)).
  - destruct (index_token doc_id st1) as [st2|] eqn:Ht; [|discriminate].
    simpl in H. injection H as <- <- <- <-.
    destruct (index_token_fit _ _ doc_id st1 st2 0 Hl1 ltac:(lia) Ht Hf1)
      as ((H1 & H2 & _) & Hp2).
    split; [exact H1|]. split; [exact H2|]. etransitivity; eassumption.
  - simpl in H. injection H as <- <- <- <-.
    destruct Hf1 as (H1 & H2 & _). auto.
Qed.

(** Between documents, while the arenas have room for the document: every
    entry in use holds a term of 1 to 255 bytes of [0-9a-z], and a strictly
    ascending posting list with no id above the document just read.
    Document ids that never go down keep this true, so the lists
    [write_block] stores are ascending and free of repeats.  Neither arena
    is reallocated and the bytes stored before stay in place, so every
    entry still points at its term. *)
Theorem process_one_doc_keeps_postings txt doc_id d tt dset cnt :
  tt_wf tt -> ds_wf dset -> entries_ok d tt -> d <= doc_id ->
  doc_fits txt tt dset ->
  exists rc tt' dset' cnt',
    process_one_doc txt doc_id tt dset cnt = Some (rc, tt', dset', cnt') /\
    tt_wf tt' /\ ds_wf dset' /\ entries_ok doc_id tt' /\
    arena_cap (tt_arena tt') = arena_cap (tt_arena tt) /\
    arena_cap (ds_arena dset') = arena_cap (ds_arena dset) /\
    arena_buf (tt_arena tt) `prefix_of` arena_buf (tt_arena tt').
Proof.
  intros Hwf Hds Hok Hd Hfit.
  destruct (process_one_doc_ok txt doc_id d tt dset cnt Hwf Hds Hok Hd)
    as (rc & tt' & dset' & cnt' & H & _ & H1 & H2 & H3).
  exists rc, tt', dset', cnt'.
  pose proof (process_one_doc_fit _ _ _ _ _ _ _ _ _ Hfit H) as (H4 & H5 & H6).
  auto 10.
Qed.

Lemma process_one_doc_keeps_postings_witness :
  exists rc tt' dset' cnt',
    process_one_doc (Some (str "b, a c")) 3 (TermTable_init 2 64)
                    (DocTermSet_init 8 64) (mkCounters 0 0 0)
      = Some (rc, tt', dset', cnt') /\
    tt_wf tt' /\ ds_wf dset' /\ entries_ok 3 tt' /\
    arena_cap (tt_arena tt') = 64 /\
    arena_cap (ds_arena dset') = 64 /\
    [] `prefix_of` arena_buf (tt_arena tt').
Proof.
  apply (process_one_doc_keeps_postings (Some (str "b, a c")) 3 0
           (TermTable_init 2 64) (DocTermSet_init 8 64)).
  - apply (TermTable_init_wf 1). lia.
  - apply (DocTermSet_init_wf 3). lia.
  - constructor; [|constructor; [|constructor]]; intros Hh; now contradiction Hh.
  - lia.
  - intros data Hdata. injection Hdata as <-. vm_compute. split; discriminate.
Defined.

(** *** [process_one_doc] always returns *)





End Documents.

(** ** Strings and files of the builder *)

Section BuilderFiles.
Import Indexer.

(** *** Arena *)

Lemma double_until_ge fuel : forall c target,
  1 <= c -> target <= c * 2 ^ Z.of_nat fuel ->
  target <= double_until fuel c target /\ c <= double_until fuel c target.
Proof.
  induction fuel as [|fuel IH]; intros c target Hc Ht.
  - simpl in *. lia.
  - cbn [double_until]. destruct (Z.ltb_spec c target).
    + destruct (IH (c * 2) target) as [H1 H2]; [lia| |lia].
      rewrite Nat2Z.inj_succ, Z.pow_succ_r in Ht by lia. lia.
    + lia.
Qed.

Lemma c_str_app s rest : no_nul s -> c_str (s ++ 0 :: rest) = s.
Proof.
  induction 1 as [|c s Hc _ IH]; [reflexivity|].
  simpl. destruct (Z.eqb_spec c 0); [contradiction|]. now rewrite IH.
Qed.

Lemma Arena_add_facts (a : Arena) (s : list Z) (len : Z) :
  0 <= len <= zlen s -> 0 <= arena_cap a ->
  arena_used (Arena_add a s len) = arena_used a + len + 1 /\
  arena_used (Arena_add a s len) <= arena_cap (Arena_add a s len) /\
  arena_cap a <= arena_cap (Arena_add a s len).
Proof.
  intros Hlen Hcap.
  assert (Hu : arena_used (Arena_add a s len) = arena_used a + len + 1).
  { unfold arena_used, Arena_add, zlen in *. simpl.
    rewrite !length_app, length_take. simpl. lia. }
  split; [exact Hu|]. rewrite Hu. unfold Arena_add. simpl.
  destruct (Z.ltb_spec (arena_cap a) (arena_used a + (len + 1))); [|lia].
  set (target := arena_used a + (len + 1)).
  set (c := if arena_cap a =? 0 then 2 ^ 20 else arena_cap a).
  assert (Hc : 1 <= c /\ arena_cap a <= c).
  { unfold c. destruct (Z.eqb_spec (arena_cap a) 0); lia. }
  assert (Ht : 0 < target) by (unfold target, arena_used, zlen; lia).
  destruct (double_until_ge (Z.to_nat (Z.log2_up target) + 1) c target) as [H1 H2];
    [lia| |fold target; lia].
  pose proof (Z.log2_up_nonneg target).
  rewrite Nat2Z.inj_add, Z2Nat.id by lia.
  assert (target <= 2 ^ Z.log2_up target).
  { destruct (Z.eq_dec target 1) as [->|]; [simpl; lia|].
    apply Z.log2_up_spec. lia. }
  rewrite Z.pow_add_r by lia.
  assert (0 < 2 ^ Z.log2_up target) by (apply Z.pow_pos_nonneg; lia).
  simpl (2 ^ Z.of_nat 1). nia.
Qed.

(** [Arena::add] keeps the string inside the buffer: afterwards
    [used <= cap] (the doubling loop has made room), the bytes stored
    before are untouched, and the C string at the returned pointer, the old
    [used], is the string that was added. *)
Theorem Arena_add_stores_string (a : Arena) (s : list Z) (len : Z) :
  0 <= len <= zlen s -> 0 <= arena_cap a -> no_nul (take (Z.to_nat len) s) ->
  let a' := Arena_add a s len in
  arena_used a' = arena_used a + len + 1 /\
  arena_used a' <= arena_cap a' /\ arena_cap a <= arena_cap a' /\
  take (Z.to_nat (arena_used a)) (arena_buf a') = arena_buf a /\
  c_str (drop (Z.to_nat (arena_used a)) (arena_buf a')) = take (Z.to_nat len) s.
Proof.
  intros Hlen Hcap Hs a'.
  destruct (Arena_add_facts a s len Hlen Hcap) as (H1 & H2 & H3).
  split; [exact H1|]. split; [exact H2|]. split; [exact H3|].
  unfold a', Arena_add, arena_used, zlen. simpl. rewrite Nat2Z.id. split.
  - now rewrite take_app_length.
  - rewrite drop_app_length. now apply c_str_app.
Qed.

Lemma Arena_add_stores_string_witness :
  let a' := Arena_add (Arena_init 4) (str "title") 5 in
  arena_used a' = arena_used (Arena_init 4) + 5 + 1 /\
  arena_used a' <= arena_cap a' /\ arena_cap (Arena_init 4) <= arena_cap a' /\
  take (Z.to_nat (arena_used (Arena_init 4))) (arena_buf a') = arena_buf (Arena_init 4) /\
  c_str (drop (Z.to_nat (arena_used (Arena_init 4))) (arena_buf a')) =
    take (Z.to_nat 5) (str "title").
Proof.
  apply Arena_add_stores_string.
  - vm_compute. split; discriminate.
  - simpl. lia.
  - repeat constructor; discriminate.
Defined.

(** *** DocsBuilder *)



(** *** Blocks *)

Lemma le_bytes_length n : forall v, length (le_bytes n v) = n.
Proof. induction n as [|n IH]; intros v; simpl; [reflexivity|now rewrite IH]. Qed.

Lemma le_value_le_bytes n : forall v,
  0 <= v < 256 ^ Z.of_nat n -> le_value (le_bytes n v) = v.
Proof.
  induction n as [|n IH]; intros v Hv.
  - simpl in *. lia.
  - cbn [le_bytes le_value]. rewrite Nat2Z.inj_succ, Z.pow_succ_r in Hv by lia.
    rewrite IH.
    + pose proof (Z.div_mod v 256 ltac:(lia)). lia.
    + split; [apply Z.div_pos; lia|apply Z.div_lt_upper_bound; lia].
Qed.

Lemma take_bytes_app (a b : list Z) n :
  zlen a = n -> take_bytes n (a ++ b) = Some (a, b).
Proof.
  intros <-. unfold take_bytes, zlen. rewrite length_app.
  destruct (Z.ltb_spec (Z.of_nat (length a + length b)) (Z.of_nat (length a))); [lia|].
  now rewrite Nat2Z.id, take_app_length, drop_app_length.
Qed.

Lemma u32_list_concat ids :
  Forall (fun v => 0 <= v < 2 ^ 32) ids ->
  u32_list (length ids) (concat (map u32 ids)) = ids.
Proof.
  induction 1 as [|v ids Hv _ IH]; [reflexivity|].
  cbn [length u32_list map concat].
  assert (Hl : length (u32 v) = 4%nat) by apply le_bytes_length.
  rewrite <- Hl at 1 2. rewrite take_app_length, drop_app_length, IH.
  unfold u32. now rewrite le_value_le_bytes by (simpl; lia).
Qed.

Lemma concat_u32_length ids : zlen (concat (map u32 ids)) = zlen ids * 4.
Proof.
  unfold zlen. induction ids as [|v ids IH]; [reflexivity|].
  cbn [map concat]. rewrite length_app. unfold u32 at 1.
  rewrite le_bytes_length. simpl length. lia.
Qed.

Lemma BlockReader_next_entry (br : BlockReader) (e : TermEntry) (rest : list Z) (fs : FS) :
  br_remaining br <> 0 ->
  br_file br = block_entry_bytes e ++ rest ->
  entry_fits e ->
  BlockReader_next br fs =
    (Ret (mkBlockReader rest (br_remaining br - 1) (Some (te_term e)) (te_len e)
            (U32List_n (te_post e)) (U32List_a (te_post e))), fs).
Proof.
  intros Hrem Hfile (Hlen & Hl16 & Hn32 & Hids). unfold BlockReader_next.
  destruct (Z.eqb_spec (br_remaining br) 0); [contradiction|].
  rewrite Hfile. unfold block_entry_bytes. rewrite <- !app_assoc.
  assert (H0 : 0 <= te_len e) by (rewrite Hlen; unfold zlen; lia).
  assert (Hn0 : 0 <= U32List_n (te_post e)) by (unfold U32List_n, zlen; lia).
  assert (E16 : le_value (u16 (te_len e)) = te_len e)
    by (unfold u16; apply le_value_le_bytes; simpl; lia).
  assert (E32 : le_value (u32 (U32List_n (te_post e))) = U32List_n (te_post e))
    by (unfold u32; apply le_value_le_bytes; simpl; lia).
  rewrite take_bytes_app by (unfold u16, zlen; now rewrite le_bytes_length).
  rewrite take_bytes_app by (unfold u32, zlen; now rewrite le_bytes_length).
  rewrite E16, E32.
  rewrite take_bytes_app by (symmetry; exact Hlen).
  rewrite take_bytes_app by (rewrite concat_u32_length; reflexivity).
  replace (Z.to_nat (U32List_n (te_post e))) with (length (U32List_a (te_post e)))
    by (unfold U32List_n, zlen; lia).
  rewrite u32_list_concat by exact Hids. reflexivity.
Qed.

(** [BlockReader::next] reads back what [write_block] stores for an entry:
    the term, its length, the count and the doc-ids, and it leaves the file
    at the entry that follows.  The fields have to fit their widths. *)
Theorem BlockReader_next_reads_entry (br : BlockReader) (e : TermEntry)
  (rest : list Z) (fs : FS) :
  br_remaining br <> 0 ->
  br_file br = block_entry_bytes e ++ rest ->
  entry_fits e ->
  BlockReader_next br fs =
    (Ret (mkBlockReader rest (br_remaining br - 1) (Some (te_term e)) (te_len e)
            (U32List_n (te_post e)) (U32List_a (te_post e))), fs).
Proof. apply BlockReader_next_entry. Qed.

Lemma BlockReader_next_reads_entry_witness :
  BlockReader_next
    (mkBlockReader (block_entry_bytes (slot (tt_tab full_table) 0) ++ [7]) 1 None 0 0 [])
    ∅ =
  (Ret (mkBlockReader [7] (1 - 1) (Some (str "a")) 1 2 [0; 2]), ∅).
Proof.
  apply (BlockReader_next_reads_entry
           (mkBlockReader (block_entry_bytes (slot (tt_tab full_table) 0) ++ [7])
                          1 None 0 0 [])
           (slot (tt_tab full_table) 0) [7] ∅).
  - simpl. lia.
  - reflexivity.
  - split; [reflexivity|]. split; [reflexivity|]. split; [reflexivity|].
    repeat constructor; simpl; lia.
Defined.

Lemma read_after_write fs p data fs' :
  write_file fs p data = Some fs' -> read_file fs' p = Some data.
Proof.
  unfold write_file, read_file. destruct (split_path p) as [d b].
  destruct (is_dir fs p); [discriminate|].
  destruct (fs !! d) as [ents|]; [|discriminate]. simpl. intros [= <-].
  rewrite lookup_insert_eq. simpl. now rewrite find_put_entry_eq.
Qed.

Lemma insert_by_Forall {A} (P : A -> Prop) cmp x l :
  P x -> Forall P l -> Forall P (insert_by cmp x l).
Proof.
  intros Hx. induction 1 as [|y l Hy Hl IH]; simpl.
  - constructor; [exact Hx|constructor].
  - destruct (_ <=? _).
    + constructor; [exact Hx|]. now constructor.
    + now constructor.
Qed.

Lemma qsort_Forall {A} (P : A -> Prop) cmp l : Forall P l -> Forall P (qsort cmp l).
Proof.
  unfold qsort. induction 1 as [|x l Hx Hl IH]; simpl; [constructor|].
  now apply insert_by_Forall.
Qed.

Lemma insert_by_length {A} cmp (x : A) l :
  length (insert_by cmp x l) = S (length l).
Proof.
  induction l as [|y l IH]; simpl; [reflexivity|].
  destruct (_ <=? _); simpl; [reflexivity|now rewrite IH].
Qed.

Lemma qsort_length {A} cmp (l : list A) : length (qsort cmp l) = length l.
Proof.
  unfold qsort. induction l as [|x l IH]; simpl; [reflexivity|].
  now rewrite insert_by_length, IH.
Qed.

Lemma live_entries_Forall (P : TermEntry -> Prop) tab :
  Forall (fun e => te_hash e <> 0 -> P e) tab -> Forall P (live_entries tab).
Proof.
  unfold live_entries. induction 1 as [|e l He _ IH]; simpl; [constructor|].
  destruct (Z.eqb_spec (te_hash e) 0); simpl; [exact IH|].
  constructor; [now apply He|exact IH].
Qed.

(** A block that [write_block] has written opens again: [BlockReader::open]
    accepts the header and stands at the first entry in term order, with
    the other entries still to be read; for an empty table the reader is
    at its end at once. *)
Theorem write_block_then_open (path : string) (table : TermTable) (fs fs' : FS) :
  write_block path table fs = (Ret tt, fs') ->
  zlen (tt_tab table) < 2 ^ 32 ->
  Forall (fun e => te_hash e <> 0 -> entry_fits e) (tt_tab table) ->
  BlockReader_open path fs' =
    (Ret (reader_at (qsort term_cmp_lex (live_entries (tt_tab table)))), fs').
Proof.
  unfold write_block, fwrite_all. fold (live_entries (tt_tab table)).
  set (sorted := qsort term_cmp_lex (live_entries (tt_tab table))).
  intros Hw Hsz Hfit.
  destruct (write_file fs path _) as [fs1|] eqn:Hwf; [|discriminate].
  injection Hw as <-. apply read_after_write in Hwf.
  assert (Hlive : Forall entry_fits sorted).
  { apply qsort_Forall. now apply live_entries_Forall. }
  assert (Hn : 0 <= zlen sorted < 2 ^ 32).
  { unfold sorted, zlen in *. rewrite qsort_length. unfold live_entries.
    pose proof (List.filter_length_le (fun e => negb (te_hash e =? 0)) (tt_tab table)).
    lia. }
  unfold BlockReader_open. erewrite bind_Ret; [|unfold fopen_r; rewrite Hwf; reflexivity].
  rewrite (app_assoc (str "BLK1")).
  rewrite take_bytes_app by (unfold zlen, u32; rewrite length_app, le_bytes_length;
                             reflexivity).
  replace (memcmp (str "BLK1" ++ u32 (wrap32 (zlen sorted))) (str "BLK1") 4) with 0
    by reflexivity.
  change (negb (0 =? 0)) with false. cbv iota.
  replace (le_value (drop 4 (str "BLK1" ++ u32 (wrap32 (zlen sorted)))))
    with (zlen sorted).
  2:{ change (drop 4 (str "BLK1" ++ u32 (wrap32 (zlen sorted))))
        with (u32 (wrap32 (zlen sorted))).
      unfold wrap32. rewrite Z.mod_small by lia.
      unfold u32. now rewrite le_value_le_bytes by (simpl; lia). }
  destruct sorted as [|e es] eqn:Hs.
  - reflexivity.
  - inversion Hlive as [|? ? He Hes]; subst.
    cbn [map concat reader_at].
    erewrite BlockReader_next_entry; [| |reflexivity|exact He].
    + simpl br_remaining. unfold zlen. simpl length.
      replace (Z.of_nat (S (length es)) - 1) with (Z.of_nat (length es)) by lia.
      reflexivity.
    + simpl. unfold zlen. simpl. lia.
Qed.

Lemma write_block_then_open_witness :
  BlockReader_open "out/blocks/block_0000.blk"
    (snd (write_block "out/blocks/block_0000.blk" full_table fresh_fs_with_dirs)) =
  (Ret (reader_at (qsort term_cmp_lex (live_entries (tt_tab full_table)))),
   snd (write_block "out/blocks/block_0000.blk" full_table fresh_fs_with_dirs)).
Proof.
  apply (write_block_then_open _ full_table fresh_fs_with_dirs).
  - vm_compute. reflexivity.
  - vm_compute. reflexivity.
  - constructor; [|constructor; [|constructor]]; intros _.
    + split; [reflexivity|]. split; [reflexivity|]. split; [reflexivity|].
      repeat constructor; simpl; lia.
    + split; [reflexivity|]. split; [reflexivity|]. split; [reflexivity|].
      repeat constructor; simpl; lia.
Defined.

(** *** extract_json_string *)

Lemma copy_quoted_facts (P : Z -> Prop) (n : nat) : forall p room,
  (length p <= n)%nat -> Forall P p ->
  zlen (copy_quoted p room) <= Z.max 0 room /\ Forall P (copy_quoted p room).
Proof.
  induction n as [|n IH]; intros p room Hn HP.
  - destruct p; [|simpl in Hn; lia]. simpl. split; [unfold zlen; simpl; lia|constructor].
  - destruct p as [|c p]; [simpl; split; [unfold zlen; simpl; lia|constructor]|].
    cbn [copy_quoted]. inversion HP as [|? ? Hc Hp]; subst. simpl in Hn.
    destruct (c =? 34); [simpl; split; [unfold zlen; simpl; lia|constructor]|].
    destruct (Z.leb_spec room 0); simpl;
      [split; [unfold zlen; simpl; lia|constructor]|].
    destruct (c =? 92).
    + destruct p as [|c2 p].
      * split; [unfold zlen; simpl; lia|now constructor].
      * inversion Hp as [|? ? Hc2 Hp2]; subst. simpl in Hn.
        destruct (IH p (room - 1)) as [Hl Hf]; [lia|exact Hp2|].
        split; [unfold zlen in *; simpl; lia|now constructor].
    + destruct (IH p (room - 1)) as [Hl Hf]; [lia|exact Hp|].
      split; [unfold zlen in *; simpl; lia|now constructor].
Qed.

Lemma strstr_Forall (P : Z -> Prop) pat : forall s p,
  Forall P s -> strstr s pat = Some p -> Forall P p.
Proof.
  induction s as [|c s IH]; intros p Hs H; simpl in H.
  - destruct (has_prefix pat []); [now injection H as <-|discriminate].
  - destruct (has_prefix pat (c :: s)); [now injection H as <-|].
    inversion Hs; subst. now apply IH.
Qed.

Lemma skip_blanks_Forall (P : Z -> Prop) s : Forall P s -> Forall P (skip_blanks s).
Proof.
  induction 1 as [|c s Hc Hs IH]; simpl; [constructor|].
  destruct (_ || _); [exact IH|now constructor].
Qed.

(** Whatever the line, the value [extract_json_string] hands back fits the
    buffer: at most [out_cap - 1] bytes, so that the closing NUL is written
    inside [out]; and the bytes are bytes of the line. *)
Theorem extract_json_string_fits (line key out : list Z) (out_cap : Z) :
  1 <= out_cap -> no_nul line ->
  extract_json_string line key out_cap = Some out ->
  zlen out <= out_cap - 1 /\ no_nul out /\ Forall (fun c => c ∈ line) out.
Proof.
  intros Hcap Hline. unfold extract_json_string.
  destruct (strstr line _) as [p|] eqn:Hp; [|discriminate]. simpl.
  assert (Hall : Forall (fun c => c <> 0 /\ c ∈ line) line).
  { apply Forall_forall. intros c Hc. split; [|exact Hc].
    unfold no_nul in Hline. rewrite Forall_forall in Hline. now apply Hline. }
  apply (strstr_Forall _ _ _ _ Hall) in Hp.
  apply (Forall_drop _ (length (take 63 ([34] ++ key ++ [34; ch ":"])))) in Hp.
  apply skip_blanks_Forall in Hp.
  destruct (skip_blanks _) as [|c p']; [discriminate|].
  destruct (c =? 34); [|discriminate]. intros [= <-].
  inversion Hp as [|? ? _ Hp']; subst.
  destruct (copy_quoted_facts _ (length p') p' (out_cap - 1) (le_n _) Hp') as [Hl Hf].
  split; [lia|]. split.
  - eapply Forall_impl; [exact Hf|]. now intros ? [? _].
  - eapply Forall_impl; [exact Hf|]. now intros ? [_ ?].
Qed.

Lemma extract_json_string_fits_witness :
  zlen (str "Porter") <= 7 - 1 /\ no_nul (str "Porter") /\
  Forall (fun c => c ∈ title_line) (str "Porter").
Proof.
  apply (extract_json_string_fits title_line (str "title") (str "Porter") 7).
  - lia.
  - repeat constructor; discriminate.
  - reflexivity.
Defined.

Lemma skip_blanks_app ws s :
  Forall is_blank ws -> skip_blanks (ws ++ 34 :: s) = 34 :: s.
Proof.
  induction 1 as [|c ws Hc _ IH]; [reflexivity|].
  simpl. destruct Hc as [-> | ->]; exact IH.
Qed.

Lemma copy_quoted_plain rest : forall v room,
  Forall plain_byte v ->
  copy_quoted (v ++ 34 :: rest) room = take (Z.to_nat room) v.
Proof.
  induction v as [|c v IH]; intros room Hv.
  - simpl. now rewrite take_nil.
  - inversion Hv as [|? ? [H34 H92] Hv']; subst. cbn [app copy_quoted].
    destruct (Z.eqb_spec c 34); [contradiction|].
    destruct (Z.leb_spec room 0); simpl.
    + now replace (Z.to_nat room) with O by lia.
    + destruct (Z.eqb_spec c 92); [contradiction|].
      rewrite IH by exact Hv'.
      now replace (Z.to_nat room) with (S (Z.to_nat (room - 1))) by lia.
Qed.

(** Where the first ["key":] of the line is followed by blanks and a quoted
    value without quotes or backslashes, [extract_json_string] returns that
    value, cut to the [out_cap - 1] bytes the buffer takes. *)
Theorem extract_json_string_value (line key ws v rest : list Z) (out_cap : Z) :
  zlen key <= 60 ->
  strstr line (json_pat key)
    = Some (json_pat key ++ ws ++ [34] ++ v ++ [34] ++ rest) ->
  Forall is_blank ws -> Forall plain_byte v ->
  extract_json_string line key out_cap = Some (take (Z.to_nat (out_cap - 1)) v).
Proof.
  intros Hkey Hstr Hws Hv. unfold extract_json_string. fold (json_pat key).
  rewrite take_ge by (unfold json_pat, zlen in *; rewrite !length_app; simpl; lia).
  rewrite Hstr. simpl mbind. cbv beta.
  rewrite drop_app_length, skip_blanks_app by exact Hws.
  simpl. now rewrite copy_quoted_plain.
Qed.

Lemma extract_json_string_value_witness :
  extract_json_string title_line (str "title") 4096 =
    Some (take (Z.to_nat (4096 - 1)) (str "Porter")).
Proof.
  apply (extract_json_string_value title_line (str "title") (str " ")
           (str "Porter") (str "}")).
  - vm_compute. discriminate.
  - reflexivity.
  - repeat constructor.
  - repeat constructor; discriminate.
Defined.

End BuilderFiles.

(** ** The query loop of the search program *)

Section QueryLoop.
Import SearchCli.

(** *** chomp *)

Lemma chomp_loop_spec (s : list Z) : forall n,
  (n <= length s)%nat ->
  chomp_loop s n ++ drop (length (chomp_loop s n)) (take n s) = take n s /\
  Forall (fun c => c = 10 \/ c = 13) (drop (length (chomp_loop s n)) (take n s)) /\
  (forall c, last (chomp_loop s n) = Some c -> c <> 10 /\ c <> 13).
Proof.
  induction n as [|n IH]; intros Hn.
  - simpl. rewrite take_0. simpl. split; [reflexivity|]. split; [constructor|].
    discriminate.
  - cbn [chomp_loop].
    destruct (lookup_lt_is_Some_2 s n ltac:(lia)) as [c Hc].
    rewrite (nth_lookup_Some _ _ _ _ Hc).
    assert (Hsnoc : take (S n) s = take n s ++ [c]) by (now apply take_S_r).
    destruct ((c =? 10) || (c =? 13)) eqn:E.
    + destruct (IH ltac:(lia)) as (H1 & H2 & H3).
      assert (Hle : (length (chomp_loop s n) <= length (take n s))%nat).
      { pose proof (f_equal length H1) as Hlen. rewrite length_app in Hlen. lia. }
      rewrite Hsnoc, drop_app_le by exact Hle.
      split; [now rewrite app_assoc, H1|]. split; [|exact H3].
      apply Forall_app. split; [exact H2|].
      constructor; [|constructor].
      apply orb_true_iff in E as [E|E]; apply Z.eqb_eq in E; auto.
    + rewrite drop_all. rewrite app_nil_r. split; [reflexivity|].
      split; [constructor|].
      intros c' Hl. rewrite Hsnoc, last_snoc in Hl. injection Hl as <-.
      apply orb_false_iff in E as [E1 E2].
      apply Z.eqb_neq in E1. apply Z.eqb_neq in E2. auto.
Qed.

Lemma c_str_take (s : list Z) : take (length (c_str s)) s = c_str s.
Proof.
  induction s as [|c s IH]; [reflexivity|].
  simpl. destruct (c =? 0); [reflexivity|]. simpl. now rewrite IH.
Qed.

Lemma c_str_length (s : list Z) : (length (c_str s) <= length s)%nat.
Proof.
  induction s as [|c s IH]; [simpl; lia|].
  simpl. destruct (c =? 0); simpl; lia.
Qed.

(** [chomp] cuts the line feeds and carriage returns off the end of the C
    string in the buffer and nothing else: the string is what is left
    followed by bytes 10 and 13 only, and what is left does not end in one
    of them. *)
Theorem chomp_strips_line_ends (s : list Z) :
  exists tail, c_str s = chomp s ++ tail /\
    Forall (fun c => c = 10 \/ c = 13) tail /\
    (forall c, last (chomp s) = Some c -> c <> 10 /\ c <> 13).
Proof.
  destruct (chomp_loop_spec s (length (c_str s)) (c_str_length s)) as (H1 & H2 & H3).
  rewrite c_str_take in H1, H2.
  exists (drop (length (chomp s)) (c_str s)). unfold chomp. auto.
Qed.

(** *** The output loop *)





End QueryLoop.

(** ** The search program reads what the builder wrote *)

Section LoadIndex.
Import SearchCli.

Lemma DocsBuilder_write_to_file d path :
  Indexer.DocsBuilder_write_to d path = Indexer.fwrite_all path (docs_file d).
Proof. reflexivity. Qed.

Lemma LexBuilder_write_to_file l path :
  Indexer.LexBuilder_write_to l path = Indexer.fwrite_all path (lexicon_file l).
Proof. reflexivity. Qed.

Lemma le_at_here n v y :
  0 <= v < 256 ^ Z.of_nat n -> le_at (Indexer.le_bytes n v ++ y) 0 n = v.
Proof.
  intros Hv. unfold le_at. rewrite drop_0.
  rewrite take_app_length' by (symmetry; apply le_bytes_length).
  now apply le_value_le_bytes.
Qed.

Lemma le_at_skip x y off n :
  (length x <= off)%nat -> le_at (x ++ y) off n = le_at y (off - length x) n.
Proof. intros H. unfold le_at. now rewrite drop_app_ge. Qed.

Ltac le_field :=
  repeat (rewrite le_at_skip by (rewrite ?le_bytes_length; simpl; lia);
          rewrite ?le_bytes_length; simpl (_ - _)%nat);
  apply le_at_here; simpl; lia.

Lemma read_DocRec_bytes r rest :
  docrec_fits r -> read_DocRec (Indexer.DocRec_bytes r ++ rest) = docrec_conv r.
Proof.
  intros (H1 & H2 & H3 & H4). unfold read_DocRec, docrec_conv, Indexer.DocRec_bytes,
    Indexer.u64, Indexer.u32.
  rewrite <- !app_assoc. f_equal; le_field.
Qed.

Lemma read_LexRec_bytes r rest :
  lexrec_fits r -> read_LexRec (Indexer.LexRec_bytes r ++ rest) = lexrec_conv r.
Proof.
  intros (H1 & H2 & H3 & H4 & H5 & H6 & H7).
  unfold read_LexRec, lexrec_conv, Indexer.LexRec_bytes,
    Indexer.u64, Indexer.u32, Indexer.u16.
  rewrite <- !app_assoc. f_equal; le_field.
Qed.

Lemma read_array_concat {A B} (enc : A -> list Z) (dec : list Z -> B)
  (conv : A -> B) (size : nat) (P : A -> Prop) :
  (forall r, length (enc r) = size) ->
  (forall r rest, P r -> dec (enc r ++ rest) = conv r) ->
  forall recs rest, Forall P recs ->
  read_array dec size (length recs) (concat (map enc recs) ++ rest) = map conv recs.
Proof.
  intros Hsize Hdec. induction recs as [|r recs IH]; intros rest HP; [reflexivity|].
  inversion HP as [|? ? Hr HP']; subst. cbn [length read_array map concat].
  rewrite <- app_assoc, Hdec by exact Hr.
  rewrite drop_app_length' by (symmetry; apply Hsize). now rewrite IH.
Qed.

Lemma concat_fixed_length {A} (enc : A -> list Z) (size : nat) recs :
  (forall r, length (enc r) = size) ->
  length (concat (map enc recs)) = (length recs * size)%nat.
Proof.
  intros Hsize. induction recs as [|r recs IH]; [reflexivity|].
  cbn [map concat length]. rewrite length_app, Hsize, IH. lia.
Qed.

Lemma DocRec_bytes_length r : length (Indexer.DocRec_bytes r) = 24%nat.
Proof.
  unfold Indexer.DocRec_bytes, Indexer.u64, Indexer.u32.
  now rewrite !length_app, !le_bytes_length.
Qed.

Lemma LexRec_bytes_length r : length (Indexer.LexRec_bytes r) = 32%nat.
Proof.
  unfold Indexer.LexRec_bytes, Indexer.u64, Indexer.u32, Indexer.u16.
  now rewrite !length_app, !le_bytes_length.
Qed.

(** A file of the layout magic, version 1, count, pool size, 32 reserved
    bytes, records, pool: the header passes the tests of [load] and the
    fields, the records and the pool are found where [load] looks. *)
Lemma header_file_parse {A B} (magic : list Z) (n pool_bytes : Z)
  (enc : A -> list Z) (dec : list Z -> B) (conv : A -> B) (size : nat)
  (P : A -> Prop) (recs : list A) (pool : list Z) :
  length magic = 4%nat ->
  (forall r, length (enc r) = size) ->
  (forall r rest, P r -> dec (enc r ++ rest) = conv r) ->
  Forall P recs -> n = zlen recs -> n < 2 ^ 32 -> 0 <= pool_bytes < 2 ^ 64 ->
  let file := (magic ++ Indexer.u32 1 ++ Indexer.u32 n ++ Indexer.u64 pool_bytes
               ++ replicate 32 0) ++ concat (map enc recs) ++ pool in
  bad_header file magic 52 = false /\
  le_at file 4 4 = 1 /\ le_at file 8 4 = n /\ le_at file 12 8 = pool_bytes /\
  read_array dec size (Z.to_nat n) (drop 52 file) = map conv recs /\
  drop (52 + Z.to_nat n * size) file = pool.
Proof.
  intros Hm Hsize Hdec HP Hn Hn32 Hpool file.
  assert (Hhl : length (magic ++ Indexer.u32 1 ++ Indexer.u32 n
                        ++ Indexer.u64 pool_bytes ++ replicate 32 0) = 52%nat).
  { unfold Indexer.u32, Indexer.u64.
    rewrite !length_app, !le_bytes_length, length_replicate, Hm. reflexivity. }
  assert (Hn0 : 0 <= n) by (rewrite Hn; unfold zlen; lia).
  assert (Hv : le_at file 4 4 = 1).
  { unfold file, Indexer.u32, Indexer.u64. rewrite <- !app_assoc.
    rewrite le_at_skip by lia. rewrite Hm. simpl (_ - _)%nat.
    apply le_at_here. simpl. lia. }
  split; [|split; [exact Hv|]].
  - unfold bad_header. rewrite Hv. simpl (negb (1 =? 1)). rewrite orb_false_r.
    apply orb_false_iff. split.
    + apply Z.ltb_ge. unfold file, zlen. rewrite length_app, Hhl. lia.
    + unfold file. rewrite <- !app_assoc.
      rewrite <- (memcmp_take_l 4 4) by lia.
      rewrite take_app_length' by (symmetry; exact Hm). rewrite memcmp_refl. reflexivity.
  - split; [|split; [|split]].
    + unfold file, Indexer.u32, Indexer.u64. rewrite <- !app_assoc.
      rewrite le_at_skip by lia. rewrite Hm. simpl (_ - _)%nat.
      rewrite le_at_skip by (rewrite le_bytes_length; lia).
      rewrite le_bytes_length. simpl (_ - _)%nat. apply le_at_here. simpl. lia.
    + unfold file, Indexer.u32, Indexer.u64. rewrite <- !app_assoc.
      rewrite le_at_skip by lia. rewrite Hm. simpl (_ - _)%nat.
      rewrite le_at_skip by (rewrite le_bytes_length; lia).
      rewrite le_bytes_length. simpl (_ - _)%nat.
      rewrite le_at_skip by (rewrite le_bytes_length; lia).
      rewrite le_bytes_length. simpl (_ - _)%nat. apply le_at_here. simpl. lia.
    + unfold file. rewrite drop_app_length' by (symmetry; exact Hhl).
      rewrite Hn. unfold zlen. rewrite Nat2Z.id.
      now apply (read_array_concat enc dec conv size P).
    + unfold file. rewrite app_assoc.
      replace (52 + Z.to_nat n * size)%nat
        with (length ((magic ++ Indexer.u32 1 ++ Indexer.u32 n
                       ++ Indexer.u64 pool_bytes ++ replicate 32 0)
                      ++ concat (map enc recs))).
      * apply drop_app_length.
      * rewrite length_app, Hhl, (concat_fixed_length enc size) by exact Hsize.
        rewrite Hn. unfold zlen. now rewrite Nat2Z.id.
Qed.

Lemma load_builder_files (fs : Indexer.FS) (dir : string)
  (d : Indexer.DocsBuilder) (l : Indexer.LexBuilder) (post : list Z) :
  Indexer.read_file fs (dir ++ "/docs.bin") = Some (docs_file d) ->
  Indexer.read_file fs (dir ++ "/lexicon.bin") = Some (lexicon_file l) ->
  Indexer.read_file fs (dir ++ "/postings.bin")
    = Some (Indexer.PostHeader_bytes ++ post) ->
  Indexer.db_n d < 2 ^ 32 -> Indexer.arena_used (Indexer.db_pool d) < 2 ^ 64 ->
  Forall docrec_fits (Indexer.db_recs d) ->
  Indexer.lb_n l < 2 ^ 32 -> Indexer.arena_used (Indexer.lb_pool l) < 2 ^ 64 ->
  Forall lexrec_fits (Indexer.lb_recs l) ->
  load fs dir = Some (loaded_index d l (Indexer.PostHeader_bytes ++ post)).
Proof.
  intros Hd Hl Hp Hdn Hdp Hdr Hln Hlp Hlr. unfold load.
  rewrite Hd, Hl, Hp.
  change (load_files (docs_file d) (lexicon_file l) (Indexer.PostHeader_bytes ++ post)
          = Some (loaded_index d l (Indexer.PostHeader_bytes ++ post))).
  unfold load_files.
  destruct (header_file_parse (str "DOCS") (Indexer.db_n d)
              (Indexer.arena_used (Indexer.db_pool d))
              Indexer.DocRec_bytes read_DocRec docrec_conv 24 docrec_fits
              (Indexer.db_recs d) (Indexer.arena_buf (Indexer.db_pool d)))
    as (D1 & D2 & D3 & D4 & D5 & D6);
    [reflexivity|apply DocRec_bytes_length|apply read_DocRec_bytes|exact Hdr
    |reflexivity|exact Hdn|unfold Indexer.arena_used, zlen in *; lia|].
  assert (Hlen : length (lexicon_recs l) = length (Indexer.lb_recs l))
    by apply qsort_length.
  destruct (header_file_parse (str "LEXI") (Indexer.lb_n l)
              (Indexer.arena_used (Indexer.lb_pool l))
              Indexer.LexRec_bytes read_LexRec lexrec_conv 32 lexrec_fits
              (lexicon_recs l) (Indexer.arena_buf (Indexer.lb_pool l)))
    as (L1 & L2 & L3 & L4 & L5 & L6);
    [reflexivity|apply LexRec_bytes_length|apply read_LexRec_bytes
    |now apply qsort_Forall|unfold Indexer.lb_n, zlen; now rewrite Hlen
    |exact Hln|unfold Indexer.arena_used, zlen in *; lia|].
  change (Indexer.DocsHeader_bytes (Indexer.db_n d)
            (Indexer.arena_used (Indexer.db_pool d)))
    with (str "DOCS" ++ Indexer.u32 1 ++ Indexer.u32 (Indexer.db_n d)
          ++ Indexer.u64 (Indexer.arena_used (Indexer.db_pool d))
          ++ replicate 32 0) in *.
  unfold docs_file, lexicon_file, sizeof_DocsHeader, sizeof_LexHeader,
    sizeof_PostHeader.
  change (Indexer.LexHeader_bytes (Indexer.lb_n l)
            (Indexer.arena_used (Indexer.lb_pool l)))
    with (str "LEXI" ++ Indexer.u32 1 ++ Indexer.u32 (Indexer.lb_n l)
          ++ Indexer.u64 (Indexer.arena_used (Indexer.lb_pool l))
          ++ replicate 32 0).
  change (Indexer.DocsHeader_bytes (Indexer.db_n d)
            (Indexer.arena_used (Indexer.db_pool d)))
    with (str "DOCS" ++ Indexer.u32 1 ++ Indexer.u32 (Indexer.db_n d)
          ++ Indexer.u64 (Indexer.arena_used (Indexer.db_pool d))
          ++ replicate 32 0).
  cbv zeta. cbn [dh_doc_count lh_term_count].
  rewrite D1, L1, D2, D3, D4, D5, D6, L2, L3, L4, L5, L6.
  replace (bad_header (Indexer.PostHeader_bytes ++ post) (str "POST") 40)
    with false; [reflexivity|].
  symmetry. unfold bad_header.
  assert (Hz : (zlen (Indexer.PostHeader_bytes ++ post) <? 40) = false).
  { apply Z.ltb_ge. unfold zlen. rewrite length_app.
    change (length Indexer.PostHeader_bytes) with 40%nat. lia. }
  rewrite Hz. reflexivity.
Qed.

(** [Index::load] accepts the files the builder writes and finds in them
    what the builder put there: the doc count, the document records and
    the string pool of [DocsBuilder::write_to]; the term count, the
    records in their sorted order and the term pool of
    [LexBuilder::write_to].  The two programs agree on the layout of
    [docs.bin] and [lexicon.bin]. *)
Theorem load_reads_builder_files (fs : Indexer.FS) (dir : string)
  (d : Indexer.DocsBuilder) (l : Indexer.LexBuilder) (post : list Z) :
  Indexer.read_file fs (dir ++ "/docs.bin") = Some (docs_file d) ->
  Indexer.read_file fs (dir ++ "/lexicon.bin") = Some (lexicon_file l) ->
  Indexer.read_file fs (dir ++ "/postings.bin")
    = Some (Indexer.PostHeader_bytes ++ post) ->
  Indexer.db_n d < 2 ^ 32 -> Indexer.arena_used (Indexer.db_pool d) < 2 ^ 64 ->
  Forall docrec_fits (Indexer.db_recs d) ->
  Indexer.lb_n l < 2 ^ 32 -> Indexer.arena_used (Indexer.lb_pool l) < 2 ^ 64 ->
  Forall lexrec_fits (Indexer.lb_recs l) ->
  load fs dir = Some (loaded_index d l (Indexer.PostHeader_bytes ++ post)).
Proof. apply load_builder_files. Qed.

Lemma load_reads_builder_files_witness :
  load built_fs "out"
    = Some (loaded_index one_doc one_term (Indexer.PostHeader_bytes ++ [0; 0; 0; 0])).
Proof.
  apply load_reads_builder_files.
  - reflexivity.
  - reflexivity.
  - reflexivity.
  - vm_compute. reflexivity.
  - vm_compute. reflexivity.
  - repeat constructor; vm_compute; congruence.
  - vm_compute. reflexivity.
  - vm_compute. reflexivity.
  - repeat constructor; vm_compute; congruence.
Defined.

(** *** Titles and URLs come back *)







End LoadIndex.

(** ** The lexicon from the builder to the binary search *)

Section LexiconRoundTrip.
Import SearchCli.


(** *** Sorting by term *)

Section Sorting.
Variable pool : list Z.
Let key := lexrec_term pool.
Let cmp := Indexer.lexrec_cmp_by_term pool.







End Sorting.

(** *** What [add_term] stores *)






(** *** From [add_term] to [find_term] *)




End LexiconRoundTrip.
